(** * Scrapely: resilient fetch, response cache, pagination and batching

    A shallow embedding of [src/index.js] (class [Scrapely] and its private
    helpers) together with the properties of its retry loop, response cache,
    paginator, batcher and list extractor.

    Conventions of the embedding.
    - A JavaScript [Map] is an association list in insertion order.
    - [Date.now()] is a read of an external clock: the n-th read returns
      [clock n].
    - [this._http.get] is an external transport: its n-th call on [url]
      settles as [transport n url].
    - An [async] method is a state-passing computation over the instance
      state; [throw] and a rejected promise are the [Throw] completion.
    - Every observable effect (an emitted event, a [_sleep], a transport
      call) is appended to the [trace] of the state, in program order.
    - Times are integers of milliseconds and delays exact rationals; the
      source computes in doubles, to the same values where the quotients
      are whole numbers.
    - A string is a sequence of characters of one byte; white space is
      that of ASCII, and what depends on it beyond the trimming itself is
      stated for strings of ASCII characters.
    - A plain object is the list of its own properties; an assignment to
      [__proto__] adds none. *)

From Stdlib Require Import List ZArith QArith Bool String Ascii Lia Arith.
Import ListNotations.
Open Scope string_scope.
Open Scope list_scope.
Close Scope Q_scope.
Set Warnings "-register-all".

(** ** JavaScript values *)

(** The values the embedded functions inspect.  Numbers are restricted to
    integers. *)
Inductive JsValue : Type :=
| VUndefined
| VNull
| VBool (b : bool)
| VNum (z : Z)
| VStr (s : string)
| VArr (items : list JsValue)
| VObj (fields : list (string * JsValue)).

(** [typeof v] *)
Definition js_typeof (v : JsValue) : string :=
  match v with
  | VUndefined => "undefined"
  | VNull => "object"
  | VBool _ => "boolean"
  | VNum _ => "number"
  | VStr _ => "string"
  | VArr _ => "object"
  | VObj _ => "object"
  end.

(** Truthiness of a string ([''] is falsy). *)
Definition str_truthy (s : string) : bool :=
  match s with
  | EmptyString => false
  | String _ _ => true
  end.

(** Truthiness of a value, as used by [!value], [a || b] and [c ? x : y]. *)
Definition js_truthy (v : JsValue) : bool :=
  match v with
  | VUndefined => false
  | VNull => false
  | VBool b => b
  | VNum z => negb (z =? 0)%Z
  | VStr s => str_truthy s
  | VArr _ => true
  | VObj _ => true
  end.

(** [v != null] (loose inequality: false for [null] and [undefined]). *)
Definition js_not_nullish (v : JsValue) : bool :=
  match v with
  | VUndefined => false
  | VNull => false
  | _ => true
  end.

(** ** Errors *)

(** [ValidationError(param, reason)] and [FetchError(url, attempts, cause)]
    are the classes of the source; [TypeError] is the engine's own; [Thrown]
    stands for any other thrown value (a transport failure, an exception of
    an observer or of a caller-supplied callback). *)
Inductive Exn : Type :=
| ValidationError (param reason : string)
| FetchError (url : string) (attempts : nat) (cause : Exn)
| TypeError (msg : string)
| Thrown (msg : string).

(** [err.meta.attempts] of a [FetchError]. *)
Definition meta_attempts (e : Exn) : option nat :=
  match e with
  | FetchError _ attempts _ => Some attempts
  | _ => None
  end.

(** [err.cause] of a [FetchError]. *)
Definition cause_of (e : Exn) : option Exn :=
  match e with
  | FetchError _ _ cause => Some cause
  | _ => None
  end.

Definition is_ValidationError (e : Exn) : bool :=
  match e with
  | ValidationError _ _ => true
  | _ => false
  end.

(** The [expectation] argument of [_assert]: ['string'], ['object'] or
    [true]. *)
Inductive Expectation : Type :=
| ExpString
| ExpObject
| ExpTrue.

(** [_assert(value, expectation, label)]: [None] when it returns, [Some e]
    when it throws [e]. *)
Definition _assert (value : JsValue) (expectation : Expectation)
    (label : string) : option Exn :=
  match expectation with
  | ExpString =>
      if negb (js_typeof value =? "string")
      then Some (ValidationError label "must be a string")
      else None
  | ExpObject =>
      if negb (js_typeof value =? "object") ||
         match value with VNull => true | _ => false end
      then Some (ValidationError label "must be a non-null object")
      else None
  | ExpTrue =>
      if negb (js_truthy value)
      then Some (ValidationError label "assertion failed")
      else None
  end.

(** ** Constants *)

Definition UA_POOL : list string :=
  [ "Mozilla/5.0 (Windows NT 10.0; Win64; x64) AppleWebKit/537.36 (KHTML, like Gecko) Chrome/131.0.0.0 Safari/537.36";
    "Mozilla/5.0 (Macintosh; Intel Mac OS X 14_5) AppleWebKit/537.36 (KHTML, like Gecko) Chrome/131.0.0.0 Safari/537.36";
    "Mozilla/5.0 (X11; Linux x86_64) AppleWebKit/537.36 (KHTML, like Gecko) Chrome/131.0.0.0 Safari/537.36";
    "Mozilla/5.0 (Windows NT 10.0; Win64; x64; rv:133.0) Gecko/20100101 Firefox/133.0";
    "Mozilla/5.0 (Macintosh; Intel Mac OS X 14_5) AppleWebKit/605.1.15 (KHTML, like Gecko) Version/18.1 Safari/605.1.15" ].

Definition DEFAULT_RETRIES : nat := 3.
Definition DEFAULT_RETRY_MS : Z := 1000.
Definition DEFAULT_CONCURRENCY : nat := 3.
Definition DEFAULT_MAX_PAGES : nat := 50.
Definition DEFAULT_CACHE_TTL : Z := 5 * 60000.
Definition DEFAULT_CACHE_MAX : Z := 200.

(** ** The response cache *)

(** A cache entry [{ data, ts }]. *)
Record CacheEntry : Type := mkEntry { data : string; ts : Z }.

(** [this._cache]: a [Map] from request URL to entry, in insertion order. *)
Definition Store : Type := list (string * CacheEntry).

(** [opts.cache] when it is not [null]. *)
Record CachePolicy : Type := mkPolicy { ttl : Z; maxSize : Z }.

(** [Map.prototype.get] *)
Fixpoint map_get (key : string) (m : Store) : option CacheEntry :=
  match m with
  | [] => None
  | (k, e) :: rest => if k =? key then Some e else map_get key rest
  end.

(** [Map.prototype.delete] *)
Fixpoint map_delete (key : string) (m : Store) : Store :=
  match m with
  | [] => []
  | (k, e) :: rest =>
      if k =? key then map_delete key rest else (k, e) :: map_delete key rest
  end.

(** [Map.prototype.set]: a present key keeps its position, a new key goes
    last. *)
Fixpoint map_set (key : string) (entry : CacheEntry) (m : Store) : Store :=
  match m with
  | [] => [(key, entry)]
  | (k, e) :: rest =>
      if k =? key then (k, entry) :: rest else (k, e) :: map_set key entry rest
  end.

(** [Map.prototype.size] *)
Definition map_size (m : Store) : Z := Z.of_nat (List.length m).

(** [map.keys().next().value]: the earliest-inserted key, [undefined] on an
    empty map. *)
Definition map_first_key (m : Store) : option string :=
  match m with
  | [] => None
  | (k, _) :: _ => Some k
  end.

(** The keys of a well-formed [Map] are pairwise distinct. *)
Definition store_wf (m : Store) : Prop := NoDup (List.map fst m).

(** [_cacheGet(key)], with [now] the value of [Date.now()]; returns the
    result ([None] for [undefined]) and the store it leaves. *)
Definition _cacheGet (policy : CachePolicy) (now : Z) (key : string)
    (m : Store) : option string * Store :=
  match map_get key m with
  | None => (None, m)
  | Some entry =>
      if (now - ts entry >? ttl policy)%Z
      then (None, map_delete key m)
      else (Some (data entry), m)
  end.

(** [_cachePut(key, data)], with [now] the value of [Date.now()]. *)
Definition _cachePut (policy : CachePolicy) (now : Z) (key : string)
    (body : string) (m : Store) : Store :=
  let m' :=
    if (map_size m >=? maxSize policy)%Z
    then match map_first_key m with
         | Some oldest => map_delete oldest m
         | None => m      (* delete(undefined) removes nothing *)
         end
    else m in
  map_set key (mkEntry body now) m'.

(** [clearCache()] on an enabled cache. *)
Definition clearCache (m : Store) : Store := [].

(** A cache operation together with the clock value it observes. *)
Inductive CacheOp : Type :=
| OpPut (key body : string) (now : Z)
| OpGet (key : string) (now : Z)
| OpClear.

Definition run_op (policy : CachePolicy) (m : Store) (op : CacheOp) : Store :=
  match op with
  | OpPut key body now => _cachePut policy now key body m
  | OpGet key now => snd (_cacheGet policy now key m)
  | OpClear => clearCache m
  end.

Definition run_ops (policy : CachePolicy) (ops : list CacheOp) (m : Store)
    : Store :=
  fold_left (run_op policy) ops m.

(** ** Observable effects *)

(** The events of the emitter, with their arguments. *)
Inductive Event : Type :=
| EvRequest (url : string)
| EvResponse (url : string) (status : Z)
| EvRetry (url : string) (attempt : nat) (err : Exn)
| EvError (err : Exn)
| EvCacheHit (url : string).

Definition event_name (ev : Event) : string :=
  match ev with
  | EvRequest _ => "request"
  | EvResponse _ _ => "response"
  | EvRetry _ _ _ => "retry"
  | EvError _ => "error"
  | EvCacheHit _ => "cacheHit"
  end.

(** What an execution does to the outside, in program order: [this.emit],
    [_sleep(ms)] and [this._http.get(url)]. *)
Inductive Effect : Type :=
| Emit (ev : Event)
| Sleep (ms : Q)
| HttpGet (url : string).

(** An observer registered with [on(name, listener)]: [None] when it
    returns, [Some e] when it throws [e]. *)
Definition Listener : Type := Event -> option Exn.

(** [res.data] of a transport response: a string, or another value given by
    what [String(res.data)] renders. *)
Inductive ResData : Type :=
| DataString (s : string)
| DataOther (rendered : string).

(** How one call of [this._http.get] settles: a response accepted by
    [validateStatus], or a rejection. *)
Inductive HttpResult : Type :=
| HttpOk (status : Z) (d : ResData)
| HttpFail (err : Exn).

(** The part of [this._opts] the embedded methods read.  [rateLimit] and
    [cache] are [None] for [null]. *)
Record Opts : Type := mkOpts {
  maxRetries : nat;
  retryDelay : Z;
  rateLimit : option Q;
  rotateUserAgent : bool;
  cache : option CachePolicy
}.

(** The outside of an instance: the clock, the transport, the registered
    observers by event name, and [new URL(rel, base).href] ([None] when the
    constructor throws). *)
Record Env : Type := mkEnv {
  clock : nat -> Z;
  transport : nat -> string -> HttpResult;
  listeners : string -> list Listener;
  url_href : JsValue -> JsValue -> option string
}.

(** The mutable state of an instance, with the counters of the clock reads
    and transport calls made so far and the trace of effects.  [_cache] is
    the [Map]; the source holds [null] there exactly when [opts.cache] is
    [null], and the methods test [cache opts] for it. *)
Record World : Type := mkWorld {
  _lastRequestAt : Z;
  _uaIndex : nat;
  userAgent : string;
  _cache : Store;
  ticks : nat;
  calls : nat;
  trace : list Effect
}.

(** [this._opts] after [new Scrapely()]. *)
Definition default_opts : Opts :=
  mkOpts DEFAULT_RETRIES DEFAULT_RETRY_MS None false None.

(** [opts.cache] after [new Scrapely({ cache: true })]. *)
Definition default_policy : CachePolicy :=
  mkPolicy DEFAULT_CACHE_TTL DEFAULT_CACHE_MAX.

(** The state a constructor leaves (default headers). *)
Definition initial_world : World :=
  mkWorld 0 0 (nth 0 UA_POOL EmptyString) [] 0 0 [].

Definition set_lastRequestAt (t : Z) (w : World) : World :=
  mkWorld t (_uaIndex w) (userAgent w) (_cache w) (ticks w) (calls w) (trace w).

Definition set_ua (i : nat) (ua : string) (w : World) : World :=
  mkWorld (_lastRequestAt w) i ua (_cache w) (ticks w) (calls w) (trace w).

Definition set_cache (m : Store) (w : World) : World :=
  mkWorld (_lastRequestAt w) (_uaIndex w) (userAgent w) m (ticks w) (calls w)
          (trace w).

Definition tick (w : World) : World :=
  mkWorld (_lastRequestAt w) (_uaIndex w) (userAgent w) (_cache w)
          (S (ticks w)) (calls w) (trace w).

Definition count_call (w : World) : World :=
  mkWorld (_lastRequestAt w) (_uaIndex w) (userAgent w) (_cache w) (ticks w)
          (S (calls w)) (trace w).

Definition record (e : Effect) (w : World) : World :=
  mkWorld (_lastRequestAt w) (_uaIndex w) (userAgent w) (_cache w) (ticks w)
          (calls w) (trace w ++ [e]).

(** ** The monad of methods *)

(** How a computation ends: a value, a thrown error, or not within the
    fuel of a loop. *)
Inductive Completion (A : Type) : Type :=
| Return (a : A)
| Throw (e : Exn)
| Diverge.

Arguments Return {A} a.
Arguments Throw {A} e.
Arguments Diverge {A}.

Definition M (A : Type) : Type := World -> Completion A * World.

Definition ret {A : Type} (a : A) : M A := fun w => (Return a, w).

Definition throw {A : Type} (e : Exn) : M A := fun w => (Throw e, w).

Definition diverge {A : Type} : M A := fun w => (Diverge, w).

Definition bind {A B : Type} (c : M A) (k : A -> M B) : M B :=
  fun w =>
    match c w with
    | (Return a, w') => k a w'
    | (Throw e, w') => (Throw e, w')
    | (Diverge, w') => (Diverge, w')
    end.

(** [try { c } catch (err) { h err }] *)
Definition try_catch {A : Type} (c : M A) (h : Exn -> M A) : M A :=
  fun w =>
    match c w with
    | (Throw e, w') => h e w'
    | r => r
    end.

Definition gets {A : Type} (f : World -> A) : M A := fun w => (Return (f w), w).

Definition modify (f : World -> World) : M unit := fun w => (Return tt, f w).

(** [if (b) c] as a statement. *)
Definition when (b : bool) (c : M unit) : M unit := if b then c else ret tt.

(** Lifts a check that may throw. *)
Definition check (r : option Exn) : M unit :=
  match r with
  | Some e => throw e
  | None => ret tt
  end.

(** Lifts the result of a caller-supplied callback. *)
Definition call {A : Type} (r : Exn + A) : M A :=
  match r with
  | inl e => throw e
  | inr a => ret a
  end.

Declare Scope js_scope.
Delimit Scope js_scope with js.
Notation "x <- c ;; k" := (bind c (fun x => k))
  (at level 61, c at next level, right associativity) : js_scope.
Notation "c ;; k" := (bind c (fun _ => k))
  (at level 61, right associativity) : js_scope.
Open Scope js_scope.

(** ** The parsing collaborator *)

(** The part of cheerio the methods use.  [Doc] is the API [$] returned by
    [cheerio.load]; a selection is the list of its elements in document
    order. *)
Class DocumentView : Type := mkDocumentView {
  Doc : Type;
  Elem : Type;
  (** [cheerio.load(html)] *)
  cheerio_load : string -> Doc;
  (** [$(selector)] *)
  select : Doc -> string -> list Elem;
  (** [$(container).find(selector)]: the matches in the sub-tree of the
      container *)
  find : Doc -> list Elem -> string -> list Elem;
  (** [.text()] *)
  text : Doc -> list Elem -> string;
  (** [.html()]: a string or [null] *)
  html : Doc -> list Elem -> JsValue;
  (** [.attr(name)]: a string or [undefined] *)
  attr : Doc -> list Elem -> JsValue -> JsValue
}.

(** [.first()] *)
Definition first {A : Type} (sel : list A) : list A := firstn 1 sel.

(** White space of [String.prototype.trim], within ASCII. *)
Definition is_space (c : ascii) : bool :=
  let n := nat_of_ascii c in
  (n =? 32)%nat || ((9 <=? n)%nat && (n <=? 13)%nat).

Fixpoint trim_start (s : string) : string :=
  match s with
  | EmptyString => EmptyString
  | String c rest => if is_space c then trim_start rest else s
  end.

Fixpoint trim_end (s : string) : string :=
  match s with
  | EmptyString => EmptyString
  | String c rest =>
      match trim_end rest with
      | EmptyString => if is_space c then EmptyString else String c EmptyString
      | rest' => String c rest'
      end
  end.

(** [s.trim()] *)
Definition js_trim (s : string) : string := trim_end (trim_start s).

Definition dquote : string := String (ascii_of_nat 34) EmptyString.

(** The default of [opts.nextSelector] in [paginate]. *)
Definition DEFAULT_NEXT_SELECTOR : string :=
  (".next, .pagination__next, a[rel=" ++ dquote ++ "next" ++ dquote ++ "]")%string.

(** [typeof res.data === 'string' ? res.data : String(res.data)] *)
Definition body_of (d : ResData) : string :=
  match d with
  | DataString s => s
  | DataOther rendered => rendered
  end.

Section Methods.

Context {DV : DocumentView}.
Variable env : Env.
Variable opts : Opts.

(** [Date.now()] *)
Definition date_now : M Z :=
  fun w => (Return (clock env (ticks w)), tick w).

(** [_sleep(ms)], awaited. *)
Definition _sleep (ms : Q) : M unit := modify (record (Sleep ms)).

(** [EventEmitter.prototype.emit]: the listeners of the event run in
    registration order inside the call and an exception of one of them leaves
    [emit]; an ['error'] event without a listener throws its argument. *)
Fixpoint run_listeners (ls : list Listener) (ev : Event) : option Exn :=
  match ls with
  | [] => None
  | l :: rest =>
      match l ev with
      | Some e => Some e
      | None => run_listeners rest ev
      end
  end.

Definition emit (ev : Event) : M unit :=
  modify (record (Emit ev));;
  match listeners env (event_name ev) with
  | [] =>
      match ev with
      | EvError err => throw err
      | _ => ret tt
      end
  | ls => check (run_listeners ls ev)
  end.

(** [await this._http.get(url, axiosConfig)] *)
Definition http_get (url : string) : M (Z * ResData) :=
  fun w =>
    let w' := record (HttpGet url) (count_call w) in
    match transport env (calls w) url with
    | HttpOk status d => (Return (status, d), w')
    | HttpFail err => (Throw err, w')
    end.

Definition Qltb (x y : Q) : bool := negb (Qle_bool y x).

(** [_rateGate()].  The interval and the suspension are exact rationals;
    the source computes them in doubles, to the same values where
    [1000 / rateLimit] is a whole number. *)
Definition _rateGate : M unit :=
  match rateLimit opts with
  | None => ret tt
  | Some r =>
      if Qeq_bool r 0 then ret tt
      else
        let minGap := (1000 / r)%Q in
        now <- date_now;;
        last <- gets _lastRequestAt;;
        let elapsed := inject_Z (now - last) in
        when (Qltb elapsed minGap) (_sleep (minGap - elapsed)%Q);;
        now' <- date_now;;
        modify (set_lastRequestAt now')
  end.

(** [_nextUA()] *)
Definition _nextUA : M unit :=
  i <- gets _uaIndex;;
  let i' := (S i) mod (List.length UA_POOL) in
  modify (set_ua i' (nth i' UA_POOL EmptyString)).

(** [this._cacheGet(url)] inside a method: the clock is read only when an
    entry exists. *)
Definition cache_lookup (policy : CachePolicy) (key : string)
    : M (option string) :=
  m <- gets _cache;;
  match map_get key m with
  | None => ret None
  | Some _ =>
      now <- date_now;;
      modify (set_cache (snd (_cacheGet policy now key m)));;
      ret (fst (_cacheGet policy now key m))
  end.

(** [this._cachePut(url, body)] inside a method. *)
Definition cache_store (policy : CachePolicy) (key body : string) : M unit :=
  m <- gets _cache;;
  now <- date_now;;
  modify (set_cache (_cachePut policy now key body m)).

(** The [try] block of the retry loop of [fetch]. *)
Definition attempt_body (url : string) : M string :=
  emit (EvRequest url);;
  res <- http_get url;;
  emit (EvResponse url (fst res));;
  let body := body_of (snd res) in
  match cache opts with
  | Some policy => cache_store policy url body
  | None => ret tt
  end;;
  ret body.

(** [retryDelay * attempt] *)
Definition backoff (attempt : nat) : Q :=
  inject_Z (retryDelay opts * Z.of_nat attempt).

(** The [catch] block of the retry loop of [fetch]. *)
Definition attempt_failed (url : string) (attempt : nat) (err : Exn)
    : M unit :=
  emit (EvRetry url attempt err);;
  when (attempt <? maxRetries opts)%nat (_sleep (backoff attempt)).

(** The loop [for (attempt = 1; attempt <= maxRetries; attempt++)] of
    [fetch] and the statements after it.  A pass either returns the body
    ([inl]) or goes on with [lastErr] set ([inr]). *)
Fixpoint fetch_loop (fuel attempt : nat) (url : string)
    (lastErr : option Exn) : M string :=
  if (attempt <=? maxRetries opts)%nat then
    match fuel with
    | O => diverge
    | S fuel' =>
        r <- try_catch
               (body <- attempt_body url;; ret (inl body))
               (fun err => attempt_failed url attempt err;; ret (inr err));;
        match r with
        | inl body => ret body
        | inr err => fetch_loop fuel' (S attempt) url (Some err)
        end
    end
  else
    match lastErr with
    | None =>
        (* [cause.message] in the constructor of [FetchError] *)
        throw (TypeError "Cannot read properties of undefined")
    | Some cause =>
        let fetchErr := FetchError url (maxRetries opts) cause in
        emit (EvError fetchErr);;
        throw fetchErr
    end.

(** [fetch(url)] after [_assert] has accepted [url], a string. *)
Definition fetch_checked (url : string) : M string :=
  _rateGate;;
  when (rotateUserAgent opts) _nextUA;;
  cached <- match cache opts with
            | Some policy => cache_lookup policy url
            | None => ret None
            end;;
  match cached with
  | Some body => emit (EvCacheHit url);; ret body
  | None => fetch_loop (maxRetries opts) 1 url None
  end.

(** [fetch(url)] *)
Definition fetch (url : JsValue) : M string :=
  check (_assert url ExpString "url");;
  match url with
  | VStr u => fetch_checked u
  | _ =>
      (* not reached: [_assert] lets strings through only *)
      throw (TypeError "not reached")
  end.

(** [load(url)] *)
Definition load (url : JsValue) : M Doc :=
  body <- fetch url;;
  ret (cheerio_load body).

End Methods.

(** ** Schema extraction *)

Section Extraction.

Context {DV : DocumentView}.
Variable env : Env.
Variable opts : Opts.

(** A field definition of a schema; an absent property is [None].
    [transform] is [(raw, $, el) => value] and may throw. *)
Record FieldDef : Type := mkField {
  selector : string;
  type : option string;
  attribute : option string;
  multiple : option bool;
  transform : option (JsValue -> Doc -> list Elem -> Exn + JsValue)
}.

(** A schema, as [Object.entries(schema)] lists it. *)
Definition Schema : Type := list (string * FieldDef).

(** A property that may be [undefined], as a value. *)
Definition opt_str (o : option string) : JsValue :=
  match o with
  | Some s => VStr s
  | None => VUndefined
  end.

(** [_readValue($, el, type, attribute)] *)
Definition _readValue (D : Doc) (el : list Elem) (type : string)
    (attribute : option string) : JsValue :=
  if type =? "html" then html D el
  else if type =? "attribute" then attr D el (opt_str attribute)
  else VStr (js_trim (text D el)).

(** [transform ? transform(raw, $, el) : raw] *)
Definition apply_transform
    (transform : option (JsValue -> Doc -> list Elem -> Exn + JsValue))
    (raw : JsValue) (D : Doc) (el : list Elem) : Exn + JsValue :=
  match transform with
  | Some f => f raw D el
  | None => inr raw
  end.

(** One field of one container in [extractList]: the destructuring reads
    [selector], [type = 'text'], [attribute] and [transform]. *)
Definition list_field (D : Doc) (container : Elem) (def : FieldDef)
    : Exn + JsValue :=
  let type := match type def with Some t => t | None => "text" end in
  let el := first (find D [container] (selector def)) in
  let raw := _readValue D el type (attribute def) in
  apply_transform (transform def) raw D el.

(** The body of the [each] callback of [extractList]: the record of one
    container, fields in schema order. *)
Fixpoint list_item (D : Doc) (container : Elem) (itemSchema : Schema)
    : Exn + list (string * JsValue) :=
  match itemSchema with
  | [] => inr []
  | (key, def) :: rest =>
      match list_field D container def with
      | inl e => inl e
      | inr v =>
          match list_item D container rest with
          | inl e => inl e
          | inr item => inr ((key, v) :: item)
          end
      end
  end.

(** [$(containerSelector).each(...)] of [extractList]. *)
Fixpoint list_items (D : Doc) (containers : list Elem) (itemSchema : Schema)
    : Exn + list JsValue :=
  match containers with
  | [] => inr []
  | container :: rest =>
      match list_item D container itemSchema with
      | inl e => inl e
      | inr item =>
          match list_items D rest itemSchema with
          | inl e => inl e
          | inr items => inr (VObj item :: items)
          end
      end
  end.

(** [extractList(url, containerSelector, itemSchema)].  The schema is an
    object by its type, so the second [_assert] passes. *)
Definition extractList (url containerSelector : JsValue)
    (itemSchema : Schema) : M (list JsValue) :=
  check (_assert containerSelector ExpString "containerSelector");;
  D <- load env opts url;;
  match containerSelector with
  | VStr sel => call (list_items D (select D sel) itemSchema)
  | _ => throw (TypeError "not reached")
  end.

End Extraction.

Arguments mkField {DV} _ _ _ _ _.
Arguments selector {DV} _.
Arguments type {DV} _.
Arguments attribute {DV} _.
Arguments multiple {DV} _.
Arguments transform {DV} _.

(** ** Pagination *)

Section Pagination.

Context {DV : DocumentView}.
Variable env : Env.
Variable opts : Opts.

(** The [opts] argument of [paginate]; an absent property is [None]. *)
Record PaginateOpts : Type := mkPaginateOpts {
  nextSelector : option string;
  maxPages : option nat;
  dataExtractor : option (Doc -> JsValue -> nat -> Exn + JsValue);
  stopWhen : option (Doc -> list JsValue -> nat -> Exn + bool);
  pg_ignoreErrors : bool
}.

Variable popts : PaginateOpts.

(** [opts.nextSelector || '.next, .pagination__next, a[rel="next"]'] *)
Definition nextSel : string :=
  match nextSelector popts with
  | Some s => if str_truthy s then s else DEFAULT_NEXT_SELECTOR
  | None => DEFAULT_NEXT_SELECTOR
  end.

(** [opts.maxPages || DEFAULT_MAX_PAGES] *)
Definition effective_maxPages : nat :=
  match maxPages popts with
  | Some n => if (n =? 0)%nat then DEFAULT_MAX_PAGES else n
  | None => DEFAULT_MAX_PAGES
  end.

(** [_resolveUrl(base, rel)] *)
Definition _resolveUrl (base rel : JsValue) : JsValue :=
  match url_href env rel base with
  | Some href => VStr href
  | None => rel
  end.

(** The two [push] statements on the extractor's data: [push(...data)] when
    [Array.isArray(data)], [push(data)] when [data != null]. *)
Definition collect (collected : list JsValue) (data : JsValue)
    : list JsValue :=
  match data with
  | VArr items => collected ++ items
  | _ => if js_not_nullish data then collected ++ [data] else collected
  end.

(** [$(nextSel).first().attr('href')] *)
Definition next_href (D : Doc) : JsValue :=
  attr D (first (select D nextSel)) (VStr "href").

(** [currentUrl = nextHref ? _resolveUrl(currentUrl, nextHref) : null] *)
Definition next_url (currentUrl : JsValue) (D : Doc) : JsValue :=
  let nextHref := next_href D in
  if js_truthy nextHref then _resolveUrl currentUrl nextHref else VNull.

(** The loop [for (page = 1; page <= maxPages && currentUrl; page++)] of
    [paginate] and the [return] after it. *)
Fixpoint paginate_loop (fuel page : nat) (currentUrl : JsValue)
    (collected : list JsValue) : M (list JsValue) :=
  if (page <=? effective_maxPages)%nat && js_truthy currentUrl then
    match fuel with
    | O => diverge
    | S fuel' =>
        loaded <- try_catch
                    (D <- load env opts currentUrl;; ret (Some D))
                    (fun err =>
                       if pg_ignoreErrors popts then ret None else throw err);;
        match loaded with
        | None => ret collected          (* break *)
        | Some D =>
            collected' <-
              match dataExtractor popts with
              | Some extract =>
                  data <- call (extract D currentUrl page);;
                  ret (collect collected data)
              | None => ret collected
              end;;
            stop <-
              match stopWhen popts with
              | Some f => call (f D collected' page)
              | None => ret false
              end;;
            if stop then ret collected'  (* break *)
            else paginate_loop fuel' (S page) (next_url currentUrl D)
                               collected'
        end
    end
  else ret collected.

(** [paginate(startUrl, opts)] *)
Definition paginate (startUrl : JsValue) : M (list JsValue) :=
  check (_assert startUrl ExpString "startUrl");;
  paginate_loop effective_maxPages 1 startUrl [].

End Pagination.

Arguments mkPaginateOpts {DV} _ _ _ _ _.
Arguments nextSelector {DV} _.
Arguments maxPages {DV} _.
Arguments dataExtractor {DV} _.
Arguments stopWhen {DV} _.
Arguments pg_ignoreErrors {DV} _.

(** ** Batches *)

(** An element of the array [Promise.allSettled] resolves to. *)
Inductive Outcome : Type :=
| Fulfilled (value : JsValue)
| Rejected (reason : Exn).

(** The [opts] argument of [scrapeMultiple]. *)
Record ScrapeOpts : Type := mkScrapeOpts {
  concurrency : option nat;
  ignoreErrors : bool
}.

Section Batches.

(** The tasks of one window run interleaved on the shared instance; the
    embedding does not order their steps.  It takes how the task of each
    input settles, [task i url] for the [i]-th element of [urls] (the
    promise of [load(url)] followed by [handler($, url)]), from outside, and
    records which tasks were started. *)
Variable task : nat -> JsValue -> Outcome.
Variable sopts : ScrapeOpts.

(** [opts.concurrency || DEFAULT_CONCURRENCY] *)
Definition effective_concurrency : nat :=
  match concurrency sopts with
  | Some n => if (n =? 0)%nat then DEFAULT_CONCURRENCY else n
  | None => DEFAULT_CONCURRENCY
  end.

(** [urls.slice(i, j)] *)
Definition slice {A : Type} (i j : nat) (l : list A) : list A :=
  firstn (j - i) (skipn i l).

(** [await Promise.allSettled(batch.map(...))]: one outcome per element of
    the batch, in the order of the batch. *)
Fixpoint settle_batch (i : nat) (batch : list JsValue) : list Outcome :=
  match batch with
  | [] => []
  | url :: rest => task i url :: settle_batch (S i) rest
  end.

(** The loop [for (const outcome of settled)]: the results after the
    window, or the reason thrown. *)
Fixpoint gather (settled : list Outcome) (results : list JsValue)
    : Exn + list JsValue :=
  match settled with
  | [] => inr results
  | Fulfilled value :: rest => gather rest (results ++ [value])
  | Rejected reason :: rest =>
      if negb (ignoreErrors sopts) then inl reason else gather rest results
  end.

(** The loop [for (i = 0; i < urls.length; i += concurrency)] of
    [scrapeMultiple]: the completion and the inputs whose task was
    started, in order. *)
Fixpoint scrape_loop (fuel i : nat) (urls : list JsValue)
    (results : list JsValue) (started : list JsValue)
    : Completion (list JsValue) * list JsValue :=
  if (i <? List.length urls)%nat then
    match fuel with
    | O => (Diverge, started)
    | S fuel' =>
        let batch := slice i (i + effective_concurrency) urls in
        let settled := settle_batch i batch in
        match gather settled results with
        | inl reason => (Throw reason, started ++ batch)
        | inr results' =>
            scrape_loop fuel' (i + effective_concurrency) urls results'
                        (started ++ batch)
        end
    end
  else (Return results, started).

(** [scrapeMultiple(urls, handler, opts)] on an array [urls]. *)
Definition scrapeMultiple (urls : list JsValue)
    : Completion (list JsValue) * list JsValue :=
  scrape_loop (List.length urls) 0 urls [] [].

End Batches.

(** ** A small document model for examples *)

Module Toy.

(** An element: an identity, the selectors that match it, its attributes
    and its text. *)
Record Element : Type := mkElement {
  el_id : nat;
  el_matches : list string;
  el_attrs : list (string * string);
  el_text : string
}.

(** A top-level element with its descendants in document order. *)
Record Tree : Type := mkTree { root : Element; descendants : list Element }.

Definition Document : Type := list Tree.

Definition matches (sel : string) (e : Element) : bool :=
  existsb (String.eqb sel) (el_matches e).

Definition toy_select (d : Document) (sel : string) : list Element :=
  flat_map (fun t => filter (matches sel) (root t :: descendants t)) d.

Definition toy_find (d : Document) (ctx : list Element) (sel : string)
    : list Element :=
  flat_map
    (fun c =>
       flat_map
         (fun t =>
            if (el_id (root t) =? el_id c)%nat
            then filter (matches sel) (descendants t)
            else [])
         d)
    ctx.

Definition toy_text (d : Document) (sel : list Element) : string :=
  String.concat EmptyString (List.map el_text sel).

Definition toy_html (d : Document) (sel : list Element) : JsValue :=
  match sel with
  | [] => VNull
  | e :: _ => VStr (el_text e)
  end.

Fixpoint assoc (k : string) (l : list (string * string)) : option string :=
  match l with
  | [] => None
  | (k', v) :: rest => if k' =? k then Some v else assoc k rest
  end.

Definition toy_attr (d : Document) (sel : list Element) (name : JsValue)
    : JsValue :=
  match sel, name with
  | e :: _, VStr n =>
      match assoc n (el_attrs e) with
      | Some v => VStr v
      | None => VUndefined
      end
  | _, _ => VUndefined
  end.

(** A list item with the given text. *)
Definition li (id : nat) (t : string) : Element := mkElement id ["li"] [] t.

(** A next-page link. *)
Definition next_link (id : nat) (href : string) : Element :=
  mkElement id ["a.next"] [("href", href)] "next".

(** Three pages: the first two link to their successor, the third has no
    next link. *)
Definition page1 : Document :=
  [ mkTree (li 1 "a1") []; mkTree (li 2 "a2") [];
    mkTree (next_link 3 "/p2") [] ].

Definition page2 : Document :=
  [ mkTree (li 1 "b1") []; mkTree (li 2 "b2") [];
    mkTree (next_link 3 "/p3") [] ].

Definition page3 : Document := [ mkTree (li 1 "c1") [] ].

(** A page that links to itself. *)
Definition loop_page : Document :=
  [ mkTree (li 1 "x") []; mkTree (next_link 2 "/loop") [] ].

(** A page of two cards; the first card holds two tags. *)
Definition cards : Document :=
  [ mkTree (mkElement 1 [".card"] [] "card one")
      [ mkElement 2 [".tag"] [] " red "; mkElement 3 [".tag"] [] "blue" ];
    mkTree (mkElement 4 [".card"] [] "card two")
      [ mkElement 5 [".tag"] [] "green" ] ].

(** The parser of the examples: the body names the page. *)
Definition toy_load (body : string) : Document :=
  if body =? "page1" then page1
  else if body =? "page2" then page2
  else if body =? "page3" then page3
  else if body =? "loop" then loop_page
  else if body =? "cards" then cards
  else [].

Definition view : DocumentView :=
  mkDocumentView Document Element toy_load toy_select toy_find toy_text
                 toy_html toy_attr.

(** The transport of the examples: every URL answers 200 with a body that
    names its page. *)
Definition serve (n : nat) (url : string) : HttpResult :=
  if url =? "/p1" then HttpOk 200 (DataString "page1")
  else if url =? "/p2" then HttpOk 200 (DataString "page2")
  else if url =? "/p3" then HttpOk 200 (DataString "page3")
  else if url =? "/loop" then HttpOk 200 (DataString "loop")
  else if url =? "/cards" then HttpOk 200 (DataString "cards")
  else HttpFail (Thrown "ENOTFOUND").

(** A transport that fails its first [k] calls and then answers [body]. *)
Definition flaky (k : nat) (body : string) (n : nat) (url : string)
    : HttpResult :=
  if (n <? k)%nat then HttpFail (Thrown "ECONNRESET")
  else HttpOk 200 (DataString body).

(** A transport that never answers. *)
Definition down (n : nat) (url : string) : HttpResult :=
  HttpFail (Thrown "ECONNRESET").

Definition no_listeners (name : string) : list Listener := [].

(** [new URL(rel, base).href] of the examples: relative references are
    already absolute paths. *)
Definition toy_href (rel base : JsValue) : option string :=
  match rel with
  | VStr s => Some s
  | _ => None
  end.

Definition steady_clock (n : nat) : Z := 1000 * Z.of_nat n.

Definition env_of (t : nat -> string -> HttpResult)
    (ls : string -> list Listener) : Env :=
  mkEnv steady_clock t ls toy_href.

(** An observer that throws. *)
Definition failing_observer : Listener := fun _ => Some (Thrown "observer").

(** An observer that returns. *)
Definition quiet_observer : Listener := fun _ => None.

Definition on (name : string) (l : Listener) (n : string) : list Listener :=
  if n =? name then [l] else [].

Definition plain_opts (retries : nat) : Opts :=
  mkOpts retries DEFAULT_RETRY_MS None false None.

End Toy.

(** ** Reading a trace *)

Definition is_emit (name : string) (e : Effect) : bool :=
  match e with
  | Emit ev => event_name ev =? name
  | _ => false
  end.

(** How many observations of the given name a trace holds. *)
Definition count_emitted (name : string) (t : list Effect) : nat :=
  List.length (filter (is_emit name) t).

(** The suspensions of a trace, in order. *)
Definition sleeps (t : list Effect) : list Q :=
  flat_map (fun e => match e with Sleep ms => [ms] | _ => [] end) t.

(** The transport calls of a trace, in order. *)
Definition requests (t : list Effect) : list string :=
  flat_map (fun e => match e with HttpGet url => [url] | _ => [] end) t.

(** No registered observer throws. *)
Definition quiet (env : Env) : Prop :=
  forall (name : string) (l : Listener) (ev : Event),
    In l (listeners env name) -> l ev = None.

(** The same outside with no observer registered. *)
Definition silenced (env : Env) : Env :=
  mkEnv (clock env) (transport env) (fun _ => []) (url_href env).

(** The state after [k] more transport calls and the effects [t]. *)
Definition advance (k : nat) (t : list Effect) (w : World) : World :=
  mkWorld (_lastRequestAt w) (_uaIndex w) (userAgent w) (_cache w) (ticks w)
          (calls w + k) (trace w ++ t).

Section Passes.

Variable env : Env.
Variable opts : Opts.

(** The state [fetch] is in when it reaches its cache check. *)
Definition entered (w : World) : World :=
  snd ((_rateGate env opts;; when (rotateUserAgent opts) _nextUA) w).

(** The effects of one pass of the retry loop that ends in its [catch]
    block. *)
Definition failed_pass (url : string) (attempt : nat) (err : Exn)
    : list Effect :=
  [Emit (EvRequest url); HttpGet url; Emit (EvRetry url attempt err)] ++
  (if (attempt <? maxRetries opts)%nat then [Sleep (backoff opts attempt)]
   else []).

(** The effects of [k] failed passes in a row, the first one numbered
    [attempt] and using transport call [call]; [errs n] is the failure of
    transport call [n]. *)
Fixpoint failed_passes (url : string) (errs : nat -> Exn)
    (attempt call k : nat) : list Effect :=
  match k with
  | O => []
  | S k' =>
      failed_pass url attempt (errs call) ++
      failed_passes url errs (S attempt) (S call) k'
  end.

(** The effects of the pass that returns. *)
Definition final_pass (url : string) (status : Z) : list Effect :=
  [Emit (EvRequest url); HttpGet url; Emit (EvResponse url status)].

(** The state after the body was put in the cache, when there is one. *)
Definition stored (url body : string) (w : World) : World :=
  match cache opts with
  | Some policy =>
      set_cache (_cachePut policy (clock env (ticks w)) url body (_cache w))
                (tick w)
  | None => w
  end.

(** No entry for [url] is in the cache, or there is no cache. *)
Definition uncached (url : string) (w : World) : Prop :=
  match cache opts with
  | Some _ => map_get url (_cache w) = None
  | None => True
  end.

End Passes.

(** A value that is a string with at least one character. *)
Definition nonempty_string (v : JsValue) : bool :=
  match v with
  | VStr s => str_truthy s
  | _ => false
  end.

Module Examples.

Import Toy.

(** Two failures, then a response, with up to three attempts. *)
Definition flaky_env : Env := env_of (flaky 2 "ok") no_listeners.

(** A transport that is down. *)
Definition down_env : Env := env_of down no_listeners.

(** One failure, then a response, with a ['retry'] observer that throws. *)
Definition observed_env : Env :=
  env_of (flaky 1 "ok") (on "retry" failing_observer).

(** The same with an observer that returns. *)
Definition watched_env : Env :=
  env_of (flaky 1 "ok") (on "retry" quiet_observer).

(** A healthy transport. *)
Definition healthy_env : Env := env_of (flaky 0 "ok") no_listeners.

Definition econnreset (n : nat) : Exn := Thrown "ECONNRESET".

End Examples.

(** A computation that ends within its fuel from every state. *)
Definition terminates {A : Type} (c : M A) : Prop :=
  forall w : World, fst (c w) <> Diverge.

(** The test made after a page was loaded and its data collected:
    [stopWhen] held, or the page was page [maxPages], or the next value of
    [currentUrl] is falsy. *)
Definition last_page (stop : bool) (page maxPages : nat) (next : JsValue)
    : bool :=
  stop || (page =? maxPages)%nat || negb (js_truthy next).

Module PaginationExamples.

Import Toy.

(** [dataExtractor]: the texts of the list items of the page. *)
Definition item_texts (d : Document) (url : JsValue) (page : nat)
    : Exn + JsValue :=
  inr (VArr (List.map (fun e => VStr (el_text e)) (toy_select d "li"))).

(** [stopWhen]: true on page 2. *)
Definition stop_at_2 (d : Document) (collected : list JsValue) (page : nat)
    : Exn + bool :=
  inr (page =? 2)%nat.

Definition chain_env : Env := env_of serve no_listeners.

Definition chain_opts : @PaginateOpts view :=
  @mkPaginateOpts view (Some "a.next") None (Some item_texts) None false.

Definition stopping_opts : @PaginateOpts view :=
  @mkPaginateOpts view (Some "a.next") None (Some item_texts) (Some stop_at_2)
                 false.

(** [maxPages: 0] on a page that links to itself. *)
Definition zero_pages_opts : @PaginateOpts view :=
  @mkPaginateOpts view (Some "a.next") (Some 0%nat) (Some item_texts) None false.

End PaginationExamples.

Section PageOutcome.

Context {DV : DocumentView}.
Variable popts : PaginateOpts.

(** The extractor, when there is one, returns and [collected'] is the
    accumulator after its data was pushed. *)
Definition extracted (D : Doc) (currentUrl : JsValue) (page : nat)
    (collected collected' : list JsValue) : Prop :=
  match dataExtractor popts with
  | Some extract =>
      exists data, extract D currentUrl page = inr data /\
                   collected' = collect collected data
  | None => collected' = collected
  end.

(** [stopWhen && stopWhen($, collected, page)] evaluates to [stop]. *)
Definition stop_test (D : Doc) (collected' : list JsValue) (page : nat)
    (stop : bool) : Prop :=
  match stopWhen popts with
  | Some f => f D collected' page = inr stop
  | None => stop = false
  end.

End PageOutcome.

(** The values of the fulfilled outcomes, in order. *)
Definition fulfilled (settled : list Outcome) : list JsValue :=
  flat_map (fun o => match o with
                     | Fulfilled value => [value]
                     | Rejected _ => []
                     end) settled.

(** The field definition with its [multiple] property replaced. *)
Definition with_multiple {DV : DocumentView} (m : option bool)
    (def : FieldDef) : FieldDef :=
  mkField (selector def) (type def) (attribute def) m (transform def).

(** The schema with the [multiple] property of every field replaced. *)
Definition reflag {DV : DocumentView} (flag : FieldDef -> option bool)
    (itemSchema : Schema) : Schema :=
  List.map (fun kd => (fst kd, with_multiple (flag (snd kd)) (snd kd)))
           itemSchema.

Module BatchExamples.

(** Five inputs of which the third fails. *)
Definition urls5 : list JsValue :=
  [VStr "/1"; VStr "/2"; VStr "/3"; VStr "/4"; VStr "/5"].

Definition third_fails (i : nat) (url : JsValue) : Outcome :=
  if (i =? 2)%nat then Rejected (Thrown "ETIMEDOUT") else Fulfilled url.

End BatchExamples.

Module ExtractionExamples.

Import Toy.

(** A schema that asks for all tags of a card with [multiple: true]. *)
Definition tags_schema : @Schema view :=
  [("tag", @mkField view ".tag" None None (Some true) None)].

End ExtractionExamples.

(** ** Relations between the states before and after a method *)

(** Every run of [c] takes a state to one related to it by [R]. *)
Definition stepwise (R : World -> World -> Prop) {A : Type} (c : M A)
    : Prop :=
  forall w : World, R w (snd (c w)).

(** The transport was called at most [n] more times. *)
Definition calls_within (n : nat) (w w' : World) : Prop :=
  (calls w <= calls w' <= calls w + n)%nat.

(** The store stays well-formed and within [maxSize]. *)
Definition cache_kept (policy : CachePolicy) (w w' : World) : Prop :=
  (store_wf (_cache w) -> store_wf (_cache w')) /\
  ((map_size (_cache w) <= maxSize policy)%Z ->
   (map_size (_cache w') <= maxSize policy)%Z).

(** The rotation index and the common [User-Agent] header are the same. *)
Definition same_ua (w w' : World) : Prop :=
  _uaIndex w' = _uaIndex w /\ userAgent w' = userAgent w.

(** The store is the same. *)
Definition same_cache (w w' : World) : Prop := _cache w' = _cache w.

(** [this.cacheSize] on an instance with a cache. *)
Definition cacheSize (w : World) : Z := map_size (_cache w).

(** ** The constructor *)

Module Options.

(** [options.cache]: a boolean or an object [{ ttl, maxSize }] whose
    properties may be absent. *)
Inductive CacheOption : Type :=
| CacheFlag (b : bool)
| CacheObject (ttl maxSize : option Z).

(** The [options] argument of the constructor, for the properties that
    reach [this._opts] of the embedding; an absent (or [null]) property is
    [None]. *)
Record t : Type := make {
  maxRetries : option nat;
  retryDelay : option Z;
  rateLimit : option Q;
  rotateUserAgent : option bool;
  cache : option CacheOption
}.

End Options.

(** [a ?? b] *)
Definition nullish {A : Type} (a : option A) (b : A) : A :=
  match a with
  | Some v => v
  | None => b
  end.

(** [this._opts] as the constructor freezes it. *)
Definition constructor (options : Options.t) : Opts :=
  mkOpts
    (nullish (Options.maxRetries options) DEFAULT_RETRIES)
    (nullish (Options.retryDelay options) DEFAULT_RETRY_MS)
    (Options.rateLimit options)
    (nullish (Options.rotateUserAgent options) false)
    (match Options.cache options with
     | Some (Options.CacheFlag true) =>
         Some (mkPolicy DEFAULT_CACHE_TTL DEFAULT_CACHE_MAX)
     | Some (Options.CacheObject ttl maxSize) =>
         Some (mkPolicy (nullish ttl DEFAULT_CACHE_TTL)
                        (nullish maxSize DEFAULT_CACHE_MAX))
     | _ => None
     end).

Module FailureExamples.

Import Toy.

(** The first page answers, every other URL fails. *)
Definition first_only (n : nat) (url : string) : HttpResult :=
  if url =? "/p1" then HttpOk 200 (DataString "page1")
  else HttpFail (Thrown "ECONNRESET").

Definition broken_chain_env : Env := env_of first_only no_listeners.

(** [dataExtractor] that throws on page 2 and returns the items
    elsewhere. *)
Definition failing_extractor (d : Document) (url : JsValue) (page : nat)
    : Exn + JsValue :=
  if (page =? 2)%nat then inl (Thrown "extractor")
  else PaginationExamples.item_texts d url page.

Definition tolerant_opts : @PaginateOpts view :=
  @mkPaginateOpts view (Some "a.next") None
                  (Some PaginationExamples.item_texts) None true.

Definition strict_opts : @PaginateOpts view :=
  @mkPaginateOpts view (Some "a.next") None
                  (Some PaginationExamples.item_texts) None false.

Definition tolerant_failing_opts : @PaginateOpts view :=
  @mkPaginateOpts view (Some "a.next") None (Some failing_extractor) None
                  true.

(** All five tasks succeed with their URL as value. *)
Definition all_succeed (i : nat) (url : JsValue) : Outcome := Fulfilled url.

End FailureExamples.

(** ** Own properties of a plain object *)

Section OwnProperties.

Variable V : Type.

(** The own properties after [o[key] = v] for a key that is set on the
    object itself: a key the object has keeps its place, a new one comes
    last. *)
Fixpoint own_set (o : list (string * V)) (key : string) (v : V)
    : list (string * V) :=
  match o with
  | [] => [(key, v)]
  | (k, x) :: rest =>
      if k =? key then (k, v) :: rest else (k, x) :: own_set rest key v
  end.

(** The own properties after [o[key] = v] on an object made by [{}].  An
    assignment to [__proto__] reaches the setter that the object inherits
    from [Object.prototype]: it adds no own property. *)
Definition set_property (o : list (string * V)) (key : string) (v : V)
    : list (string * V) :=
  if key =? "__proto__" then o else own_set o key v.

(** [o[key]] among the own properties. *)
Fixpoint own_get (o : list (string * V)) (key : string) : option V :=
  match o with
  | [] => None
  | (k, x) :: rest => if k =? key then Some x else own_get rest key
  end.

End OwnProperties.

Arguments own_set {V} o key v.
Arguments set_property {V} o key v.
Arguments own_get {V} o key.

(** ** Reading methods *)

(** What cheerio's [.map(fn)] does with one value returned by [fn]:
    [null] and [undefined] are left out, an array is spliced in, any other
    value is kept ([if (val != null) elems = elems.concat(val)]). *)
Definition spliced (v : JsValue) : list JsValue :=
  match v with
  | VUndefined => []
  | VNull => []
  | VArr items => items
  | _ => [v]
  end.

(** [els.map((_, el) => fn(el)).get()]; an exception of [fn] ends the
    traversal. *)
Fixpoint cheerio_map {A : Type} (fn : A -> Exn + JsValue) (els : list A)
    : Exn + list JsValue :=
  match els with
  | [] => inr []
  | el :: rest =>
      match fn el with
      | inl e => inl e
      | inr v =>
          match cheerio_map fn rest with
          | inl e => inl e
          | inr vs => inr (spliced v ++ vs)
          end
      end
  end.

Section Reading.

Context {DV : DocumentView}.
Variable env : Env.
Variable opts : Opts.

(** [getText(url, selector, opts)], with [multiple] the truthiness of
    [opts.multiple]. *)
Definition getText (url : JsValue) (selector : string) (multiple : bool)
    : M JsValue :=
  D <- load env opts url;;
  if multiple
  then vs <- call (cheerio_map
                     (fun el => inr (VStr (js_trim (text D [el]))))
                     (select D selector));;
       ret (VArr vs)
  else ret (VStr (js_trim (text D (first (select D selector))))).

(** [getAttribute(url, selector, attribute, opts)] *)
Definition getAttribute (url : JsValue) (selector : string)
    (attribute : JsValue) (multiple : bool) : M JsValue :=
  D <- load env opts url;;
  if multiple
  then vs <- call (cheerio_map (fun el => inr (attr D [el] attribute))
                               (select D selector));;
       ret (VArr vs)
  else ret (attr D (first (select D selector)) attribute).

(** [getHtml(url, selector, opts)] *)
Definition getHtml (url : JsValue) (selector : string) (multiple : bool)
    : M JsValue :=
  D <- load env opts url;;
  if multiple
  then vs <- call (cheerio_map (fun el => inr (html D [el]))
                               (select D selector));;
       ret (VArr vs)
  else ret (html D (first (select D selector))).

(** [exists(url, selector)] *)
Definition exists_ (url : JsValue) (selector : string) : M bool :=
  D <- load env opts url;;
  ret (0 <? List.length (select D selector))%nat.

(** [count(url, selector)] *)
Definition count (url : JsValue) (selector : string) : M nat :=
  D <- load env opts url;;
  ret (List.length (select D selector)).

(** One field of [extract]: the destructuring reads [selector],
    [type = 'text'], [attribute], [multiple = false] and [transform]. *)
Definition extract_field (D : Doc) (def : FieldDef) : Exn + JsValue :=
  let type := match type def with Some t => t | None => "text" end in
  let multiple := match multiple def with Some b => b | None => false end in
  let els := select D (selector def) in
  if multiple
  then match cheerio_map
               (fun el =>
                  let raw := _readValue D [el] type (attribute def) in
                  apply_transform (transform def) raw D [el])
               els with
       | inl e => inl e
       | inr vs => inr (VArr vs)
       end
  else let el := first els in
       let raw := _readValue D el type (attribute def) in
       apply_transform (transform def) raw D el.

(** The loop over [Object.entries(schema)] of [extract], from the own
    properties [result] has so far.  The prototype of [result], which an
    assignment to [__proto__] may replace, is not part of the value. *)
Fixpoint extract_fields (D : Doc) (schema : Schema)
    (result : list (string * JsValue)) : Exn + list (string * JsValue) :=
  match schema with
  | [] => inr result
  | (key, def) :: rest =>
      match extract_field D def with
      | inl e => inl e
      | inr v => extract_fields D rest (set_property result key v)
      end
  end.

(** [extract(url, schema)].  The schema is an object by its type, so
    [_assert(schema, 'object', 'schema')] passes. *)
Definition extract (url : JsValue) (schema : Schema) : M JsValue :=
  D <- load env opts url;;
  result <- call (extract_fields D schema []);;
  ret (VObj result).

End Reading.

Module ReadingExamples.

Import Toy.

(** A list of three items. *)
Definition three_items : Document :=
  [ mkTree (li 1 " one ") []; mkTree (li 2 "two") [];
    mkTree (li 3 "three") [] ].

(** Three links of which the second has no [href]. *)
Definition three_links : Document :=
  [ mkTree (mkElement 1 ["a"] [("href", "/a")] "A") [];
    mkTree (mkElement 2 ["a"] [] "B") [];
    mkTree (mkElement 3 ["a"] [("href", "/c")] "C") [] ].

(** The parser of these examples. *)
Definition load_page (body : string) : Document :=
  if body =? "items" then three_items
  else if body =? "links" then three_links
  else [].

Definition pages : DocumentView :=
  mkDocumentView Document Element load_page toy_select toy_find toy_text
                 toy_html toy_attr.

(** A transport that answers every URL with the body ["links"]. *)
Definition links_env : Env := env_of (flaky 0 "links") no_listeners.

(** A transport that answers every URL with the body ["items"]. *)
Definition items_env : Env := env_of (flaky 0 "items") no_listeners.

(** All items as a list under a misspelt type, and the first item. *)
Definition items_schema : @Schema pages :=
  [("items", @mkField pages "li" (Some "txt") None (Some true) None);
   ("first", @mkField pages "li" None None None None)].

(** A schema with the own key [__proto__], as [JSON.parse] makes one. *)
Definition proto_schema : @Schema pages :=
  [("__proto__", @mkField pages "li" None None (Some true) None);
   ("first", @mkField pages "li" None None None None)].

End ReadingExamples.

(** ** Removing duplicates *)

Section Unique.

(** The values compared, with the equality of a [Set] (SameValueZero). *)
Variable K : Type.
Variable same : K -> K -> bool.

(** [set.has(k)] for the set holding [seen]. *)
Definition set_has (seen : list K) (k : K) : bool := existsb (same k) seen.

(** [new Set(arr)] as the sequence of its values: every value at its first
    occurrence. *)
Definition set_of (arr : list K) : list K :=
  fold_left (fun set k => if set_has set k then set else set ++ [k]) arr [].

(** [_unique(arr)], that is [[...new Set(arr)]]. *)
Definition _unique (arr : list K) : list K := set_of arr.

(** The [filter] of [_uniqueBy] with the set [seen] it has built so far;
    [key item] is [item[key]]. *)
Fixpoint uniqueBy_filter {A : Type} (key : A -> K) (seen : list K)
    (arr : list A) : list A :=
  match arr with
  | [] => []
  | item :: rest =>
      if set_has seen (key item) then uniqueBy_filter key seen rest
      else item :: uniqueBy_filter key (seen ++ [key item]) rest
  end.

(** [_uniqueBy(arr, key)] *)
Definition _uniqueBy {A : Type} (key : A -> K) (arr : list A) : list A :=
  uniqueBy_filter key [] arr.

End Unique.

Arguments set_has {K} same seen k.
Arguments set_of {K} same arr.
Arguments _unique {K} same arr.
Arguments uniqueBy_filter {K} same {A} key seen arr.
Arguments _uniqueBy {K} same {A} key arr.

(** The item is the first one of [arr] with its key. *)
Definition first_with_key {A K : Type} (key : A -> K) (item : A)
    (arr : list A) : Prop :=
  exists before after,
    arr = before ++ item :: after /\
    ~ In (key item) (List.map key before).

(** ** Links *)

(** An entry of the array [extractLinks] resolves to. *)
Record Link : Type := mkLink {
  href : JsValue;
  link_text : string;
  title : JsValue
}.

(** The [opts] argument of [extractLinks], flags by their truthiness;
    [pattern] is [None] when absent. *)
Record LinkOpts : Type := mkLinkOpts {
  internal : bool;
  external : bool;
  pattern : option string;
  unique_links : bool
}.

Section Links.

Context {DV : DocumentView}.
Variable env : Env.
Variable opts : Opts.

(** [new URL(x).hostname]; [None] when the constructor throws. *)
Variable url_hostname : JsValue -> option string.

(** [new RegExp(pattern).test(x)]; [inl] when the pattern is rejected. *)
Variable regexp_test : string -> JsValue -> Exn + bool.

(** The equality of a [Set] on values. *)
Variable same_value : JsValue -> JsValue -> bool.

(** [_sameDomain(a, b)] *)
Definition _sameDomain (a b : JsValue) : bool :=
  match url_hostname a with
  | None => false
  | Some host_a =>
      match url_hostname b with
      | None => false
      | Some host_b => host_a =? host_b
      end
  end.

(** [opts.pattern && !new RegExp(opts.pattern).test(abs)] *)
Definition pattern_rejects (lopts : LinkOpts) (abs : JsValue) : Exn + bool :=
  match pattern lopts with
  | Some p =>
      if str_truthy p
      then match regexp_test p abs with
           | inl e => inl e
           | inr matched => inr (negb matched)
           end
      else inr false
  | None => inr false
  end.

(** The callback of [each] in [extractLinks] on one anchor: the links it
    pushes. *)
Definition link_of (D : Doc) (url : JsValue) (lopts : LinkOpts) (a : Elem)
    : Exn + list Link :=
  let href := attr D [a] (VStr "href") in
  let abs := _resolveUrl env url href in
  if internal lopts && negb (_sameDomain url abs) then inr []
  else if external lopts && _sameDomain url abs then inr []
  else match pattern_rejects lopts abs with
       | inl e => inl e
       | inr true => inr []
       | inr false =>
           let t := attr D [a] (VStr "title") in
           inr [mkLink abs (js_trim (text D [a]))
                       (if js_truthy t then t else VUndefined)]
       end.

(** [$('a[href]').each(...)] of [extractLinks]. *)
Fixpoint collect_links (D : Doc) (url : JsValue) (lopts : LinkOpts)
    (anchors : list Elem) : Exn + list Link :=
  match anchors with
  | [] => inr []
  | a :: rest =>
      match link_of D url lopts a with
      | inl e => inl e
      | inr pushed =>
          match collect_links D url lopts rest with
          | inl e => inl e
          | inr links => inr (pushed ++ links)
          end
      end
  end.

Definition anchors_selector : string := "a[href]".

(** [extractLinks(url, opts)] *)
Definition extractLinks (url : JsValue) (lopts : LinkOpts) : M (list Link) :=
  D <- load env opts url;;
  links <- call (collect_links D url lopts (select D anchors_selector));;
  ret (if unique_links lopts then _uniqueBy same_value href links
       else links).

End Links.

Module LinkExamples.

Import Toy.

(** Two links to the site, one of them twice, and one to another site. *)
Definition link_page : Document :=
  [ mkTree (mkElement 1 ["a[href]"] [("href", "/a")] " A ") [];
    mkTree (mkElement 2 ["a[href]"] [("href", "//other/b")] "B") [];
    mkTree (mkElement 3 ["a[href]"] [("href", "/a"); ("title", "again")]
                      "A2") [] ].

Definition load_links (body : string) : Document := link_page.

Definition link_view : DocumentView :=
  mkDocumentView Document Element load_links toy_select toy_find toy_text
                 toy_html toy_attr.

(** Host names of the examples: references starting with ["//other"] are on
    the host ["other"], all others on ["site"]. *)
Definition host_of (v : JsValue) : option string :=
  match v with
  | VStr s => if String.prefix "//other" s then Some "other" else Some "site"
  | _ => None
  end.

Definition no_regexp (p : string) (v : JsValue) : Exn + bool := inr true.

(** Equality of values by their structure; on [undefined], [null],
    booleans, numbers and strings it is the equality of a [Set]. *)
Fixpoint same_structure (a b : JsValue) {struct a} : bool :=
  match a, b with
  | VUndefined, VUndefined => true
  | VNull, VNull => true
  | VBool x, VBool y => Bool.eqb x y
  | VNum x, VNum y => Z.eqb x y
  | VStr x, VStr y => String.eqb x y
  | VArr xs, VArr ys =>
      (fix all2 (xs ys : list JsValue) {struct xs} : bool :=
         match xs, ys with
         | [], [] => true
         | x :: xs', y :: ys' => same_structure x y && all2 xs' ys'
         | _, _ => false
         end) xs ys
  | VObj fs, VObj gs =>
      (fix all2 (fs gs : list (string * JsValue)) {struct fs} : bool :=
         match fs, gs with
         | [], [] => true
         | (k, x) :: fs', (k', y) :: gs' =>
             String.eqb k k' && same_structure x y && all2 fs' gs'
         | _, _ => false
         end) fs gs
  | _, _ => false
  end.

(** A transport that answers every URL with a page of links. *)
Definition links_page_env : Env := env_of (flaky 0 "links") no_listeners.

(** Only links of the page's host, each once. *)
Definition internal_once : LinkOpts := mkLinkOpts true false None true.

Definition both_flags : LinkOpts := mkLinkOpts true true None false.

End LinkExamples.

(** ** Text utilities *)

(** A string of ASCII characters.  On such a string the white space of
    [\s] and of [trim] is that of [is_space]; the source also removes
    white space outside ASCII, which a string of this model does not tell
    apart from other characters. *)
Definition ascii_text (s : string) : Prop :=
  forall c, In c (list_ascii_of_string s) -> (nat_of_ascii c < 128)%nat.

(** [text.replace(/\s+/g, ' ')]: every maximal run of white space becomes
    one blank; [in_run] tells that the character before was white space. *)
Fixpoint collapse_spaces (in_run : bool) (s : string) : string :=
  match s with
  | EmptyString => EmptyString
  | String c rest =>
      if is_space c
      then if in_run then collapse_spaces true rest
           else String " " (collapse_spaces true rest)
      else String c (collapse_spaces false rest)
  end.

(** [cleanText(text)] *)
Definition cleanText (text : JsValue) : string :=
  if js_typeof text =? "string"
  then match text with
       | VStr s => js_trim (collapse_spaces false s)
       | _ => EmptyString
       end
  else EmptyString.

(** The characters of a string that are not white space. *)
Definition visible (s : string) : list ascii :=
  filter (fun c => negb (is_space c)) (list_ascii_of_string s).

(** No white space but single blanks; [after_space] tells that the
    character before was white space. *)
Fixpoint single_spaced (after_space : bool) (s : string) : bool :=
  match s with
  | EmptyString => true
  | String c rest =>
      if is_space c
      then negb after_space && (c =? " ")%char && single_spaced true rest
      else single_spaced false rest
  end.

(** A string that does not begin with white space. *)
Definition starts_visible (s : string) : Prop :=
  match s with
  | EmptyString => True
  | String c _ => is_space c = false
  end.

(** The character class of [sanitizeFilename]: the control characters
    below 32 and the nine marks less-than, greater-than, colon, double
    quote, slash, backslash, bar, question mark and asterisk. *)
Definition forbidden_in_filename (c : ascii) : bool :=
  (nat_of_ascii c <=? 31)%nat ||
  existsb (Ascii.eqb c)
    ["<"%char; ">"%char; ":"%char; ascii_of_nat 34; "/"%char;
     ascii_of_nat 92; "|"%char; "?"%char; "*"%char].

(** [s.replace(/[class]/g, '_')] for a class of characters. *)
Fixpoint replace_chars (class : ascii -> bool) (s : string) : string :=
  match s with
  | EmptyString => EmptyString
  | String c rest =>
      String (if class c then "_"%char else c) (replace_chars class rest)
  end.

(** The character class of [_csvCell]: double quote, comma, carriage
    return and line feed. *)
Definition csv_special (c : ascii) : bool :=
  existsb (Ascii.eqb c)
    [ascii_of_nat 34; ","%char; ascii_of_nat 13; ascii_of_nat 10].

(** The test of [_csvCell]: [str] holds a character of the class. *)
Fixpoint has_csv_special (str : string) : bool :=
  match str with
  | EmptyString => false
  | String c rest => csv_special c || has_csv_special rest
  end.

(** The [replace] of [_csvCell]: every double quote is written twice. *)
Fixpoint double_quotes (str : string) : string :=
  match str with
  | EmptyString => EmptyString
  | String c rest =>
      if (c =? ascii_of_nat 34)%char
      then String c (String c (double_quotes rest))
      else String c (double_quotes rest)
  end.

(** The second line of [_csvCell], on the string of the value. *)
Definition csv_quote (str : string) : string :=
  if has_csv_special str
  then (dquote ++ double_quotes str ++ dquote)%string
  else str.

Definition CRLF : string :=
  String (ascii_of_nat 13) (String (ascii_of_nat 10) EmptyString).

(** [err instanceof ScrapelyError] *)
Definition is_ScrapelyError (e : Exn) : bool :=
  match e with
  | ValidationError _ _ => true
  | FetchError _ _ _ => true
  | TypeError _ => false
  | Thrown _ => false
  end.

(** The calls of [path] and [fs.promises] that the exports make; [None]
    is a call that resolves, [Some e] one that rejects with [e]. *)
Record FileSystem : Type := mkFileSystem {
  path_resolve : JsValue -> string;
  path_dirname : string -> string;
  fs_mkdir : string -> option Exn;
  fs_writeFile : string -> string -> option Exn
}.

(** A call of [fs.promises] that was started. *)
Inductive FsOp : Type :=
| Mkdir (dir : string)
| WriteFile (file content : string).

(** What an export throws: an exception as it was raised, or an
    [ExportError] around its cause. *)
Inductive ExportExn : Type :=
| Raised (e : Exn)
| ExportError (filepath : JsValue) (cause : Exn).

Section Strings.

(** [String(value)] *)
Variable to_string : JsValue -> string.

(** [sanitizeFilename(name)] *)
Definition sanitizeFilename (name : JsValue) : string :=
  replace_chars forbidden_in_filename (to_string name).

(** [value == null ? '' : String(value)] *)
Definition cell_text (value : JsValue) : string :=
  if js_not_nullish value then to_string value else EmptyString.

(** [_csvCell(value)] *)
Definition _csvCell (value : JsValue) : string :=
  csv_quote (cell_text value).

(** [Object.keys(v)]; [inl] when it throws. *)
Variable object_keys : JsValue -> Exn + list string.

(** [v[h]]; [inl] when it throws. *)
Variable get_property : JsValue -> string -> Exn + JsValue.

Variable fs : FileSystem.

(** [headers.map((h) => _csvCell(row[h]))] *)
Fixpoint row_cells (row : JsValue) (headers : list string)
    : Exn + list string :=
  match headers with
  | [] => inr []
  | h :: rest =>
      match get_property row h with
      | inl e => inl e
      | inr value =>
          match row_cells row rest with
          | inl e => inl e
          | inr cells => inr (_csvCell value :: cells)
          end
      end
  end.

(** The loop [for (const row of data)] of [exportCSV]: the lines it
    pushes. *)
Fixpoint row_lines (headers : list string) (data : list JsValue)
    : Exn + list string :=
  match data with
  | [] => inr []
  | row :: rest =>
      match row_cells row headers with
      | inl e => inl e
      | inr cells =>
          match row_lines headers rest with
          | inl e => inl e
          | inr lines => inr (String.concat "," cells :: lines)
          end
      end
  end.

(** [lines] of [exportCSV] for a non-empty array [first_row :: rest]. *)
Definition csv_lines (first_row : JsValue) (rest : list JsValue)
    : Exn + list string :=
  match object_keys first_row with
  | inl e => inl e
  | inr headers =>
      match row_lines headers (first_row :: rest) with
      | inl e => inl e
      | inr lines =>
          inr (String.concat ","
                 (List.map (fun h => _csvCell (VStr h)) headers) :: lines)
      end
  end.

(** The [catch] clause of [exportCSV]. *)
Definition export_failure (filepath : JsValue) (err : Exn) : ExportExn :=
  if is_ScrapelyError err then Raised err else ExportError filepath err.

(** [exportCSV(data, filepath)]: how it settles, and the calls of
    [fs.promises] it started, in order. *)
Definition exportCSV (data filepath : JsValue)
    : (ExportExn + string) * list FsOp :=
  match _assert filepath ExpString "filepath" with
  | Some e => (inl (Raised e), [])
  | None =>
      match data with
      | VArr (first_row :: rest) =>
          let abs := path_resolve fs filepath in
          match csv_lines first_row rest with
          | inl e => (inl (export_failure filepath e), [])
          | inr lines =>
              let dir := path_dirname fs abs in
              match fs_mkdir fs dir with
              | Some e => (inl (export_failure filepath e), [Mkdir dir])
              | None =>
                  let content := String.concat CRLF lines in
                  match fs_writeFile fs abs content with
                  | Some e =>
                      (inl (export_failure filepath e),
                       [Mkdir dir; WriteFile abs content])
                  | None => (inr abs, [Mkdir dir; WriteFile abs content])
                  end
              end
          end
      | _ =>
          (inl (Raised (ValidationError "data"
                          "must be a non-empty array of objects")), [])
      end
  end.

End Strings.

(** The file a table of cells is written as: lines of quoted cells. *)
Definition csv_content (table : list (list string)) : string :=
  String.concat CRLF
    (List.map (fun cells => String.concat "," (List.map csv_quote cells))
              table).


(** A string is empty or begins with a comma, a carriage return or a line
    feed. *)
Definition at_separator (r : string) : Prop :=
  match r with
  | EmptyString => True
  | String c _ => csv_special c = true /\ c <> ascii_of_nat 34
  end.

(** A string is empty or begins with a carriage return or a line feed. *)
Definition at_line_end (r : string) : Prop :=
  match r with
  | EmptyString => True
  | String c _ => c = ascii_of_nat 13 \/ c = ascii_of_nat 10
  end.

Module TextExamples.

(** [String(value)] on the values of the examples: strings, [null],
    [undefined] and booleans. *)
Definition render (v : JsValue) : string :=
  match v with
  | VStr s => s
  | VNull => "null"
  | VUndefined => "undefined"
  | VBool true => "true"
  | VBool false => "false"
  | _ => "[object Object]"
  end.

(** [Object.keys] and property access on rows that are plain objects. *)
Definition keys_of (v : JsValue) : Exn + list string :=
  match v with
  | VObj fields => inr (List.map fst fields)
  | VUndefined | VNull =>
      inl (TypeError "Cannot convert undefined or null to object")
  | _ => inr []
  end.

Fixpoint field (fields : list (string * JsValue)) (h : string) : JsValue :=
  match fields with
  | [] => VUndefined
  | (k, v) :: rest => if k =? h then v else field rest h
  end.

Definition property_of (v : JsValue) (h : string) : Exn + JsValue :=
  match v with
  | VObj fields => inr (field fields h)
  | VUndefined | VNull =>
      inl (TypeError "Cannot read properties of undefined")
  | _ => inr VUndefined
  end.

(** A file system on which every call resolves; paths are kept as they
    are and every file lies in the directory ["."]. *)
Definition calm_fs : FileSystem :=
  mkFileSystem (fun p => match p with VStr s => s | _ => "." end)
               (fun _ => ".") (fun _ => None) (fun _ _ => None).

(** A file system on which no directory can be made. *)
Definition readonly_fs : FileSystem :=
  mkFileSystem (fun p => match p with VStr s => s | _ => "." end)
               (fun _ => ".") (fun _ => Some (Thrown "EROFS"))
               (fun _ _ => None).

(** Two rows; the second lacks [b] and has a key of its own. *)
Definition two_rows : JsValue :=
  VArr [ VObj [("a", VStr "1"); ("b", VStr "x,y")];
         VObj [("a", VNull); ("c", VStr "dropped")] ].

(** A row that is [null] after a good one. *)
Definition broken_rows : JsValue :=
  VArr [ VObj [("a", VStr "1")]; VNull ].

End TextExamples.

(** ** Addresses and numbers in a page *)

Section Matches.

Variable env : Env.
Variable opts : Opts.

(** [html.match(pattern) || []] for the pattern of [extractEmails] and
    for that of [extractPhoneNumbers]: the matches from left to right. *)
Variable match_emails : string -> list string.
Variable match_phones : string -> list string.

(** [extractEmails(url)] *)
Definition extractEmails (url : JsValue) : M (list string) :=
  html <- fetch env opts url;;
  ret (_unique String.eqb (match_emails html)).

(** [extractPhoneNumbers(url)] *)
Definition extractPhoneNumbers (url : JsValue) : M (list string) :=
  html <- fetch env opts url;;
  ret (_unique String.eqb (List.map js_trim (match_phones html))).

End Matches.

Module MatchExamples.

(** A matcher that finds the same three addresses in every page, one of
    them twice. *)
Definition three_addresses (html : string) : list string :=
  ["a@x.io"; "b@x.io"; "a@x.io"].

(** Two matches that differ by the white space around them. *)
Definition two_numbers (html : string) : list string :=
  [" 555-1234"; "555-1234"].

End MatchExamples.

(** ** Tables *)

(** The digits of [n] before [acc], most significant first. *)
Fixpoint decimal_digits (fuel n : nat) (acc : string) : string :=
  match fuel with
  | O => acc
  | S fuel' =>
      let acc' := String (ascii_of_nat (48 + n mod 10)) acc in
      if (n / 10 =? 0)%nat then acc'
      else decimal_digits fuel' (n / 10) acc'
  end.

(** [String(n)] for a natural number. *)
Definition decimal (n : nat) : string := decimal_digits (S n) n EmptyString.

(** A plain object with string values, as the list of its own
    properties; the order in which JavaScript enumerates them is not
    modelled. *)
Definition Row : Type := list (string * string).

(** An entry of [tables] in [extractTable]. *)
Record Table : Type := mkTable {
  table_headers : list string;
  table_rows : list Row
}.

(** What [extractTable] resolves to: [null], one table, or an array. *)
Inductive TableResult : Type :=
| NoTable
| OneTable (t : Table)
| Tables (ts : list Table).

(** [col_${j + 1}] *)
Definition col_name (j : nat) : string := ("col_" ++ decimal (j + 1))%string.

(** [headers[j] || col_${j + 1}] *)
Definition cell_key (headers : list string) (j : nat) : string :=
  match nth_error headers j with
  | Some h => if str_truthy h then h else col_name j
  | None => col_name j
  end.

Section Tables.

Context {DV : DocumentView}.
Variable env : Env.
Variable opts : Opts.

(** [.children(selector)] and [.not(selector)] of cheerio. *)
Variable children : Doc -> list Elem -> string -> list Elem.
Variable not_ : Doc -> list Elem -> string -> list Elem.

(** [cells.each((j, td) => ...)] from index [j] on. *)
Fixpoint fill_row (D : Doc) (headers : list string) (j : nat)
    (cells : list Elem) (row : Row) : Row :=
  match cells with
  | [] => row
  | td :: rest =>
      fill_row D headers (S j) rest
               (set_property row (cell_key headers j)
                             (js_trim (text D [td])))
  end.

(** The callback of [rowEls.each]: the rows it pushes. *)
Definition row_of (D : Doc) (headers : list string) (tr : Elem)
    : list Row :=
  let cells := children D [tr] "td" in
  if (List.length cells =? 0)%nat then []
  else [fill_row D headers 0 cells []].

(** The header cells [extractTable] looks for. *)
Definition found_headers (D : Doc) (table : Elem) : list string :=
  List.map (fun th => js_trim (text D [th]))
           (find D [table] "thead th, thead td, tr:first-child th").

(** The callback of [$(selector).each]: the table it pushes. *)
Definition table_of (D : Doc) (table : Elem) : Table :=
  let found := found_headers D table in
  let useAutoHeaders := (List.length found =? 0)%nat in
  let headers :=
    if useAutoHeaders
    then
      let colCount :=
        List.length (children D (first (find D [table] "tr")) "td, th") in
      found ++ List.map col_name (seq 0 colCount)
    else found in
  let rowEls :=
    if useAutoHeaders then find D [table] "tr"
    else not_ D (find D [table] "tbody tr, tr") ":has(th)" in
  mkTable headers (flat_map (row_of D headers) rowEls).

(** [extractTable(url, selector, opts)]; [selector] is [None] when the
    argument is [undefined], [all] is the truthiness of [opts.all]. *)
Definition extractTable (url : JsValue) (selector : option string)
    (all : bool) : M TableResult :=
  D <- load env opts url;;
  let tables := List.map (table_of D) (select D (nullish selector "table")) in
  ret (match tables with
       | [] => if all then Tables [] else NoTable
       | t :: _ => if all then Tables tables else OneTable t
       end).

End Tables.

(** The tables of a result. *)
Definition tables_of (r : TableResult) : list Table :=
  match r with
  | NoTable => []
  | OneTable t => [t]
  | Tables ts => ts
  end.

Module TableExamples.

Import Toy.

(** A table whose header names two columns [n] and whose rows have three
    cells. *)
Definition th (id : nat) (t : string) : Element :=
  mkElement id ["thead th, thead td, tr:first-child th"; "td, th"] [] t.

Definition tr (id : nat) : Element :=
  mkElement id ["tr"; "tbody tr, tr"] [] EmptyString.

Definition td (id : nat) (t : string) : Element :=
  mkElement id ["td"; "td, th"] [] t.

Definition price_table : Document :=
  [ mkTree (mkElement 1 ["table"] [] EmptyString)
      [ tr 10; th 100 "n"; th 101 "n";
        tr 11; td 110 " a "; td 111 "b"; td 112 "c";
        tr 12 ] ].

(** A table whose only header cell reads [__proto__]. *)
Definition proto_table : Document :=
  [ mkTree (mkElement 1 ["table"] [] EmptyString)
      [ tr 10; th 100 "__proto__";
        tr 11; td 110 "a" ] ].

Definition load_table (body : string) : Document :=
  if body =? "proto" then proto_table else price_table.

(** A transport that answers every URL with the body ["proto"]. *)
Definition proto_env : Env := env_of (flaky 0 "proto") no_listeners.

Definition table_view : DocumentView :=
  mkDocumentView Document Element load_table toy_select toy_find toy_text
                 toy_html toy_attr.

(** The children of an element are the elements whose number is ten
    times its own plus a digit. *)
Definition toy_children (d : Document) (ctx : list Element) (sel : string)
    : list Element :=
  flat_map
    (fun c =>
       flat_map
         (fun t =>
            filter (fun e => matches sel e &&
                             (el_id e / 10 =? el_id c)%nat)
                   (descendants t))
         d)
    ctx.

(** [.not(':has(th)')]: the elements without a header cell among their
    children. *)
Definition toy_not (d : Document) (ctx : list Element) (sel : string)
    : list Element :=
  filter (fun c =>
            (List.length (toy_children d [c]
                            "thead th, thead td, tr:first-child th") =? 0)%nat)
         ctx.

End TableExamples.

(** ** Patterns *)

(** The regular expressions of [detectType]: classes of characters,
    sequence, alternative and repetition. *)
Inductive Regex : Type :=
| Never
| Empty
| OneOf (p : ascii -> bool)
| Seq (r1 r2 : Regex)
| Alt (r1 r2 : Regex)
| Star (r : Regex).

(** [r+], [r?], [r{n}] and [r{n,}] *)
Definition Plus (r : Regex) : Regex := Seq r (Star r).

Definition Opt (r : Regex) : Regex := Alt r Empty.

Fixpoint Times (n : nat) (r : Regex) : Regex :=
  match n with
  | O => Empty
  | S n' => Seq r (Times n' r)
  end.

Definition AtLeast (n : nat) (r : Regex) : Regex := Seq (Times n r) (Star r).

(** One character, and one letter under the flag [i]. *)
Definition Chr (c : ascii) : Regex := OneOf (Ascii.eqb c).

Definition Letter (lower upper : ascii) : Regex :=
  OneOf (fun c => Ascii.eqb lower c || Ascii.eqb upper c).

(** The strings a pattern matches as a whole. *)
Inductive Lang : Regex -> string -> Prop :=
| LangEmpty : Lang Empty EmptyString
| LangOneOf p c : p c = true -> Lang (OneOf p) (String c EmptyString)
| LangSeq r1 r2 s1 s2 :
    Lang r1 s1 -> Lang r2 s2 -> Lang (Seq r1 r2) (s1 ++ s2)%string
| LangAltL r1 r2 s : Lang r1 s -> Lang (Alt r1 r2) s
| LangAltR r1 r2 s : Lang r2 s -> Lang (Alt r1 r2) s
| LangStarNil r : Lang (Star r) EmptyString
| LangStarCons r s1 s2 :
    Lang r s1 -> Lang (Star r) s2 -> Lang (Star r) (s1 ++ s2)%string.

(** Matching by derivatives. *)
Fixpoint nullable (r : Regex) : bool :=
  match r with
  | Never => false
  | Empty => true
  | OneOf _ => false
  | Seq r1 r2 => nullable r1 && nullable r2
  | Alt r1 r2 => nullable r1 || nullable r2
  | Star _ => true
  end.

Fixpoint deriv (c : ascii) (r : Regex) : Regex :=
  match r with
  | Never => Never
  | Empty => Never
  | OneOf p => if p c then Empty else Never
  | Seq r1 r2 =>
      if nullable r1
      then Alt (Seq (deriv c r1) r2) (deriv c r2)
      else Seq (deriv c r1) r2
  | Alt r1 r2 => Alt (deriv c r1) (deriv c r2)
  | Star r' => Seq (deriv c r') (Star r')
  end.

(** [/^r$/.test(s)] *)
Fixpoint test_whole (r : Regex) (s : string) : bool :=
  match s with
  | EmptyString => nullable r
  | String c rest => test_whole (deriv c r) rest
  end.

(** [/^r/.test(s)] *)
Definition test_prefix (r : Regex) (s : string) : bool :=
  test_whole (Seq r (Star (OneOf (fun _ => true)))) s.

(** The characters some class of a pattern accepts. *)
Fixpoint uses (r : Regex) (c : ascii) : bool :=
  match r with
  | Never => false
  | Empty => false
  | OneOf p => p c
  | Seq r1 r2 => uses r1 c || uses r2 c
  | Alt r1 r2 => uses r1 c || uses r2 c
  | Star r' => uses r' c
  end.

(** A string holds a character of a class, and begins with one. *)
Definition holds (q : ascii -> bool) (s : string) : Prop :=
  exists c, In c (list_ascii_of_string s) /\ q c = true.

Definition begins (q : ascii -> bool) (s : string) : Prop :=
  exists c rest, s = String c rest /\ q c = true.

(** The classes [\d] and [\w]. *)
Definition is_digit (c : ascii) : bool :=
  let n := nat_of_ascii c in (48 <=? n)%nat && (n <=? 57)%nat.

Definition is_word (c : ascii) : bool :=
  let n := nat_of_ascii c in
  is_digit c || ((65 <=? n)%nat && (n <=? 90)%nat) ||
  ((97 <=? n)%nat && (n <=? 122)%nat) || (n =? 95)%nat.

(** [\d+] *)
Definition integer_pattern : Regex := Plus (OneOf is_digit).

(** [\d+\.\d+] *)
Definition float_pattern : Regex :=
  Seq (Plus (OneOf is_digit)) (Seq (Chr ".") (Plus (OneOf is_digit))).

(** [[\w.+-]+@[\w.-]+\.\w{2,}] *)
Definition email_pattern : Regex :=
  Seq (Plus (OneOf (fun c => is_word c || Ascii.eqb "." c ||
                             Ascii.eqb "+" c || Ascii.eqb "-" c)))
      (Seq (Chr "@")
           (Seq (Plus (OneOf (fun c => is_word c || Ascii.eqb "." c ||
                                       Ascii.eqb "-" c)))
                (Seq (Chr ".") (AtLeast 2 (OneOf is_word))))).

(** [https?:\/\/] under the flag [i] *)
Definition url_pattern : Regex :=
  Seq (Letter "h" "H")
      (Seq (Letter "t" "T")
           (Seq (Letter "t" "T")
                (Seq (Letter "p" "P")
                     (Seq (Opt (Letter "s" "S"))
                          (Seq (Chr ":") (Seq (Chr "/") (Chr "/"))))))).

(** [\d{4}-\d{2}-\d{2}] *)
Definition date_pattern : Regex :=
  Seq (Times 4 (OneOf is_digit))
      (Seq (Chr "-")
           (Seq (Times 2 (OneOf is_digit))
                (Seq (Chr "-") (Times 2 (OneOf is_digit))))).

Section Detection.

(** [String(value)] *)
Variable to_string : JsValue -> string.

(** [detectType(value)] *)
Definition detectType (value : JsValue) : string :=
  if negb (js_not_nullish value) ||
     match value with
     | VStr EmptyString => true
     | _ => false
     end
  then "empty"
  else
    let v := js_trim (to_string value) in
    if test_whole integer_pattern v then "integer"
    else if test_whole float_pattern v then "float"
    else if test_whole email_pattern v then "email"
    else if test_prefix url_pattern v then "url"
    else if test_prefix date_pattern v then "date"
    else "string".

End Detection.

(** * Properties *)

(** ** The [Map] operations *)

Lemma map_get_delete_same (key : string) (m : Store) :
  map_get key (map_delete key m) = None.
Proof.
  induction m as [|[k e] rest IH]; simpl; [reflexivity|].
  destruct (k =? key) eqn:E; simpl; [exact IH|].
  rewrite E. exact IH.
Qed.

Lemma map_get_delete_other (key k : string) (m : Store) :
  k <> key -> map_get k (map_delete key m) = map_get k m.
Proof.
  intros Hne.
  induction m as [|[k0 e] rest IH]; simpl; [reflexivity|].
  destruct (k0 =? key) eqn:E; simpl.
  - apply String.eqb_eq in E. subst k0.
    destruct (key =? k) eqn:E'; [apply String.eqb_eq in E'; congruence|].
    exact IH.
  - destruct (k0 =? k); [reflexivity|exact IH].
Qed.

Lemma map_get_set_same (key : string) (entry : CacheEntry) (m : Store) :
  map_get key (map_set key entry m) = Some entry.
Proof.
  induction m as [|[k e] rest IH]; simpl.
  - now rewrite String.eqb_refl.
  - destruct (k =? key) eqn:E; simpl; rewrite E; [reflexivity|exact IH].
Qed.

Lemma map_get_set_other (key k : string) (entry : CacheEntry) (m : Store) :
  k <> key -> map_get k (map_set key entry m) = map_get k m.
Proof.
  intros Hne.
  induction m as [|[k0 e] rest IH]; simpl.
  - destruct (key =? k) eqn:E; [apply String.eqb_eq in E; congruence|].
    reflexivity.
  - destruct (k0 =? key) eqn:E; simpl.
    + apply String.eqb_eq in E. subst k0.
      destruct (key =? k) eqn:E'; [apply String.eqb_eq in E'; congruence|].
      reflexivity.
    + destruct (k0 =? k); [reflexivity|exact IH].
Qed.

Lemma map_delete_length (key : string) (m : Store) :
  (List.length (map_delete key m) <= List.length m)%nat.
Proof.
  induction m as [|[k e] rest IH]; simpl; [lia|].
  destruct (k =? key); simpl; lia.
Qed.

Lemma map_set_length (key : string) (entry : CacheEntry) (m : Store) :
  (List.length (map_set key entry m) <= S (List.length m))%nat.
Proof.
  induction m as [|[k e] rest IH]; simpl; [lia|].
  destruct (k =? key); simpl; lia.
Qed.

Lemma map_set_present_length (key : string) (entry : CacheEntry) (m : Store) :
  map_get key m <> None ->
  List.length (map_set key entry m) = List.length m.
Proof.
  induction m as [|[k e] rest IH]; simpl; [congruence|].
  destruct (k =? key); simpl; [reflexivity|].
  intros H. now rewrite IH.
Qed.

Lemma map_set_absent (key : string) (entry : CacheEntry) (m : Store) :
  map_get key m = None -> map_set key entry m = m ++ [(key, entry)].
Proof.
  induction m as [|[k e] rest IH]; simpl; [reflexivity|].
  destruct (k =? key); [discriminate|].
  intros H. now rewrite IH.
Qed.

Lemma map_get_absent_keys (key : string) (m : Store) :
  map_get key m = None <-> ~ In key (List.map fst m).
Proof.
  induction m as [|[k e] rest IH]; simpl.
  - tauto.
  - destruct (k =? key) eqn:E.
    + apply String.eqb_eq in E. split; [discriminate|]. intros H. tauto.
    + apply String.eqb_neq in E. rewrite IH. tauto.
Qed.

Lemma map_delete_absent (key : string) (m : Store) :
  map_get key m = None -> map_delete key m = m.
Proof.
  induction m as [|[k e] rest IH]; simpl; [reflexivity|].
  destruct (k =? key); [discriminate|].
  intros H. now rewrite IH.
Qed.

Lemma map_delete_head (k0 : string) (e0 : CacheEntry) (rest : Store) :
  store_wf ((k0, e0) :: rest) -> map_delete k0 ((k0, e0) :: rest) = rest.
Proof.
  unfold store_wf. simpl. intros H. inversion H as [|? ? Hnotin Hnd]; subst.
  rewrite String.eqb_refl.
  apply map_delete_absent. now apply map_get_absent_keys.
Qed.

Lemma map_delete_keys_incl (key : string) (m : Store) :
  incl (List.map fst (map_delete key m)) (List.map fst m).
Proof.
  induction m as [|[k e] rest IH]; simpl; [apply incl_refl|].
  destruct (k =? key); simpl.
  - now apply incl_tl.
  - apply incl_cons; [now left|now apply incl_tl].
Qed.

Lemma map_delete_wf (key : string) (m : Store) :
  store_wf m -> store_wf (map_delete key m).
Proof.
  unfold store_wf.
  induction m as [|[k e] rest IH]; simpl; [trivial|].
  intros H. inversion H as [|? ? Hnotin Hnd]; subst.
  destruct (k =? key); simpl; [auto|].
  constructor; [|auto].
  intros Hin. apply Hnotin. eapply map_delete_keys_incl; eassumption.
Qed.

Lemma map_set_keys (key : string) (entry : CacheEntry) (m : Store) :
  List.map fst (map_set key entry m) =
  if match map_get key m with Some _ => true | None => false end
  then List.map fst m else List.map fst m ++ [key].
Proof.
  induction m as [|[k e] rest IH]; simpl; [reflexivity|].
  destruct (k =? key) eqn:E; simpl; [reflexivity|].
  rewrite IH. now destruct (map_get key rest).
Qed.

Lemma map_set_wf (key : string) (entry : CacheEntry) (m : Store) :
  store_wf m -> store_wf (map_set key entry m).
Proof.
  unfold store_wf. intros H. rewrite map_set_keys.
  destruct (map_get key m) eqn:E; [exact H|].
  apply map_get_absent_keys in E.
  apply NoDup_rev in H. rewrite <- (rev_involutive (_ ++ _)).
  apply NoDup_rev. rewrite rev_app_distr. simpl.
  constructor; [|exact H].
  now rewrite <- in_rev.
Qed.

Lemma cachePut_wf (policy : CachePolicy) (now : Z) (key body : string)
    (m : Store) :
  store_wf m -> store_wf (_cachePut policy now key body m).
Proof.
  intros H. unfold _cachePut. apply map_set_wf.
  destruct (map_size m >=? maxSize policy)%Z; [|exact H].
  destruct (map_first_key m); [now apply map_delete_wf|exact H].
Qed.

Lemma cacheGet_wf (policy : CachePolicy) (now : Z) (key : string)
    (m : Store) :
  store_wf m -> store_wf (snd (_cacheGet policy now key m)).
Proof.
  intros H. unfold _cacheGet.
  destruct (map_get key m); [|exact H].
  destruct (now - ts c >? ttl policy)%Z; simpl; [now apply map_delete_wf|exact H].
Qed.

(** Every store reached from a well-formed one by cache operations is
    well-formed; the empty store is. *)
Lemma run_ops_wf (policy : CachePolicy) (ops : list CacheOp) (m : Store) :
  store_wf m -> store_wf (run_ops policy ops m).
Proof.
  unfold run_ops. revert m.
  induction ops as [|op ops IH]; simpl; intros m H; [exact H|].
  apply IH. destruct op; simpl.
  - now apply cachePut_wf.
  - now apply cacheGet_wf.
  - constructor.
Qed.

Lemma cachePut_size (policy : CachePolicy) (now : Z) (key body : string)
    (m : Store) :
  (1 <= maxSize policy)%Z ->
  (map_size m <= maxSize policy)%Z ->
  (map_size (_cachePut policy now key body m) <= maxSize policy)%Z.
Proof.
  unfold _cachePut, map_size. intros Hmax Hm.
  destruct (Z.of_nat (List.length m) >=? maxSize policy)%Z eqn:E.
  - destruct m as [|[k0 e0] rest]; simpl in *; [lia|].
    rewrite String.eqb_refl.
    pose proof (map_set_length key (mkEntry body now) (map_delete k0 rest)).
    pose proof (map_delete_length k0 rest). lia.
  - rewrite Z.geb_leb in E. apply Z.leb_gt in E.
    pose proof (map_set_length key (mkEntry body now) m). lia.
Qed.

Lemma cacheGet_size (policy : CachePolicy) (now : Z) (key : string)
    (m : Store) :
  (map_size (snd (_cacheGet policy now key m)) <= map_size m)%Z.
Proof.
  unfold _cacheGet, map_size.
  destruct (map_get key m); simpl; [|lia].
  destruct (now - ts c >? ttl policy)%Z; simpl; [|lia].
  pose proof (map_delete_length key m). lia.
Qed.

(** ** The response cache *)

(** C2.  A cache read returns the stored value exactly when an entry for the
    key exists and [now - entry.ts <= ttl]; on an entry with
    [now - entry.ts > ttl] the read is a miss and that read deletes the entry
    from the store, leaving every other key as it was. *)
Theorem cacheGet_fresh_or_evicted :
  forall (policy : CachePolicy) (now : Z) (key : string) (m : Store),
    (forall v : string,
        fst (_cacheGet policy now key m) = Some v <->
        exists entry, map_get key m = Some entry /\
                      (now - ts entry <= ttl policy)%Z /\
                      data entry = v) /\
    (forall entry,
        map_get key m = Some entry ->
        (now - ts entry > ttl policy)%Z ->
        fst (_cacheGet policy now key m) = None /\
        snd (_cacheGet policy now key m) = map_delete key m /\
        map_get key (snd (_cacheGet policy now key m)) = None /\
        forall k, k <> key ->
                  map_get k (snd (_cacheGet policy now key m)) = map_get k m).
Proof.
  intros policy now key m. unfold _cacheGet. split.
  - intros v. destruct (map_get key m) as [entry|] eqn:E.
    + destruct (now - ts entry >? ttl policy)%Z eqn:T; simpl.
      * split; [discriminate|].
        intros (e' & He' & Hle & _). inversion He'; subst.
        apply Z.gtb_lt in T. lia.
      * split.
        -- intros H. inversion H; subst. exists entry.
           rewrite Z.gtb_ltb in T. apply Z.ltb_ge in T. auto.
        -- intros (e' & He' & _ & Hd). inversion He'; subst. reflexivity.
    + simpl. split; [discriminate|]. intros (e' & He' & _). discriminate.
  - intros entry E Hgt. rewrite E.
    assert (T : (now - ts entry >? ttl policy)%Z = true)
      by (apply Z.gtb_lt; lia).
    rewrite T. simpl. repeat split.
    + apply map_get_delete_same.
    + intros k Hk. now apply map_get_delete_other.
Qed.

(** An entry written at 0 and read at 2000 under [ttl = 1000]: a miss that
    empties the store. *)
Lemma cacheGet_fresh_or_evicted_witness :
  _cacheGet (mkPolicy 1000 2) 2000 "k" [("k", mkEntry "v" 0)] = (None, []).
Proof.
  destruct (proj2 (cacheGet_fresh_or_evicted (mkPolicy 1000 2) 2000 "k"
                     [("k", mkEntry "v" 0)])
              (mkEntry "v" 0) eq_refl)
    as (Hmiss & Hstore & _).
  - simpl. lia.
  - rewrite (surjective_pairing (_cacheGet _ _ _ _)), Hmiss, Hstore.
    reflexivity.
Defined.

(** A write followed by a read of the same key returns the written body as
    long as the entry's age is within [ttl], and misses after that. *)
Lemma cachePut_then_get (policy : CachePolicy) (t t' : Z) (key body : string)
    (m : Store) :
  fst (_cacheGet policy t' key (_cachePut policy t key body m)) =
  if (t' - t >? ttl policy)%Z then None else Some body.
Proof.
  unfold _cacheGet, _cachePut. rewrite map_get_set_same. simpl.
  now destruct (t' - t >? ttl policy)%Z.
Qed.

(** C3, as the code has it.  With [maxSize >= 1] the size of the store never
    exceeds [maxSize] under any sequence of writes, reads and clears; a
    write of a new key to a store at capacity removes exactly the
    earliest-inserted entry and appends the new one; a write of a key that
    is present in a store below capacity overwrites that entry in place and
    leaves every other entry and the size as they were. *)
Theorem cache_bounded_insertion_order :
  forall policy : CachePolicy,
    (1 <= maxSize policy)%Z ->
    (forall (ops : list CacheOp) (m : Store),
        (map_size m <= maxSize policy)%Z ->
        (map_size (run_ops policy ops m) <= maxSize policy)%Z) /\
    (forall (now : Z) (key body k0 : string) (e0 : CacheEntry) (rest : Store),
        store_wf ((k0, e0) :: rest) ->
        (map_size ((k0, e0) :: rest) >= maxSize policy)%Z ->
        map_get key ((k0, e0) :: rest) = None ->
        _cachePut policy now key body ((k0, e0) :: rest) =
        rest ++ [(key, mkEntry body now)]) /\
    (forall (now : Z) (key body : string) (m : Store),
        map_get key m <> None ->
        (map_size m < maxSize policy)%Z ->
        _cachePut policy now key body m = map_set key (mkEntry body now) m /\
        map_size (_cachePut policy now key body m) = map_size m /\
        map_get key (_cachePut policy now key body m) =
          Some (mkEntry body now) /\
        forall k, k <> key ->
                  map_get k (_cachePut policy now key body m) = map_get k m).
Proof.
  intros policy Hmax. repeat split.
  - intros ops. unfold run_ops.
    induction ops as [|op ops IH]; simpl; intros m Hm; [exact Hm|].
    apply IH. destruct op; simpl.
    + now apply cachePut_size.
    + pose proof (cacheGet_size policy now key m). lia.
    + unfold map_size. simpl. lia.
  - intros now key body k0 e0 rest Hwf Hfull Habs.
    unfold _cachePut.
    assert (E : (map_size ((k0, e0) :: rest) >=? maxSize policy)%Z = true)
      by (rewrite Z.geb_leb; apply Z.leb_le; lia).
    rewrite E. cbn [map_first_key]. rewrite (map_delete_head _ _ _ Hwf).
    apply map_set_absent.
    simpl in Habs. destruct (k0 =? key); [discriminate|exact Habs].
  - assert (E : (map_size m >=? maxSize policy)%Z = false)
      by (rewrite Z.geb_leb; apply Z.leb_gt; lia).
    unfold _cachePut. now rewrite E.
  - assert (E : (map_size m >=? maxSize policy)%Z = false)
      by (rewrite Z.geb_leb; apply Z.leb_gt; lia).
    unfold _cachePut. rewrite E. unfold map_size.
    now rewrite map_set_present_length.
  - unfold _cachePut. apply map_get_set_same.
  - intros k Hk.
    assert (E : (map_size m >=? maxSize policy)%Z = false)
      by (rewrite Z.geb_leb; apply Z.leb_gt; lia).
    unfold _cachePut. rewrite E. now apply map_get_set_other.
Qed.

(** The bound at work: three writes under [maxSize = 2]. *)
Lemma cache_bounded_insertion_order_witness :
  (1 <= maxSize (mkPolicy 1000 2))%Z /\
  (map_size (run_ops (mkPolicy 1000 2)
               [OpPut "a" "A" 0; OpPut "b" "B" 1; OpPut "c" "C" 2] [])
   <= 2)%Z.
Proof.
  split; [simpl; lia|].
  apply (proj1 (cache_bounded_insertion_order (mkPolicy 1000 2)
                  ltac:(simpl; lia))).
  unfold map_size. simpl. lia.
Defined.

(** C3 as stated fails twice.  A write of a key that is present to a store at
    capacity evicts the earliest-inserted entry although the key is not new:
    under [maxSize = 2], after writes of ["a"] and ["b"], a second write of
    ["b"] removes ["a"].  And under [maxSize = 0] one write leaves a store of
    size 1. *)
Lemma cache_overwrite_evicts_counterexample :
  ~ (forall (policy : CachePolicy) (now : Z) (key body : string) (m : Store),
        store_wf m -> map_get key m <> None ->
        forall k, k <> key ->
                  map_get k (_cachePut policy now key body m) = map_get k m) /\
  ~ (forall (policy : CachePolicy) (ops : list CacheOp),
        (map_size (run_ops policy ops []) <= maxSize policy)%Z).
Proof.
  split.
  - intros H.
    specialize (H (mkPolicy 1000 2) 2%Z "b" "B2"
                  (run_ops (mkPolicy 1000 2)
                           [OpPut "a" "A" 0; OpPut "b" "B" 1] [])).
    assert (Hwf : store_wf (run_ops (mkPolicy 1000 2)
                              [OpPut "a" "A" 0; OpPut "b" "B" 1] []))
      by (apply run_ops_wf; constructor).
    specialize (H Hwf ltac:(vm_compute; discriminate) "a"
                  ltac:(discriminate)).
    vm_compute in H. discriminate.
  - intros H.
    specialize (H (mkPolicy 1000 0) [OpPut "a" "A" 0]).
    vm_compute in H. apply H. reflexivity.
Qed.

(** ** The retry loop of [fetch] *)

Section FetchProperties.

Variable env : Env.
Variable opts : Opts.

Lemma bind_assoc (A B C : Type) (c : M A) (f : A -> M B) (g : B -> M C)
    (w : World) :
  bind (bind c f) g w = bind c (fun x => bind (f x) g) w.
Proof. unfold bind. now destruct (c w) as [[a| |] w']. Qed.

Lemma bind_ext (A B : Type) (c : M A) (k k' : A -> M B) (w : World) :
  (forall a w', k a w' = k' a w') -> bind c k w = bind c k' w.
Proof. intros H. unfold bind. now destruct (c w) as [[a| |] w']. Qed.

Lemma record_advance (e : Effect) (w : World) :
  record e w = advance 0 [e] w.
Proof. unfold record, advance. now rewrite Nat.add_0_r. Qed.

Lemma advance_advance (j k : nat) (s t : list Effect) (w : World) :
  advance k t (advance j s w) = advance (j + k) (s ++ t) w.
Proof.
  unfold advance. simpl. now rewrite Nat.add_assoc, app_assoc.
Qed.

Lemma advance_nothing (w : World) : advance 0 [] w = w.
Proof.
  unfold advance. rewrite Nat.add_0_r, app_nil_r. now destruct w.
Qed.

Lemma run_listeners_quiet (name : string) (ev : Event) :
  quiet env -> run_listeners (listeners env name) ev = None.
Proof.
  intros Hq.
  assert (H : forall ls, incl ls (listeners env name) ->
                         run_listeners ls ev = None).
  { induction ls as [|l ls IH]; intros Hi; simpl; [reflexivity|].
    rewrite (Hq name l ev) by (apply Hi; now left).
    apply IH. intros x Hx. apply Hi. now right. }
  apply H, incl_refl.
Qed.

(** An event other than ['error'] emitted among observers that do not
    throw only leaves its mark in the trace. *)
Lemma emit_quiet (ev : Event) (w : World) :
  quiet env ->
  (forall err, ev <> EvError err) ->
  emit env ev w = (Return tt, record (Emit ev) w).
Proof.
  intros Hq Hne. unfold emit, bind, modify.
  pose proof (run_listeners_quiet (event_name ev) ev Hq) as H.
  destruct (listeners env (event_name ev)) as [|l ls].
  - destruct ev; try reflexivity. now destruct (Hne err).
  - now rewrite H.
Qed.

(** The ['error'] event followed by [throw fetchErr]: with or without an
    observer, the method throws [fetchErr]. *)
Lemma emit_error_then_throw (A : Type) (fetchErr : Exn) (w : World) :
  quiet env ->
  (emit env (EvError fetchErr);; throw fetchErr) w =
  (@Throw A fetchErr, record (Emit (EvError fetchErr)) w).
Proof.
  intros Hq. unfold emit, bind, modify, throw.
  pose proof (run_listeners_quiet (event_name (EvError fetchErr))
                (EvError fetchErr) Hq) as H.
  destruct (listeners env (event_name (EvError fetchErr))) as [|l ls].
  - reflexivity.
  - now rewrite H.
Qed.

(** The emitter does not contain the exception of an observer: the first
    observer that throws ends [emit] with its exception. *)
Lemma emit_propagates (ev : Event) (w : World)
    (before after : list Listener) (l : Listener) (e : Exn) :
  listeners env (event_name ev) = before ++ l :: after ->
  (forall l', In l' before -> l' ev = None) ->
  l ev = Some e ->
  emit env ev w = (Throw e, record (Emit ev) w).
Proof.
  intros E Hb Hl. unfold emit, bind, modify.
  assert (H : run_listeners (before ++ l :: after) ev = Some e).
  { clear E. induction before as [|b bs IH]; simpl.
    - now rewrite Hl.
    - rewrite (Hb b (or_introl eq_refl)). apply IH.
      intros l' Hl'. apply Hb. now right. }
  rewrite E. destruct (before ++ l :: after) eqn:E'.
  - now destruct before.
  - now rewrite H.
Qed.

(** A pass whose transport call fails. *)
Lemma attempt_body_fails (url : string) (err : Exn) (w : World) :
  quiet env ->
  transport env (calls w) url = HttpFail err ->
  attempt_body env opts url w =
  (Throw err, advance 1 [Emit (EvRequest url); HttpGet url] w).
Proof.
  intros Hq Ht. unfold attempt_body, bind.
  rewrite emit_quiet by (auto; discriminate).
  unfold http_get. simpl. rewrite Ht.
  f_equal. unfold record, count_call, advance. simpl.
  now rewrite <- app_assoc, Nat.add_1_r.
Qed.

(** A pass whose transport call succeeds. *)
Lemma attempt_body_succeeds (url : string) (status : Z) (d : ResData)
    (w : World) :
  quiet env ->
  transport env (calls w) url = HttpOk status d ->
  attempt_body env opts url w =
  (Return (body_of d),
   stored env opts url (body_of d) (advance 1 (final_pass url status) w)).
Proof.
  intros Hq Ht. unfold attempt_body, bind.
  rewrite emit_quiet by (auto; discriminate).
  unfold http_get. simpl. rewrite Ht.
  rewrite emit_quiet by (auto; discriminate). simpl.
  assert (E : record (Emit (EvResponse url status))
                (record (HttpGet url)
                   (count_call (record (Emit (EvRequest url)) w))) =
              advance 1 (final_pass url status) w).
  { unfold record, count_call, advance, final_pass. simpl.
    now rewrite <- !app_assoc, Nat.add_1_r. }
  rewrite E. unfold stored.
  destruct (cache opts) as [policy|]; [|reflexivity].
  reflexivity.
Qed.

(** One failed pass of the loop. *)
Lemma fetch_loop_failed_pass (fuel attempt : nat) (url : string)
    (lastErr : option Exn) (err : Exn) (w : World) :
  quiet env ->
  (attempt <= maxRetries opts)%nat ->
  transport env (calls w) url = HttpFail err ->
  fetch_loop env opts (S fuel) attempt url lastErr w =
  fetch_loop env opts fuel (S attempt) url (Some err)
             (advance 1 (failed_pass opts url attempt err) w).
Proof.
  intros Hq Ha Ht. cbn [fetch_loop].
  apply Nat.leb_le in Ha. rewrite Ha.
  unfold bind at 1. unfold try_catch. unfold bind at 1.
  rewrite (attempt_body_fails url err w Hq Ht).
  unfold attempt_failed, bind at 1. unfold bind at 1.
  rewrite emit_quiet by (auto; discriminate).
  unfold failed_pass, when.
  destruct (attempt <? maxRetries opts)%nat.
  - unfold _sleep, modify, bind, ret. simpl. f_equal.
    unfold record, advance. simpl. now rewrite <- !app_assoc.
  - unfold ret, bind. simpl. f_equal.
    unfold record, advance. simpl. now rewrite <- !app_assoc.
Qed.

(** [k] failed passes in a row. *)
Lemma fetch_loop_failed_passes (errs : nat -> Exn) (url : string) (k : nat) :
  quiet env ->
  forall (fuel attempt : nat) (lastErr : option Exn) (w : World),
    (attempt + k <= S (maxRetries opts))%nat ->
    (forall n, (calls w <= n < calls w + k)%nat ->
               transport env n url = HttpFail (errs n)) ->
    fetch_loop env opts (k + fuel) attempt url lastErr w =
    fetch_loop env opts fuel (attempt + k) url
               (match k with
                | O => lastErr
                | S k' => Some (errs (calls w + k'))
                end)
               (advance k (failed_passes opts url errs attempt (calls w) k) w).
Proof.
  intros Hq. induction k as [|k IH]; intros fuel attempt lastErr w Ha Ht.
  - simpl. now rewrite Nat.add_0_r, advance_nothing.
  - cbn [Nat.add].
    rewrite (fetch_loop_failed_pass _ _ _ _ (errs (calls w))) by
      (auto; try lia; apply Ht; lia).
    rewrite IH.
    + rewrite advance_advance. cbn [failed_passes advance calls].
      replace (S attempt + k)%nat with (attempt + S k)%nat by lia.
      replace (calls w + 1)%nat with (S (calls w)) by lia.
      f_equal. destruct k as [|k']; [now rewrite Nat.add_0_r|].
      f_equal. f_equal. lia.
    + lia.
    + cbn [advance calls]. intros n Hn. apply Ht. lia.
Qed.

(** The pass that returns. *)
Lemma fetch_loop_final_pass (fuel attempt : nat) (url : string)
    (lastErr : option Exn) (status : Z) (d : ResData) (w : World) :
  quiet env ->
  (attempt <= maxRetries opts)%nat ->
  transport env (calls w) url = HttpOk status d ->
  fetch_loop env opts (S fuel) attempt url lastErr w =
  (Return (body_of d),
   stored env opts url (body_of d) (advance 1 (final_pass url status) w)).
Proof.
  intros Hq Ha Ht. cbn [fetch_loop].
  apply Nat.leb_le in Ha. rewrite Ha.
  unfold bind at 1. unfold try_catch. unfold bind at 1.
  now rewrite (attempt_body_succeeds url status d w Hq Ht).
Qed.

(** The statements after the loop. *)
Lemma fetch_loop_exhausted (fuel attempt : nat) (url : string) (cause : Exn)
    (w : World) :
  quiet env ->
  (maxRetries opts < attempt)%nat ->
  fetch_loop env opts fuel attempt url (Some cause) w =
  (Throw (FetchError url (maxRetries opts) cause),
   advance 0 [Emit (EvError (FetchError url (maxRetries opts) cause))] w).
Proof.
  intros Hq Ha. apply Nat.leb_gt in Ha.
  destruct fuel; cbn [fetch_loop]; rewrite Ha;
    rewrite emit_error_then_throw by exact Hq;
    now rewrite record_advance.
Qed.

(** [k < maxRetries] failures, then a response. *)
Lemma fetch_loop_succeeds (errs : nat -> Exn) (url : string) (k : nat)
    (status : Z) (d : ResData) (w : World) :
  quiet env ->
  (k < maxRetries opts)%nat ->
  (forall n, (calls w <= n < calls w + k)%nat ->
             transport env n url = HttpFail (errs n)) ->
  transport env (calls w + k) url = HttpOk status d ->
  fetch_loop env opts (maxRetries opts) 1 url None w =
  (Return (body_of d),
   stored env opts url (body_of d)
     (advance (S k)
        (failed_passes opts url errs 1 (calls w) k ++ final_pass url status)
        w)).
Proof.
  intros Hq Hk Hf Hs.
  replace (maxRetries opts) with (k + S (maxRetries opts - S k))%nat at 1
    by lia.
  rewrite (fetch_loop_failed_passes errs url k Hq) by (auto; lia).
  rewrite (fetch_loop_final_pass _ _ _ _ status d) by
    (auto; try lia; exact Hs).
  rewrite advance_advance. now rewrite Nat.add_1_r.
Qed.

(** [maxRetries >= 1] failures. *)
Lemma fetch_loop_gives_up (errs : nat -> Exn) (url : string) (w : World) :
  quiet env ->
  (1 <= maxRetries opts)%nat ->
  (forall n, (calls w <= n < calls w + maxRetries opts)%nat ->
             transport env n url = HttpFail (errs n)) ->
  let fetchErr :=
    FetchError url (maxRetries opts)
               (errs (calls w + maxRetries opts - 1)%nat) in
  fetch_loop env opts (maxRetries opts) 1 url None w =
  (Throw fetchErr,
   advance (maxRetries opts)
     (failed_passes opts url errs 1 (calls w) (maxRetries opts) ++
      [Emit (EvError fetchErr)])
     w).
Proof.
  intros Hq Hm Hf fetchErr.
  replace (maxRetries opts) with (maxRetries opts + 0)%nat at 1 by lia.
  rewrite (fetch_loop_failed_passes errs url (maxRetries opts) Hq) by
    (auto; lia).
  destruct (maxRetries opts) as [|m'] eqn:E; [lia|].
  rewrite fetch_loop_exhausted by (auto; lia).
  rewrite advance_advance, Nat.add_0_r.
  subst fetchErr. rewrite E.
  now replace (calls w + S m' - 1)%nat with (calls w + m')%nat by lia.
Qed.

(** The rate gate and the rotation of the user agent neither throw nor
    emit, call the transport or touch the cache; they only suspend. *)
Lemma entered_spec (w : World) :
  (_rateGate env opts;; when (rotateUserAgent opts) _nextUA) w =
    (Return tt, entered env opts w) /\
  calls (entered env opts w) = calls w /\
  _cache (entered env opts w) = _cache w /\
  exists t, trace (entered env opts w) = trace w ++ t /\
            forall e, In e t -> exists ms, e = Sleep ms.
Proof.
  unfold entered, _rateGate, _nextUA, when, bind, date_now, gets, modify,
    _sleep, ret.
  destruct (rateLimit opts) as [r|]; [destruct (Qeq_bool r 0)|];
    [| destruct (Qltb _ _) |];
    destruct (rotateUserAgent opts); simpl;
    (split; [reflexivity|]); (split; [reflexivity|]);
    (split; [reflexivity|]);
    first
      [ exists []; split; [symmetry; apply app_nil_r | intros e []]
      | eexists; split;
        [ reflexivity
        | intros e [He|[]]; subst; eexists; reflexivity ] ].
Qed.

Lemma count_emitted_app (name : string) (s t : list Effect) :
  count_emitted name (s ++ t) = (count_emitted name s + count_emitted name t)%nat.
Proof.
  unfold count_emitted. now rewrite filter_app, length_app.
Qed.

Lemma count_emitted_sleeps (name : string) (t : list Effect) :
  (forall e, In e t -> exists ms, e = Sleep ms) -> count_emitted name t = O.
Proof.
  unfold count_emitted.
  induction t as [|e t IH]; intros H; simpl; [reflexivity|].
  destruct (H e (or_introl eq_refl)) as [ms ->]. simpl.
  apply IH. intros e' He'. apply H. now right.
Qed.

Lemma entered_count (name : string) (w : World) :
  count_emitted name (trace (entered env opts w)) =
  count_emitted name (trace w).
Proof.
  destruct (entered_spec w) as (_ & _ & _ & t & Ht & Hs).
  rewrite Ht, count_emitted_app, (count_emitted_sleeps name t Hs). lia.
Qed.

Lemma trace_stored (url body : string) (w : World) :
  trace (stored env opts url body w) = trace w.
Proof. unfold stored. now destruct (cache opts). Qed.

Lemma count_failed_passes (name url : string) (errs : nat -> Exn)
    (k attempt call : nat) :
  name = "request" \/ name = "retry" ->
  count_emitted name (failed_passes opts url errs attempt call k) = k.
Proof.
  intros Hn. revert attempt call.
  induction k as [|k IH]; intros attempt call; [reflexivity|].
  cbn [failed_passes]. rewrite count_emitted_app, IH.
  unfold failed_pass.
  destruct Hn as [-> | ->]; destruct (attempt <? maxRetries opts)%nat;
    reflexivity.
Qed.

Lemma sleeps_app (s t : list Effect) : sleeps (s ++ t) = sleeps s ++ sleeps t.
Proof. unfold sleeps. now rewrite flat_map_app. Qed.

(** The suspensions of [k] failed passes: one of [retryDelay * n] after each
    pass [n < maxRetries], none after pass [maxRetries]. *)
Lemma sleeps_failed_passes (url : string) (errs : nat -> Exn)
    (k attempt call : nat) :
  (attempt + k <= S (maxRetries opts))%nat ->
  sleeps (failed_passes opts url errs attempt call k) =
  List.map (backoff opts)
           (seq attempt (Nat.min k (maxRetries opts - attempt))).
Proof.
  revert attempt call.
  induction k as [|k IH]; intros attempt call Ha; [reflexivity|].
  cbn [failed_passes]. rewrite sleeps_app, IH by lia.
  unfold failed_pass.
  destruct (attempt <? maxRetries opts)%nat eqn:E.
  - apply Nat.ltb_lt in E.
    replace (Nat.min (S k) (maxRetries opts - attempt))
      with (S (Nat.min k (maxRetries opts - S attempt))) by lia.
    reflexivity.
  - apply Nat.ltb_ge in E.
    replace (Nat.min (S k) (maxRetries opts - attempt)) with O by lia.
    replace (Nat.min k (maxRetries opts - S attempt)) with O by lia.
    reflexivity.
Qed.

(** On a string without a cache entry, [fetch] goes through the rate gate
    and into the retry loop. *)
Lemma fetch_uncached (url : string) (w : World) :
  uncached opts url w ->
  fetch env opts (VStr url) w =
  fetch_loop env opts (maxRetries opts) 1 url None (entered env opts w).
Proof.
  intros Hu. unfold fetch. cbn [_assert js_typeof]. simpl check.
  unfold bind at 1. unfold ret at 1. unfold fetch_checked.
  destruct (entered_spec w) as (Hrun & _ & Hc & _).
  rewrite <- bind_assoc. unfold bind at 1. rewrite Hrun.
  unfold uncached in Hu.
  destruct (cache opts) as [policy|]; [|reflexivity].
  unfold cache_lookup, bind, gets. now rewrite Hc, Hu.
Qed.

(** A run of [fetch] with [k < maxRetries] failed passes and a response. *)
Lemma fetch_succeeds_run (errs : nat -> Exn) (url : string) (k : nat)
    (status : Z) (d : ResData) (w : World) :
  quiet env ->
  uncached opts url w ->
  (k < maxRetries opts)%nat ->
  (forall n, (calls w <= n < calls w + k)%nat ->
             transport env n url = HttpFail (errs n)) ->
  transport env (calls w + k) url = HttpOk status d ->
  fetch env opts (VStr url) w =
  (Return (body_of d),
   stored env opts url (body_of d)
     (advance (S k)
        (failed_passes opts url errs 1 (calls w) k ++ final_pass url status)
        (entered env opts w))).
Proof.
  intros Hq Hu Hk Hf Hs.
  destruct (entered_spec w) as (_ & Hc & _).
  rewrite fetch_uncached by exact Hu.
  rewrite (fetch_loop_succeeds errs url k status d) by
    (auto; rewrite Hc; auto).
  now rewrite Hc.
Qed.

(** A run of [fetch] in which every pass fails. *)
Lemma fetch_gives_up_run (errs : nat -> Exn) (url : string) (w : World) :
  quiet env ->
  uncached opts url w ->
  (1 <= maxRetries opts)%nat ->
  (forall n, (calls w <= n < calls w + maxRetries opts)%nat ->
             transport env n url = HttpFail (errs n)) ->
  fetch env opts (VStr url) w =
  (Throw (FetchError url (maxRetries opts)
                     (errs (calls w + maxRetries opts - 1)%nat)),
   advance (maxRetries opts)
     (failed_passes opts url errs 1 (calls w) (maxRetries opts) ++
      [Emit (EvError (FetchError url (maxRetries opts)
                        (errs (calls w + maxRetries opts - 1)%nat)))])
     (entered env opts w)).
Proof.
  intros Hq Hu Hm Hf.
  destruct (entered_spec w) as (_ & Hc & _).
  rewrite fetch_uncached by exact Hu.
  rewrite (fetch_loop_gives_up errs url) by (auto; rewrite Hc; auto).
  now rewrite Hc.
Qed.


End FetchProperties.

(** ** Observers *)

Lemma silenced_quiet (env : Env) : quiet (silenced env).
Proof. intros name l ev []. Qed.

Lemma attempt_body_silenced (env : Env) (opts : Opts) (url : string)
    (w : World) :
  quiet env ->
  attempt_body env opts url w = attempt_body (silenced env) opts url w.
Proof.
  intros Hq. unfold attempt_body, bind.
  rewrite (emit_quiet env) by (auto; discriminate).
  rewrite (emit_quiet (silenced env)) by
    (auto using silenced_quiet; discriminate).
  unfold http_get. cbn [silenced transport].
  destruct (transport env (calls (record (Emit (EvRequest url)) w)) url)
    as [status d|err]; [|reflexivity].
  rewrite (emit_quiet env) by (auto; discriminate).
  rewrite (emit_quiet (silenced env)) by
    (auto using silenced_quiet; discriminate).
  reflexivity.
Qed.

Lemma attempt_failed_silenced (env : Env) (opts : Opts) (url : string)
    (attempt : nat) (err : Exn) (w : World) :
  quiet env ->
  attempt_failed env opts url attempt err w =
  attempt_failed (silenced env) opts url attempt err w.
Proof.
  intros Hq. unfold attempt_failed, bind.
  rewrite (emit_quiet env) by (auto; discriminate).
  rewrite (emit_quiet (silenced env)) by
    (auto using silenced_quiet; discriminate).
  reflexivity.
Qed.

Lemma fetch_loop_silenced (env : Env) (opts : Opts) (url : string) :
  quiet env ->
  forall (fuel attempt : nat) (lastErr : option Exn) (w : World),
    fetch_loop env opts fuel attempt url lastErr w =
    fetch_loop (silenced env) opts fuel attempt url lastErr w.
Proof.
  intros Hq.
  assert (Hexit : forall fuel attempt lastErr w,
             (attempt <=? maxRetries opts)%nat = false ->
             fetch_loop env opts fuel attempt url lastErr w =
             fetch_loop (silenced env) opts fuel attempt url lastErr w).
  { intros fuel attempt lastErr w E.
    destruct fuel; cbn [fetch_loop]; rewrite E;
      (destruct lastErr as [cause|]; [|reflexivity]);
      rewrite (emit_error_then_throw env) by exact Hq;
      now rewrite (emit_error_then_throw (silenced env)) by
        apply silenced_quiet. }
  induction fuel as [|fuel IH]; intros attempt lastErr w;
    destruct (attempt <=? maxRetries opts)%nat eqn:E;
    try (now apply Hexit).
  - cbn [fetch_loop]. now rewrite E.
  - cbn [fetch_loop]. rewrite E.
    unfold bind, try_catch.
    rewrite <- attempt_body_silenced by exact Hq.
    destruct (attempt_body env opts url w) as [[body|err|] w1];
      try reflexivity.
    rewrite <- attempt_failed_silenced by exact Hq.
    destruct (attempt_failed env opts url attempt err w1) as [[[]|err'|] w2];
      try reflexivity.
    unfold ret. apply IH.
Qed.

Lemma fetch_checked_silenced (env : Env) (opts : Opts) (url : string)
    (w : World) :
  quiet env ->
  fetch_checked env opts url w = fetch_checked (silenced env) opts url w.
Proof.
  intros Hq. unfold fetch_checked.
  change (_rateGate (silenced env) opts) with (_rateGate env opts).
  change (cache_lookup (silenced env)) with (cache_lookup env).
  apply bind_ext; intros [] w1.
  apply bind_ext; intros [] w2.
  apply bind_ext; intros [body|] w3.
  - unfold bind.
    rewrite (emit_quiet env) by (auto; discriminate).
    now rewrite (emit_quiet (silenced env)) by
      (auto using silenced_quiet; discriminate).
  - now apply fetch_loop_silenced.
Qed.


(** ** Claims on [fetch] *)







(** C4, as the code has it.  For every [url] that is not a string, [fetch]
    throws [ValidationError] as its first step: the state of the instance
    and the trace are unchanged, so no rate-gate wait, cache access,
    observation, suspension or transport call was made. *)
Theorem fetch_rejects_non_string :
  forall (env : Env) (opts : Opts) (url : JsValue) (w : World),
    js_typeof url <> "string" ->
    fetch env opts url w =
    (Throw (ValidationError "url" "must be a string"), w).
Proof.
  intros env opts url w H. unfold fetch.
  destruct url; try reflexivity. now destruct H.
Qed.

Lemma fetch_rejects_non_string_witness :
  js_typeof (VNum 42) <> "string" /\
  fetch Examples.healthy_env (Toy.plain_opts 3) (VNum 42) initial_world =
  (Throw (ValidationError "url" "must be a string"), initial_world).
Proof.
  split; [discriminate|].
  apply (fetch_rejects_non_string Examples.healthy_env (Toy.plain_opts 3)
           (VNum 42) initial_world).
  discriminate.
Defined.

(** [_assert(url, 'string', 'url')] tests the type only: every string, the
    empty one included, enters the pipeline. *)
Lemma fetch_accepts_every_string (env : Env) (opts : Opts) (s : string)
    (w : World) :
  fetch env opts (VStr s) w = fetch_checked env opts s w.
Proof. reflexivity. Qed.

(** C4 as stated fails on the empty string: [fetch('')] passes validation,
    calls the transport with [''] and, on a healthy transport, returns the
    body. *)
Lemma fetch_empty_url_counterexample :
  ~ (forall (env : Env) (opts : Opts) (url : JsValue) (w : World),
        nonempty_string url = false ->
        exists e, fst (fetch env opts url w) = Throw e /\
                  is_ValidationError e = true /\
                  trace (snd (fetch env opts url w)) = trace w).
Proof.
  intros H.
  destruct (H Examples.healthy_env (Toy.plain_opts 3) (VStr EmptyString)
              initial_world eq_refl) as (e & He & _).
  vm_compute in He. discriminate.
Qed.

(** What the code does on the empty string there. *)
Example fetch_empty_url_run :
  fst (fetch Examples.healthy_env (Toy.plain_opts 3) (VStr EmptyString)
             initial_world) = Return "ok" /\
  requests (trace (snd (fetch Examples.healthy_env (Toy.plain_opts 3)
                              (VStr EmptyString) initial_world))) =
  [EmptyString].
Proof. split; reflexivity. Qed.

(** C8, as the code has it.  With observers that return normally, [fetch]
    ends exactly as it does with no observer attached: same body or error,
    same state, same trace. *)
Theorem fetch_unaffected_by_quiet_observers :
  forall (env : Env) (opts : Opts) (url : JsValue) (w : World),
    quiet env ->
    fetch env opts url w = fetch (silenced env) opts url w.
Proof.
  intros env opts url w Hq. unfold fetch.
  apply bind_ext. intros [] w1.
  destruct url; try reflexivity.
  now apply fetch_checked_silenced.
Qed.

Lemma fetch_unaffected_by_quiet_observers_witness :
  quiet Examples.watched_env /\
  fetch Examples.watched_env (Toy.plain_opts 3) (VStr "/x") initial_world =
  fetch (silenced Examples.watched_env) (Toy.plain_opts 3) (VStr "/x")
        initial_world.
Proof.
  assert (Hq : quiet Examples.watched_env).
  { intros name l ev. unfold Examples.watched_env, Toy.env_of, Toy.on.
    cbn [listeners]. destruct (name =? "retry").
    - intros [<-|[]]. reflexivity.
    - intros []. }
  split; [exact Hq|].
  apply (fetch_unaffected_by_quiet_observers Examples.watched_env
           (Toy.plain_opts 3) (VStr "/x") initial_world Hq).
Defined.

(** C8 as stated fails: the emitter does not contain the exception of an
    observer.  With one transport failure followed by a response, [fetch]
    returns the body when no observer is attached, and throws the exception
    of a ['retry'] observer when that observer throws. *)
Lemma fetch_observer_abort_counterexample :
  ~ (forall (env : Env) (opts : Opts) (url : JsValue) (w : World),
        fst (fetch env opts url w) = fst (fetch (silenced env) opts url w)).
Proof.
  intros H.
  specialize (H Examples.observed_env (Toy.plain_opts 3) (VStr "/x")
                initial_world).
  vm_compute in H. discriminate.
Qed.

(** The two runs of that example. *)
Example fetch_observer_abort_run :
  fst (fetch Examples.observed_env (Toy.plain_opts 3) (VStr "/x")
             initial_world) = Throw (Thrown "observer") /\
  fst (fetch (silenced Examples.observed_env) (Toy.plain_opts 3) (VStr "/x")
             initial_world) = Return "ok".
Proof. split; reflexivity. Qed.

(** An exception of a ['response'] observer turns a successful attempt into
    a failed one: with [maxRetries = 1] and a healthy transport, [fetch]
    throws a [FetchError] caused by the observer. *)
Example fetch_response_observer_run :
  fst (fetch (Toy.env_of (Toy.flaky 0 "ok")
                         (Toy.on "response" Toy.failing_observer))
             (Toy.plain_opts 1) (VStr "/x") initial_world) =
  Throw (FetchError "/x" 1 (Thrown "observer")).
Proof. reflexivity. Qed.

(** ** Termination of the loops *)

Lemma terminates_ret (A : Type) (a : A) : terminates (ret a).
Proof. intros w. discriminate. Qed.

Lemma terminates_throw (A : Type) (e : Exn) : terminates (@throw A e).
Proof. intros w. discriminate. Qed.

Lemma terminates_modify (f : World -> World) : terminates (modify f).
Proof. intros w. discriminate. Qed.

Lemma terminates_gets (A : Type) (f : World -> A) : terminates (gets f).
Proof. intros w. discriminate. Qed.

Lemma terminates_bind (A B : Type) (c : M A) (k : A -> M B) :
  terminates c -> (forall a, terminates (k a)) -> terminates (bind c k).
Proof.
  intros Hc Hk w. unfold bind. specialize (Hc w).
  destruct (c w) as [[a| |] w']; simpl in *;
    [apply Hk | discriminate | congruence].
Qed.

Lemma terminates_try_catch (A : Type) (c : M A) (h : Exn -> M A) :
  terminates c -> (forall e, terminates (h e)) -> terminates (try_catch c h).
Proof.
  intros Hc Hh w. unfold try_catch. specialize (Hc w).
  destruct (c w) as [[a| |] w']; simpl in *;
    [discriminate | apply Hh | congruence].
Qed.

Lemma terminates_check (r : option Exn) : terminates (check r).
Proof. destruct r; intros w; discriminate. Qed.

Lemma terminates_call (A : Type) (r : Exn + A) : terminates (call r).
Proof. destruct r; intros w; discriminate. Qed.

Lemma terminates_when (b : bool) (c : M unit) :
  terminates c -> terminates (when b c).
Proof. destruct b; [auto|]. intros _. apply terminates_ret. Qed.

Create HintDb terminates.

#[local] Hint Resolve terminates_ret terminates_throw terminates_modify
  terminates_gets terminates_bind terminates_try_catch terminates_check
  terminates_call terminates_when : terminates.

Section Termination.

Context {DV : DocumentView}.
Variable env : Env.
Variable opts : Opts.

Lemma terminates_emit (ev : Event) : terminates (emit env ev).
Proof.
  unfold emit. apply terminates_bind; [auto with terminates|].
  intros _. destruct (listeners env (event_name ev));
    [destruct ev|]; auto with terminates.
Qed.

Lemma terminates_date_now : terminates (date_now env).
Proof. intros w. discriminate. Qed.

Lemma terminates_http_get (url : string) : terminates (http_get env url).
Proof.
  intros w. unfold http_get.
  destruct (transport env (calls w) url); discriminate.
Qed.

#[local] Hint Resolve terminates_emit terminates_date_now
  terminates_http_get : terminates.

Lemma terminates_rateGate : terminates (_rateGate env opts).
Proof.
  unfold _rateGate, _sleep.
  destruct (rateLimit opts) as [r|]; [|auto with terminates].
  destruct (Qeq_bool r 0); auto 10 with terminates.
Qed.

Lemma terminates_attempt_body (url : string) :
  terminates (attempt_body env opts url).
Proof.
  unfold attempt_body, cache_store.
  apply terminates_bind; [auto with terminates|]. intros _.
  apply terminates_bind; [auto with terminates|]. intros res.
  apply terminates_bind; [auto with terminates|]. intros _.
  apply terminates_bind; [|auto with terminates].
  destruct (cache opts); auto 10 with terminates.
Qed.

Lemma terminates_attempt_failed (url : string) (attempt : nat) (err : Exn) :
  terminates (attempt_failed env opts url attempt err).
Proof. unfold attempt_failed, _sleep. auto 10 with terminates. Qed.

(** The retry loop ends within [maxRetries + 1 - attempt] passes. *)
Lemma terminates_fetch_loop (url : string) :
  forall (fuel attempt : nat) (lastErr : option Exn),
    (maxRetries opts < fuel + attempt)%nat ->
    terminates (fetch_loop env opts fuel attempt url lastErr).
Proof.
  assert (Hexit : forall lastErr : option Exn,
             @terminates string
               match lastErr with
               | Some cause =>
                   emit env (EvError (FetchError url (maxRetries opts) cause));;
                   throw (FetchError url (maxRetries opts) cause)
               | None => throw (TypeError "Cannot read properties of undefined")
               end)
    by (intros [cause|]; auto with terminates).
  induction fuel as [|fuel IH]; intros attempt lastErr H;
    cbn [fetch_loop];
    destruct (attempt <=? maxRetries opts)%nat eqn:E;
    try apply Hexit.
  - apply Nat.leb_le in E. lia.
  - apply terminates_bind.
    + apply terminates_try_catch.
      * apply terminates_bind;
          [apply terminates_attempt_body|auto with terminates].
      * intros e. apply terminates_bind;
          [apply terminates_attempt_failed|auto with terminates].
    + intros [body|err]; [auto with terminates|]. apply IH. lia.
Qed.

(** [fetch] returns or throws from every state. *)
Lemma terminates_fetch (url : JsValue) : terminates (fetch env opts url).
Proof.
  unfold fetch. apply terminates_bind; [auto with terminates|]. intros _.
  destruct url; auto with terminates.
  unfold fetch_checked, _nextUA, cache_lookup.
  apply terminates_bind; [apply terminates_rateGate|]. intros _.
  apply terminates_bind; [auto 10 with terminates|]. intros _.
  apply terminates_bind.
  - destruct (cache opts); [|auto with terminates].
    apply terminates_bind; [auto with terminates|]. intros m.
    destruct (map_get s m); auto 10 with terminates.
  - intros [body|]; [auto with terminates|].
    apply terminates_fetch_loop. lia.
Qed.

Lemma terminates_load (url : JsValue) : terminates (load env opts url).
Proof.
  unfold load. apply terminates_bind; [apply terminates_fetch|].
  auto with terminates.
Qed.

(** The page loop ends within [maxPages + 1 - page] pages. *)
Lemma terminates_paginate_loop (popts : PaginateOpts) :
  forall (fuel page : nat) (currentUrl : JsValue) (collected : list JsValue),
    (effective_maxPages popts < fuel + page)%nat ->
    terminates (paginate_loop env opts popts fuel page currentUrl collected).
Proof.
  induction fuel as [|fuel IH]; intros page currentUrl collected H;
    cbn [paginate_loop];
    destruct ((page <=? effective_maxPages popts)%nat && js_truthy currentUrl)
      eqn:E; auto with terminates.
  - apply andb_prop in E. destruct E as [E _]. apply Nat.leb_le in E. lia.
  - apply terminates_bind.
    + apply terminates_try_catch.
      * apply terminates_bind; [apply terminates_load|auto with terminates].
      * intros e. destruct (pg_ignoreErrors popts); auto with terminates.
    + intros [D|]; [|auto with terminates].
      apply terminates_bind.
      * destruct (dataExtractor popts); auto with terminates.
      * intros collected'. apply terminates_bind.
        -- destruct (stopWhen popts); auto with terminates.
        -- intros [|]; [auto with terminates|]. apply IH. lia.
Qed.

End Termination.

(** ** Pagination *)

Section PaginationProperties.

Context {DV : DocumentView}.
Variable env : Env.
Variable opts : Opts.
Variable popts : PaginateOpts.

Lemma paginate_loop_exit (fuel page : nat) (currentUrl : JsValue)
    (collected : list JsValue) (w : World) :
  (page <=? effective_maxPages popts)%nat && js_truthy currentUrl = false ->
  paginate_loop env opts popts fuel page currentUrl collected w =
  (Return collected, w).
Proof.
  intros E. destruct fuel; cbn [paginate_loop]; now rewrite E.
Qed.

(** One page of the loop, loaded and extracted without a failure. *)
Lemma paginate_loop_page (fuel page : nat) (currentUrl : JsValue)
    (collected collected' : list JsValue) (w w1 : World) (D : Doc)
    (stop : bool) :
  (page <= effective_maxPages popts)%nat ->
  js_truthy currentUrl = true ->
  load env opts currentUrl w = (Return D, w1) ->
  extracted popts D currentUrl page collected collected' ->
  stop_test popts D collected' page stop ->
  paginate_loop env opts popts (S fuel) page currentUrl collected w =
  if last_page stop page (effective_maxPages popts)
               (next_url env popts currentUrl D)
  then (Return collected', w1)
  else paginate_loop env opts popts fuel (S page)
                     (next_url env popts currentUrl D) collected' w1.
Proof.
  intros Hpage Hurl Hload Hdata Hstop.
  cbn [paginate_loop]. apply Nat.leb_le in Hpage as Hp.
  rewrite Hp, Hurl. cbn [andb].
  unfold bind at 1. unfold try_catch. unfold bind at 1.
  rewrite Hload. unfold ret at 1.
  assert (Hc : forall w',
             match dataExtractor popts with
             | Some extract =>
                 data <- call (extract D currentUrl page);;
                 ret (collect collected data)
             | None => ret collected
             end w' = (Return collected', w')).
  { intros w'. unfold extracted in Hdata.
    destruct (dataExtractor popts) as [extract|].
    - destruct Hdata as (data & Hd & ->). unfold bind. now rewrite Hd.
    - now subst. }
  unfold bind at 1. rewrite Hc.
  assert (Hs : forall w',
             match stopWhen popts with
             | Some f => call (f D collected' page)
             | None => ret false
             end w' = (Return stop, w')).
  { intros w'. unfold stop_test in Hstop.
    destruct (stopWhen popts) as [f|].
    - now rewrite Hstop.
    - now subst. }
  unfold bind at 1. rewrite Hs.
  unfold last_page. destruct stop; [reflexivity|]. cbn [orb].
  destruct ((page =? effective_maxPages popts)%nat ||
            negb (js_truthy (next_url env popts currentUrl D))) eqn:E;
    [|reflexivity].
  apply paginate_loop_exit.
  apply orb_prop in E. destruct E as [E|E].
  - apply Nat.eqb_eq in E.
    assert (H : (S page <=? effective_maxPages popts)%nat = false)
      by (apply Nat.leb_gt; lia).
    now rewrite H.
  - apply negb_true_iff in E. rewrite E. apply andb_false_r.
Qed.

(** When the test after a page fails, the guard of the loop holds for the
    next page. *)
Lemma paginate_loop_continues (stop : bool) (page : nat) (next : JsValue) :
  (page <= effective_maxPages popts)%nat ->
  last_page stop page (effective_maxPages popts) next = false ->
  (S page <=? effective_maxPages popts)%nat && js_truthy next = true.
Proof.
  unfold last_page. intros Hp H.
  apply orb_false_elim in H. destruct H as [H Hn].
  apply orb_false_elim in H. destruct H as [_ He].
  apply negb_false_iff in Hn. apply Nat.eqb_neq in He.
  rewrite Hn, andb_true_r. apply Nat.leb_le. lia.
Qed.

(** [paginate] returns or throws from every state. *)
Lemma terminates_paginate (startUrl : JsValue) :
  terminates (paginate env opts popts startUrl).
Proof.
  unfold paginate. apply terminates_bind; [apply terminates_check|].
  intros _. apply terminates_paginate_loop. lia.
Qed.

End PaginationProperties.

(** [opts.maxPages || 50] is the caller's [maxPages] when that is positive
    and 50 otherwise. *)
Lemma effective_maxPages_positive (DV : DocumentView) (popts : PaginateOpts) :
  effective_maxPages popts =
  match maxPages popts with
  | Some (S n) => S n
  | _ => 50%nat
  end.
Proof.
  unfold effective_maxPages. now destruct (maxPages popts) as [[|n]|].
Qed.

(** The loop entered by [paginate] on a string. *)
Lemma paginate_on_string (DV : DocumentView) (env : Env) (opts : Opts)
    (popts : PaginateOpts) (u : string) (w : World) :
  paginate env opts popts (VStr u) w =
  paginate_loop env opts popts (effective_maxPages popts) 1 (VStr u) [] w.
Proof. reflexivity. Qed.





(** ** Batches *)

Section BatchProperties.

Variable task : nat -> JsValue -> Outcome.

Lemma settle_batch_length (i : nat) (batch : list JsValue) :
  List.length (settle_batch task i batch) = List.length batch.
Proof.
  revert i. induction batch as [|u rest IH]; intros i; simpl;
    [reflexivity|now rewrite IH].
Qed.

Lemma settle_batch_firstn (n i : nat) (l : list JsValue) :
  settle_batch task i (firstn n l) = firstn n (settle_batch task i l).
Proof.
  revert i l. induction n as [|n IH]; intros i [|u l]; simpl;
    try reflexivity.
  now rewrite IH.
Qed.

Lemma settle_batch_skipn (s i : nat) (l : list JsValue) :
  settle_batch task (i + s) (skipn s l) = skipn s (settle_batch task i l).
Proof.
  revert i l. induction s as [|s IH]; intros i l.
  - now rewrite Nat.add_0_r.
  - destruct l as [|u l]; simpl; [reflexivity|].
    rewrite <- IH. f_equal. lia.
Qed.

(** The outcomes of the window at [i] are the window at [i] of the
    outcomes. *)
Lemma settle_window (n i : nat) (urls : list JsValue) :
  settle_batch task i (slice i (i + n) urls) =
  firstn n (skipn i (settle_batch task 0 urls)).
Proof.
  unfold slice. replace (i + n - i)%nat with n by lia.
  now rewrite settle_batch_firstn, <- settle_batch_skipn.
Qed.

Lemma fulfilled_app (s t : list Outcome) :
  fulfilled (s ++ t) = fulfilled s ++ fulfilled t.
Proof. unfold fulfilled. now rewrite flat_map_app. Qed.

Lemma fulfilled_map (vs : list JsValue) :
  fulfilled (List.map Fulfilled vs) = vs.
Proof.
  induction vs as [|v vs IH]; simpl; [reflexivity|now rewrite IH].
Qed.

Lemma effective_concurrency_pos (sopts : ScrapeOpts) :
  (1 <= effective_concurrency sopts)%nat.
Proof.
  unfold effective_concurrency, DEFAULT_CONCURRENCY.
  destruct (concurrency sopts) as [[|n]|]; simpl; lia.
Qed.

Lemma gather_ignoring (sopts : ScrapeOpts) (settled : list Outcome)
    (results : list JsValue) :
  ignoreErrors sopts = true ->
  gather sopts settled results = inr (results ++ fulfilled settled).
Proof.
  intros Hi. revert results.
  induction settled as [|[v|r] rest IH]; intros results; simpl.
  - now rewrite app_nil_r.
  - rewrite IH. now rewrite <- app_assoc.
  - rewrite Hi. simpl. apply IH.
Qed.

Lemma gather_fulfilled (sopts : ScrapeOpts) (vs : list JsValue)
    (rest : list Outcome) (results : list JsValue) :
  gather sopts (List.map Fulfilled vs ++ rest) results =
  gather sopts rest (results ++ vs).
Proof.
  revert results. induction vs as [|v vs IH]; intros results; simpl.
  - now rewrite app_nil_r.
  - rewrite IH. now rewrite <- app_assoc.
Qed.

Lemma firstn_window (A : Type) (s n : nat) (l : list A) :
  firstn s l ++ firstn n (skipn s l) = firstn (s + n) l.
Proof.
  revert l. induction s as [|s IH]; intros l; [reflexivity|].
  destruct l as [|x l]; simpl.
  - now rewrite firstn_nil.
  - now rewrite IH.
Qed.

(** With [ignoreErrors], the loop from a window start gathers the
    fulfilled values of all remaining inputs and starts all of them. *)
Lemma scrape_loop_ignoring (sopts : ScrapeOpts) (urls : list JsValue) :
  ignoreErrors sopts = true ->
  forall (fuel i : nat) (results started : list JsValue),
    (List.length urls <= i + fuel)%nat ->
    scrape_loop task sopts fuel i urls results started =
    (Return (results ++ fulfilled (skipn i (settle_batch task 0 urls))),
     started ++ skipn i urls).
Proof.
  intros Hi. pose proof (effective_concurrency_pos sopts) as Hn.
  induction fuel as [|fuel IH]; intros i results started Hfuel;
    cbn [scrape_loop];
    destruct (i <? List.length urls)%nat eqn:E.
  - apply Nat.ltb_lt in E. lia.
  - apply Nat.ltb_ge in E.
    rewrite !skipn_all2 by (rewrite ?settle_batch_length; lia).
    simpl. now rewrite !app_nil_r.
  - rewrite settle_window, gather_ignoring by exact Hi.
    rewrite IH by lia.
    rewrite <- !app_assoc, <- fulfilled_app.
    unfold slice.
    replace (i + effective_concurrency sopts - i)%nat
      with (effective_concurrency sopts) by lia.
    rewrite (Nat.add_comm i), <- !skipn_skipn.
    now rewrite !firstn_skipn.
  - apply Nat.ltb_ge in E.
    rewrite !skipn_all2 by (rewrite ?settle_batch_length; lia).
    simpl. now rewrite !app_nil_r.
Qed.

(** Without [ignoreErrors], when the outcomes are fulfilled up to a first
    rejection in window [q], the loop from window [q0 <= q] throws the
    reason of that rejection after starting the windows up to [q]. *)
Lemma scrape_loop_aborts (sopts : ScrapeOpts) (urls vs : list JsValue)
    (reason : Exn) (later : list Outcome) (q : nat) :
  ignoreErrors sopts = false ->
  settle_batch task 0 urls = List.map Fulfilled vs ++ Rejected reason :: later ->
  (q * effective_concurrency sopts <= List.length vs
   < (q + 1) * effective_concurrency sopts)%nat ->
  forall (d q0 fuel : nat) (results : list JsValue),
    (q0 + d)%nat = q ->
    (d < fuel)%nat ->
    scrape_loop task sopts fuel (q0 * effective_concurrency sopts) urls
                results (firstn (q0 * effective_concurrency sopts) urls) =
    (Throw reason, firstn ((q + 1) * effective_concurrency sopts) urls).
Proof.
  intros Hi HO Hq. pose proof (effective_concurrency_pos sopts) as Hn.
  set (n := effective_concurrency sopts) in *.
  assert (Hlen : List.length urls =
                 (List.length vs + S (List.length later))%nat).
  { rewrite <- (settle_batch_length 0 urls), HO.
    rewrite length_app, length_map. reflexivity. }
  induction d as [|d IH]; intros q0 fuel results Hq0 Hfuel;
    (destruct fuel as [|fuel]; [lia|]);
    cbn [scrape_loop]; fold n;
    set (s := (q0 * n)%nat);
    (assert (Hs : (s <= List.length vs)%nat) by (subst s; nia));
    (assert (E : (s <? List.length urls)%nat = true)
       by (apply Nat.ltb_lt; lia));
    rewrite E, settle_window, HO;
    rewrite skipn_app, length_map, skipn_map;
    (replace (s - List.length vs)%nat with O by lia);
    cbn [skipn];
    rewrite firstn_app, length_map, firstn_map, length_skipn.
  - (* the failing window *)
    assert (Hq0' : q0 = q) by lia. subst q0.
    assert (Hin : (List.length vs - s < n)%nat) by (subst s; nia).
    rewrite (firstn_all2 (n := n)) by (rewrite length_skipn; lia).
    destruct (n - (List.length vs - s))%nat as [|k] eqn:Ek; [lia|].
    cbn [firstn]. rewrite gather_fulfilled. cbn [gather].
    rewrite Hi. cbn [negb]. f_equal.
    unfold slice. replace (s + n - s)%nat with n by lia.
    rewrite firstn_window. f_equal. subst s. lia.
  - (* a window before it *)
    assert (Hout : (s + n <= List.length vs)%nat) by (subst s; nia).
    replace (n - (List.length vs - s))%nat with O by lia.
    cbn [firstn]. rewrite app_nil_r.
    rewrite <- (app_nil_r (List.map Fulfilled _)), gather_fulfilled.
    cbn [gather].
    unfold slice. replace (s + n - s)%nat with n by lia.
    rewrite firstn_window.
    replace (s + n)%nat with (S q0 * n)%nat by (subst s; lia).
    apply IH; lia.
Qed.

End BatchProperties.

(** C7.  With [ignoreErrors = true], [scrapeMultiple] starts the task of
    every input and returns the values of the fulfilled tasks in the order
    of the inputs, leaving out the rejected ones; with concurrency 2 and
    five inputs of which the third fails it returns the four other values
    in input order.  With [ignoreErrors = false], when the first rejected
    task in input order lies in window [q], the call throws the reason of
    that task and the inputs of the later windows are never started. *)
Theorem scrapeMultiple_error_policy :
  (forall (task : nat -> JsValue -> Outcome) (c : option nat)
          (urls : list JsValue),
      scrapeMultiple task (mkScrapeOpts c true) urls =
      (Return (fulfilled (settle_batch task 0 urls)), urls)) /\
  (forall (task : nat -> JsValue -> Outcome) (u1 u2 u3 u4 u5 : JsValue)
          (v1 v2 v4 v5 : JsValue) (e : Exn),
      task 0%nat u1 = Fulfilled v1 ->
      task 1%nat u2 = Fulfilled v2 ->
      task 2%nat u3 = Rejected e ->
      task 3%nat u4 = Fulfilled v4 ->
      task 4%nat u5 = Fulfilled v5 ->
      scrapeMultiple task (mkScrapeOpts (Some 2%nat) true)
                     [u1; u2; u3; u4; u5] =
      (Return [v1; v2; v4; v5], [u1; u2; u3; u4; u5])) /\
  (forall (task : nat -> JsValue -> Outcome) (c : option nat)
          (urls vs : list JsValue) (reason : Exn) (later : list Outcome)
          (q : nat),
      settle_batch task 0 urls =
        List.map Fulfilled vs ++ Rejected reason :: later ->
      let n := effective_concurrency (mkScrapeOpts c false) in
      (q * n <= List.length vs < (q + 1) * n)%nat ->
      scrapeMultiple task (mkScrapeOpts c false) urls =
      (Throw reason, firstn ((q + 1) * n) urls)).
Proof.
  assert (Hall : forall task c urls,
             scrapeMultiple task (mkScrapeOpts c true) urls =
             (Return (fulfilled (settle_batch task 0 urls)), urls)).
  { intros task c urls. unfold scrapeMultiple.
    now rewrite scrape_loop_ignoring by (reflexivity || lia). }
  split; [exact Hall|]. split.
  - intros task u1 u2 u3 u4 u5 v1 v2 v4 v5 e H1 H2 H3 H4 H5.
    rewrite Hall. cbn [settle_batch]. now rewrite H1, H2, H3, H4, H5.
  - intros task c urls vs reason later q HO n Hq.
    unfold scrapeMultiple.
    pose proof (effective_concurrency_pos (mkScrapeOpts c false)) as Hn.
    fold n in Hn.
    assert (Hlen : List.length urls =
                   (List.length vs + S (List.length later))%nat).
    { rewrite <- (settle_batch_length task 0 urls), HO.
      rewrite length_app, length_map. reflexivity. }
    apply (scrape_loop_aborts task (mkScrapeOpts c false) urls vs reason
             later q eq_refl HO Hq q 0%nat (List.length urls) []).
    + lia.
    + nia.
Qed.

(** Five inputs in windows of two, the third task rejected: the first two
    windows are started, the fifth input never is. *)
Lemma scrapeMultiple_error_policy_witness :
  scrapeMultiple BatchExamples.third_fails (mkScrapeOpts (Some 2%nat) false)
                 BatchExamples.urls5 =
  (Throw (Thrown "ETIMEDOUT"), [VStr "/1"; VStr "/2"; VStr "/3"; VStr "/4"]).
Proof.
  apply (proj2 (proj2 scrapeMultiple_error_policy)
           BatchExamples.third_fails (Some 2%nat) BatchExamples.urls5
           [VStr "/1"; VStr "/2"] (Thrown "ETIMEDOUT")
           [Fulfilled (VStr "/4"); Fulfilled (VStr "/5")] 1%nat).
  - reflexivity.
  - simpl. lia.
Defined.

(** ** List extraction *)

Section ExtractionProperties.

Context {DV : DocumentView}.

Lemma list_field_with_multiple (D : Doc) (container : Elem)
    (m : option bool) (def : FieldDef) :
  list_field D container (with_multiple m def) = list_field D container def.
Proof. reflexivity. Qed.

Lemma list_item_reflag (D : Doc) (container : Elem)
    (flag : FieldDef -> option bool) (itemSchema : Schema) :
  list_item D container (reflag flag itemSchema) =
  list_item D container itemSchema.
Proof.
  induction itemSchema as [|[key def] rest IH]; [reflexivity|].
  cbn [reflag List.map list_item fst snd].
  rewrite list_field_with_multiple.
  destruct (list_field D container def); [reflexivity|].
  fold (reflag flag rest). now rewrite IH.
Qed.

Lemma list_items_reflag (D : Doc) (containers : list Elem)
    (flag : FieldDef -> option bool) (itemSchema : Schema) :
  list_items D containers (reflag flag itemSchema) =
  list_items D containers itemSchema.
Proof.
  induction containers as [|container rest IH]; [reflexivity|].
  cbn [list_items]. now rewrite list_item_reflag, IH.
Qed.

(** The record of a container holds one value per field of the schema, in
    schema order: the value of [list_field]. *)
Lemma list_item_fields (D : Doc) (container : Elem) (itemSchema : Schema)
    (item : list (string * JsValue)) :
  list_item D container itemSchema = inr item ->
  Forall2 (fun kd kv => fst kv = fst kd /\
                        list_field D container (snd kd) = inr (snd kv))
          itemSchema item.
Proof.
  revert item. induction itemSchema as [|[key def] rest IH]; intros item.
  - intros H. inversion H. constructor.
  - cbn [list_item].
    destruct (list_field D container def) as [e|v] eqn:Ev; [discriminate|].
    destruct (list_item D container rest) as [e|item'] eqn:Ei;
      [discriminate|].
    intros H. inversion H; subst.
    constructor; [split; [reflexivity|exact Ev]|].
    now apply IH.
Qed.

(** Every container yields one record. *)
Lemma list_items_records (D : Doc) (containers : list Elem)
    (itemSchema : Schema) (items : list JsValue) :
  list_items D containers itemSchema = inr items ->
  exists records,
    items = List.map VObj records /\
    Forall2 (fun container item =>
               list_item D container itemSchema = inr item)
            containers records.
Proof.
  revert items. induction containers as [|container rest IH]; intros items.
  - intros H. inversion H. exists []. split; [reflexivity|constructor].
  - cbn [list_items].
    destruct (list_item D container itemSchema) as [e|item] eqn:Ei;
      [discriminate|].
    destruct (list_items D rest itemSchema) as [e|items'] eqn:Es;
      [discriminate|].
    intros H. inversion H; subst.
    destruct (IH items' eq_refl) as (records & -> & Hr).
    exists (item :: records). split; [reflexivity|].
    now constructor.
Qed.

End ExtractionProperties.



(** ** Frames of [fetch] *)

Section Stepwise.

Variable R : World -> World -> Prop.
Hypothesis R_refl : forall w, R w w.
Hypothesis R_trans : forall a b c, R a b -> R b c -> R a c.

Lemma stepwise_ret (A : Type) (a : A) : stepwise R (ret a).
Proof. intros w. apply R_refl. Qed.

Lemma stepwise_throw (A : Type) (e : Exn) : stepwise R (@throw A e).
Proof. intros w. apply R_refl. Qed.

Lemma stepwise_diverge (A : Type) : stepwise R (@diverge A).
Proof. intros w. apply R_refl. Qed.

Lemma stepwise_gets (A : Type) (f : World -> A) : stepwise R (gets f).
Proof. intros w. apply R_refl. Qed.

Lemma stepwise_check (r : option Exn) : stepwise R (check r).
Proof. destruct r; intros w; apply R_refl. Qed.

Lemma stepwise_call (A : Type) (r : Exn + A) : stepwise R (call r).
Proof. destruct r; intros w; apply R_refl. Qed.

Lemma stepwise_modify (f : World -> World) :
  (forall w, R w (f w)) -> stepwise R (modify f).
Proof. intros H w. apply H. Qed.

Lemma stepwise_bind (A B : Type) (c : M A) (k : A -> M B) :
  stepwise R c -> (forall a, stepwise R (k a)) -> stepwise R (bind c k).
Proof.
  intros Hc Hk w. unfold bind. specialize (Hc w).
  destruct (c w) as [[a| |] w']; simpl in *; auto.
  eapply R_trans; [exact Hc|apply Hk].
Qed.

Lemma stepwise_try_catch (A : Type) (c : M A) (h : Exn -> M A) :
  stepwise R c -> (forall e, stepwise R (h e)) -> stepwise R (try_catch c h).
Proof.
  intros Hc Hh w. unfold try_catch. specialize (Hc w).
  destruct (c w) as [[a| |] w']; simpl in *; auto.
  eapply R_trans; [exact Hc|apply Hh].
Qed.

Lemma stepwise_when (b : bool) (c : M unit) :
  stepwise R c -> stepwise R (when b c).
Proof. destruct b; [auto|]. intros _. apply stepwise_ret. Qed.

Variable env : Env.
Variable opts : Opts.

Hypothesis R_record : forall e w, R w (record e w).
Hypothesis R_tick : forall w, R w (tick w).

Lemma stepwise_emit (ev : Event) : stepwise R (emit env ev).
Proof.
  unfold emit. apply stepwise_bind; [now apply stepwise_modify|].
  intros _. destruct (listeners env (event_name ev));
    [destruct ev|]; auto using stepwise_ret, stepwise_throw, stepwise_check.
Qed.

Lemma stepwise_sleep (ms : Q) : stepwise R (_sleep ms).
Proof. now apply stepwise_modify. Qed.

Lemma stepwise_date_now : stepwise R (date_now env).
Proof. intros w. apply R_tick. Qed.

Lemma stepwise_attempt_failed (url : string) (attempt : nat) (err : Exn) :
  stepwise R (attempt_failed env opts url attempt err).
Proof.
  unfold attempt_failed. apply stepwise_bind; [apply stepwise_emit|].
  intros _. apply stepwise_when, stepwise_sleep.
Qed.

Hypothesis R_get :
  forall policy now key w,
    cache opts = Some policy ->
    R w (set_cache (snd (_cacheGet policy now key (_cache w))) w).

Lemma stepwise_cache_lookup (policy : CachePolicy) (key : string) :
  cache opts = Some policy ->
  stepwise R (cache_lookup env policy key).
Proof.
  intros Hp w. unfold cache_lookup, bind, gets, date_now, modify, ret.
  destruct (map_get key (_cache w)); simpl; [|apply R_refl].
  eapply R_trans; [apply R_tick|].
  apply (R_get policy (clock env (ticks w)) key (tick w) Hp).
Qed.

Hypothesis R_put :
  forall policy now key body w,
    cache opts = Some policy ->
    R w (set_cache (_cachePut policy now key body (_cache w)) w).

Lemma stepwise_cache_store (policy : CachePolicy) (key body : string) :
  cache opts = Some policy ->
  stepwise R (cache_store env policy key body).
Proof.
  intros Hp w. unfold cache_store, bind, gets, date_now, modify. simpl.
  eapply R_trans; [apply R_tick|].
  apply (R_put policy (clock env (ticks w)) key body (tick w) Hp).
Qed.

Hypothesis R_call : forall w, R w (count_call w).

Lemma stepwise_http_get (url : string) : stepwise R (http_get env url).
Proof.
  intros w. unfold http_get.
  assert (H : R w (record (HttpGet url) (count_call w)))
    by (eapply R_trans; [apply R_call|apply R_record]).
  now destruct (transport env (calls w) url).
Qed.

Lemma stepwise_attempt_body (url : string) :
  stepwise R (attempt_body env opts url).
Proof.
  unfold attempt_body.
  apply stepwise_bind; [apply stepwise_emit|]. intros _.
  apply stepwise_bind; [apply stepwise_http_get|]. intros res.
  apply stepwise_bind; [apply stepwise_emit|]. intros _.
  apply stepwise_bind; [|intros _; apply stepwise_ret].
  case_eq (cache opts); [intros policy E|intros E];
    [now apply stepwise_cache_store|apply stepwise_ret].
Qed.

Lemma stepwise_fetch_loop (url : string) :
  forall (fuel attempt : nat) (lastErr : option Exn),
    stepwise R (fetch_loop env opts fuel attempt url lastErr).
Proof.
  assert (Hexit : forall lastErr : option Exn,
             @stepwise R string
               match lastErr with
               | Some cause =>
                   emit env (EvError (FetchError url (maxRetries opts) cause));;
                   throw (FetchError url (maxRetries opts) cause)
               | None => throw (TypeError "Cannot read properties of undefined")
               end).
  { intros [cause|]; [|apply stepwise_throw].
    apply stepwise_bind; [apply stepwise_emit|].
    intros _. apply stepwise_throw. }
  induction fuel as [|fuel IH]; intros attempt lastErr;
    cbn [fetch_loop];
    destruct (attempt <=? maxRetries opts)%nat;
    try apply Hexit.
  - apply stepwise_diverge.
  - apply stepwise_bind.
    + apply stepwise_try_catch.
      * apply stepwise_bind; [apply stepwise_attempt_body|].
        intros body. apply stepwise_ret.
      * intros e. apply stepwise_bind; [apply stepwise_attempt_failed|].
        intros _. apply stepwise_ret.
    + intros [body|err]; [apply stepwise_ret|apply IH].
Qed.

Hypothesis R_last : forall t w, R w (set_lastRequestAt t w).

Lemma stepwise_rateGate : stepwise R (_rateGate env opts).
Proof.
  unfold _rateGate.
  destruct (rateLimit opts) as [r|]; [|apply stepwise_ret].
  destruct (Qeq_bool r 0); [apply stepwise_ret|].
  apply stepwise_bind; [apply stepwise_date_now|]. intros now.
  apply stepwise_bind; [apply stepwise_gets|]. intros last.
  apply stepwise_bind; [apply stepwise_when, stepwise_sleep|]. intros _.
  apply stepwise_bind; [apply stepwise_date_now|]. intros now'.
  now apply stepwise_modify.
Qed.

(** [fetch] after the rotation of the user agent. *)
Lemma stepwise_fetch_rest (url : string) :
  stepwise R
    (cached <- match cache opts with
               | Some policy => cache_lookup env policy url
               | None => ret None
               end;;
     match cached with
     | Some body => emit env (EvCacheHit url);; ret body
     | None => fetch_loop env opts (maxRetries opts) 1 url None
     end).
Proof.
  apply stepwise_bind.
  - case_eq (cache opts); [intros policy E|intros E];
      [now apply stepwise_cache_lookup|apply stepwise_ret].
  - intros [body|]; [|apply stepwise_fetch_loop].
    apply stepwise_bind; [apply stepwise_emit|].
    intros _. apply stepwise_ret.
Qed.

Hypothesis R_ua : forall i ua w, R w (set_ua i ua w).

Lemma stepwise_nextUA : stepwise R _nextUA.
Proof.
  unfold _nextUA. apply stepwise_bind; [apply stepwise_gets|].
  intros i. now apply stepwise_modify.
Qed.

Lemma stepwise_fetch (url : JsValue) : stepwise R (fetch env opts url).
Proof.
  unfold fetch. apply stepwise_bind; [apply stepwise_check|]. intros _.
  destruct url; try apply stepwise_throw.
  unfold fetch_checked.
  apply stepwise_bind; [apply stepwise_rateGate|]. intros _.
  apply stepwise_bind; [apply stepwise_when, stepwise_nextUA|]. intros _.
  apply stepwise_fetch_rest.
Qed.

End Stepwise.

Section StepwisePages.

Context {DV : DocumentView}.
Variable R : World -> World -> Prop.
Hypothesis R_refl : forall w, R w w.
Hypothesis R_trans : forall a b c, R a b -> R b c -> R a c.
Variable env : Env.
Variable opts : Opts.
Hypothesis R_fetch : forall url, stepwise R (fetch env opts url).

Lemma stepwise_load (url : JsValue) : stepwise R (load env opts url).
Proof.
  unfold load. apply stepwise_bind; [exact R_trans|apply R_fetch|].
  intros body. now apply stepwise_ret.
Qed.

Lemma stepwise_paginate_loop (popts : PaginateOpts) :
  forall (fuel page : nat) (currentUrl : JsValue) (collected : list JsValue),
    stepwise R (paginate_loop env opts popts fuel page currentUrl collected).
Proof.
  induction fuel as [|fuel IH]; intros page currentUrl collected;
    cbn [paginate_loop];
    destruct ((page <=? effective_maxPages popts)%nat && js_truthy currentUrl);
    try (now apply stepwise_ret).
  - now apply stepwise_diverge.
  - apply stepwise_bind; [exact R_trans| |].
    + apply stepwise_try_catch; [exact R_trans| |].
      * apply stepwise_bind; [exact R_trans|apply stepwise_load|].
        intros D. now apply stepwise_ret.
      * intros e. destruct (pg_ignoreErrors popts);
          [now apply stepwise_ret|now apply stepwise_throw].
    + intros [D|]; [|now apply stepwise_ret].
      apply stepwise_bind; [exact R_trans| |].
      * destruct (dataExtractor popts); [|now apply stepwise_ret].
        apply stepwise_bind; [exact R_trans|now apply stepwise_call|].
        intros data. now apply stepwise_ret.
      * intros collected'. apply stepwise_bind; [exact R_trans| |].
        -- destruct (stopWhen popts);
             [now apply stepwise_call|now apply stepwise_ret].
        -- intros [|]; [now apply stepwise_ret|apply IH].
Qed.

Lemma stepwise_paginate (popts : PaginateOpts) (startUrl : JsValue) :
  stepwise R (paginate env opts popts startUrl).
Proof.
  unfold paginate.
  apply stepwise_bind; [exact R_trans|now apply stepwise_check|].
  intros _. apply stepwise_paginate_loop.
Qed.

End StepwisePages.

(** ** The cache across whole methods *)

Lemma cache_kept_refl (policy : CachePolicy) (w : World) :
  cache_kept policy w w.
Proof. split; auto. Qed.

Lemma cache_kept_trans (policy : CachePolicy) (a b c : World) :
  cache_kept policy a b -> cache_kept policy b c -> cache_kept policy a c.
Proof. intros [H1 H2] [H3 H4]. split; auto. Qed.

Lemma cache_kept_fetch (env : Env) (opts : Opts) (policy : CachePolicy)
    (url : JsValue) :
  cache opts = Some policy ->
  (1 <= maxSize policy)%Z ->
  stepwise (cache_kept policy) (fetch env opts url).
Proof.
  intros Hp Hmax.
  apply stepwise_fetch;
    try (intros; split; intros H; exact H);
    auto using cache_kept_refl.
  - apply cache_kept_trans.
  - intros policy' now key w Hp'. rewrite Hp in Hp'. inversion Hp'; subst.
    split; cbn [set_cache _cache].
    + apply cacheGet_wf.
    + intros H. pose proof (cacheGet_size policy' now key (_cache w)). lia.
  - intros policy' now key body w Hp'. rewrite Hp in Hp'.
    inversion Hp'; subst.
    split; cbn [set_cache _cache].
    + apply cachePut_wf.
    + now apply cachePut_size.
Qed.

(** X2.  On an instance whose cache policy has [maxSize >= 1], every call
    of [fetch] and every run of [paginate], whatever the URL, the transport,
    the clock and the observers do, leaves the store with pairwise distinct
    keys and with [cacheSize <= maxSize] if it found it so. *)
Theorem cache_bounded_across_methods :
  forall (DV : DocumentView) (env : Env) (opts : Opts)
         (policy : CachePolicy) (popts : PaginateOpts) (url : JsValue)
         (w : World),
    cache opts = Some policy ->
    (1 <= maxSize policy)%Z ->
    store_wf (_cache w) ->
    (cacheSize w <= maxSize policy)%Z ->
    (store_wf (_cache (snd (fetch env opts url w))) /\
     (cacheSize (snd (fetch env opts url w)) <= maxSize policy)%Z) /\
    (store_wf (_cache (snd (paginate env opts popts url w))) /\
     (cacheSize (snd (paginate env opts popts url w)) <= maxSize policy)%Z).
Proof.
  intros DV env opts policy popts url w Hp Hmax Hwf Hsize.
  split.
  - destruct (cache_kept_fetch env opts policy url Hp Hmax w) as [H1 H2].
    split; [now apply H1|now apply H2].
  - assert (H : stepwise (cache_kept policy) (paginate env opts popts url)).
    { apply stepwise_paginate.
      - apply cache_kept_refl.
      - apply cache_kept_trans.
      - intros u. now apply cache_kept_fetch. }
    destruct (H w) as [H1 H2]. split; [now apply H1|now apply H2].
Qed.

Lemma cache_bounded_across_methods_witness :
  (cacheSize (snd (fetch Examples.healthy_env
                     (mkOpts 3 1000 None false (Some (mkPolicy 5000 1)))
                     (VStr "/y")
                     (set_cache [("/x", mkEntry "old" 0)] initial_world)))
   <= 1)%Z.
Proof.
  apply (cache_bounded_across_methods Toy.view Examples.healthy_env
           (mkOpts 3 1000 None false (Some (mkPolicy 5000 1)))
           (mkPolicy 5000 1) PaginationExamples.chain_opts (VStr "/y")
           (set_cache [("/x", mkEntry "old" 0)] initial_world)).
  - reflexivity.
  - simpl. lia.
  - repeat constructor. intros [].
  - vm_compute. discriminate.
Defined.

(** ** Transport calls *)

Lemma calls_within_weaken (n m : nat) (A : Type) (c : M A) :
  (n <= m)%nat -> stepwise (calls_within n) c -> stepwise (calls_within m) c.
Proof. intros Hnm H w. specialize (H w). unfold calls_within in *. lia. Qed.

Lemma calls_within_bind (a b : nat) (A B : Type) (c : M A) (k : A -> M B) :
  stepwise (calls_within a) c ->
  (forall x, stepwise (calls_within b) (k x)) ->
  stepwise (calls_within (a + b)) (bind c k).
Proof.
  intros Hc Hk w. unfold bind. specialize (Hc w).
  destruct (c w) as [[x| |] w']; simpl in *;
    try (unfold calls_within in *; lia).
  specialize (Hk x w'). unfold calls_within in *. lia.
Qed.

Lemma calls_within_try_catch (a b : nat) (A : Type) (c : M A)
    (h : Exn -> M A) :
  stepwise (calls_within a) c ->
  (forall e, stepwise (calls_within b) (h e)) ->
  stepwise (calls_within (a + b)) (try_catch c h).
Proof.
  intros Hc Hh w. unfold try_catch. specialize (Hc w).
  destruct (c w) as [[x| |] w']; simpl in *;
    try (unfold calls_within in *; lia).
  specialize (Hh e w'). unfold calls_within in *. lia.
Qed.

Lemma calls_within_refl (w : World) : calls_within 0 w w.
Proof. unfold calls_within. lia. Qed.

Lemma calls_within_trans (a b c : World) :
  calls_within 0 a b -> calls_within 0 b c -> calls_within 0 a c.
Proof. unfold calls_within. lia. Qed.

Lemma calls_same (w w' : World) : calls w' = calls w -> calls_within 0 w w'.
Proof. unfold calls_within. lia. Qed.

(** Discharges the side conditions of the frame lemmas for updates that
    leave [calls] alone. *)
Ltac no_call :=
  first [ exact calls_within_refl
        | exact calls_within_trans
        | intros; apply calls_same; reflexivity ].

Section CallBounds.

Context {DV : DocumentView}.
Variable env : Env.
Variable opts : Opts.

Lemma emit_no_call (ev : Event) : stepwise (calls_within 0) (emit env ev).
Proof. apply stepwise_emit; no_call. Qed.

Lemma attempt_body_one_call (url : string) :
  stepwise (calls_within 1) (attempt_body env opts url).
Proof.
  unfold attempt_body.
  apply (calls_within_bind 0 1); [apply emit_no_call|]. intros _.
  apply (calls_within_bind 1 0).
  - intros w. unfold http_get, calls_within.
    destruct (transport env (calls w) url); simpl; lia.
  - intros res.
    apply (calls_within_bind 0 0); [apply emit_no_call|]. intros _.
    apply (calls_within_bind 0 0); [|intros _ w; apply calls_within_refl].
    destruct (cache opts) as [policy|];
      [|intros w; apply calls_within_refl].
    intros w. apply calls_same. reflexivity.
Qed.

Lemma attempt_failed_no_call (url : string) (attempt : nat) (err : Exn) :
  stepwise (calls_within 0) (attempt_failed env opts url attempt err).
Proof.
  apply stepwise_attempt_failed; no_call.
Qed.

(** From pass [attempt] on, the loop calls the transport at most once per
    pass that is left. *)
Lemma fetch_loop_calls (url : string) :
  forall (fuel attempt : nat) (lastErr : option Exn),
    stepwise (calls_within (S (maxRetries opts) - attempt))
             (fetch_loop env opts fuel attempt url lastErr).
Proof.
  induction fuel as [|fuel IH]; intros attempt lastErr;
    cbn [fetch_loop];
    destruct (attempt <=? maxRetries opts)%nat eqn:E.
  - intros w. unfold calls_within. simpl. lia.
  - apply (calls_within_weaken 0); [lia|].
    destruct lastErr; [|intros w; apply calls_within_refl].
    apply (calls_within_bind 0 0); [apply emit_no_call|].
    intros _ w. apply calls_within_refl.
  - apply Nat.leb_le in E.
    replace (S (maxRetries opts) - attempt)%nat
      with (1 + 0 + (S (maxRetries opts) - S attempt))%nat by lia.
    apply calls_within_bind.
    + apply calls_within_try_catch.
      * replace 1%nat with (1 + 0)%nat by lia.
        apply calls_within_bind; [apply attempt_body_one_call|].
        intros body w. apply calls_within_refl.
      * intros e. replace 0%nat with (0 + 0)%nat by lia.
        apply calls_within_bind; [apply attempt_failed_no_call|].
        intros _ w. apply calls_within_refl.
    + intros [body|err]; [|apply IH].
      intros w. unfold calls_within. simpl. lia.
  - apply (calls_within_weaken 0); [lia|].
    destruct lastErr; [|intros w; apply calls_within_refl].
    apply (calls_within_bind 0 0); [apply emit_no_call|].
    intros _ w. apply calls_within_refl.
Qed.

Lemma fetch_calls (url : JsValue) :
  stepwise (calls_within (maxRetries opts)) (fetch env opts url).
Proof.
  unfold fetch.
  apply (calls_within_bind 0 (maxRetries opts));
    [apply stepwise_check, calls_within_refl|]. intros _.
  destruct url; try (intros w; unfold calls_within; simpl; lia).
  unfold fetch_checked.
  apply (calls_within_bind 0 (maxRetries opts)).
  { apply stepwise_rateGate; no_call. }
  intros _.
  apply (calls_within_bind 0 (maxRetries opts)).
  { apply stepwise_when; [apply calls_within_refl|].
    apply stepwise_nextUA; no_call. }
  intros _.
  apply (calls_within_bind 0 (maxRetries opts)).
  { case_eq (cache opts); [intros policy E|intros E];
      [|intros w; apply calls_within_refl].
    apply (stepwise_cache_lookup _ calls_within_refl calls_within_trans
             env opts); auto; no_call. }
  intros [body|].
  - apply (calls_within_weaken 0); [lia|].
    apply (calls_within_bind 0 0); [apply emit_no_call|].
    intros _ w. apply calls_within_refl.
  - apply (calls_within_weaken (S (maxRetries opts) - 1)); [lia|].
    apply fetch_loop_calls.
Qed.

Lemma load_calls (url : JsValue) :
  stepwise (calls_within (maxRetries opts)) (load env opts url).
Proof.
  unfold load. apply (calls_within_weaken (maxRetries opts + 0)); [lia|].
  apply calls_within_bind; [apply fetch_calls|].
  intros body w. apply calls_within_refl.
Qed.

Lemma paginate_loop_calls (popts : PaginateOpts) :
  forall (fuel page : nat) (currentUrl : JsValue) (collected : list JsValue),
    stepwise
      (calls_within ((S (effective_maxPages popts) - page) * maxRetries opts))
      (paginate_loop env opts popts fuel page currentUrl collected).
Proof.
  assert (Hstay : forall (n : nat) (A : Type) (a : A),
             stepwise (calls_within n) (ret a)).
  { intros n A a. apply (calls_within_weaken 0); [apply Nat.le_0_l|].
    intros w. apply calls_within_refl. }
  induction fuel as [|fuel IH]; intros page currentUrl collected;
    cbn [paginate_loop];
    destruct ((page <=? effective_maxPages popts)%nat && js_truthy currentUrl)
      eqn:E;
    try apply Hstay.
  - apply (calls_within_weaken 0); [apply Nat.le_0_l|].
    intros w. apply calls_within_refl.
  - apply andb_prop in E. destruct E as [E _]. apply Nat.leb_le in E.
    apply (calls_within_weaken
             (maxRetries opts + 0 +
              (0 + (0 + (S (effective_maxPages popts) - S page)
                        * maxRetries opts)))); [nia|].
    apply calls_within_bind.
    + apply calls_within_try_catch.
      * apply (calls_within_weaken (maxRetries opts + 0)); [lia|].
        apply calls_within_bind; [apply load_calls|].
        intros D. apply Hstay.
      * intros e. destruct (pg_ignoreErrors popts); [apply Hstay|].
        intros w. apply calls_within_refl.
    + intros [D|]; [|apply Hstay].
      apply calls_within_bind.
      * destruct (dataExtractor popts); [|apply Hstay].
        apply (calls_within_bind 0 0);
          [apply stepwise_call, calls_within_refl|].
        intros data. apply Hstay.
      * intros collected'. apply calls_within_bind.
        -- destruct (stopWhen popts);
             [apply stepwise_call, calls_within_refl|apply Hstay].
        -- intros [|]; [apply Hstay|apply IH].
Qed.

End CallBounds.

(** X1.  One call of [fetch] calls the transport at most [maxRetries] times
    and one run of [paginate] at most [maxPages * maxRetries] times (with
    [maxPages] after its default), whatever the transport, the clock and
    the observers do. *)
Theorem transport_calls_bounded :
  forall (DV : DocumentView) (env : Env) (opts : Opts)
         (popts : PaginateOpts) (url : JsValue) (w : World),
    (calls w <= calls (snd (fetch env opts url w))
     <= calls w + maxRetries opts)%nat /\
    (calls w <= calls (snd (paginate env opts popts url w))
     <= calls w + effective_maxPages popts * maxRetries opts)%nat.
Proof.
  intros DV env opts popts url w. split.
  - apply (fetch_calls env opts url w).
  - unfold paginate.
    assert (H : stepwise
                  (calls_within
                     (0 + (S (effective_maxPages popts) - 1) * maxRetries opts))
                  (check (_assert url ExpString "startUrl");;
                   paginate_loop env opts popts (effective_maxPages popts) 1
                                 url [])).
    { apply calls_within_bind;
        [apply stepwise_check, calls_within_refl|].
      intros _. apply paginate_loop_calls. }
    specialize (H w). unfold calls_within in H.
    replace (S (effective_maxPages popts) - 1)%nat
      with (effective_maxPages popts) in H by lia.
    exact H.
Qed.

(** ** The user agent, the cache and the rate gate inside [fetch] *)

Section FetchFrames.

Variable env : Env.
Variable opts : Opts.

(** [fetch] on a string goes through the gate and the rotation, then
    checks the cache. *)
Lemma fetch_from_entered (url : string) (w : World) :
  fetch env opts (VStr url) w =
  (cached <- match cache opts with
             | Some policy => cache_lookup env policy url
             | None => ret None
             end;;
   match cached with
   | Some body => emit env (EvCacheHit url);; ret body
   | None => fetch_loop env opts (maxRetries opts) 1 url None
   end) (entered env opts w).
Proof.
  unfold fetch. cbn [_assert js_typeof]. simpl check.
  unfold bind at 1. unfold ret at 1. unfold fetch_checked.
  destruct (entered_spec env opts w) as (Hrun & _).
  rewrite <- bind_assoc. unfold bind at 1. now rewrite Hrun.
Qed.

Lemma entered_ua (w : World) :
  _uaIndex (entered env opts w) =
    (if rotateUserAgent opts
     then (S (_uaIndex w)) mod (List.length UA_POOL)
     else _uaIndex w) /\
  userAgent (entered env opts w) =
    (if rotateUserAgent opts
     then nth ((S (_uaIndex w)) mod (List.length UA_POOL)) UA_POOL
              EmptyString
     else userAgent w).
Proof.
  unfold entered, _rateGate, _nextUA, when, bind, date_now, gets, modify,
    _sleep, ret.
  destruct (rateLimit opts) as [r|]; [destruct (Qeq_bool r 0)|];
    [| destruct (Qltb _ _) |];
    destruct (rotateUserAgent opts); split; reflexivity.
Qed.

Lemma same_ua_refl (w : World) : same_ua w w.
Proof. split; reflexivity. Qed.

Lemma same_ua_trans (a b c : World) :
  same_ua a b -> same_ua b c -> same_ua a c.
Proof. intros [H1 H2] [H3 H4]. split; congruence. Qed.

Lemma same_cache_refl (w : World) : same_cache w w.
Proof. reflexivity. Qed.

Lemma same_cache_trans (a b c : World) :
  same_cache a b -> same_cache b c -> same_cache a c.
Proof. unfold same_cache. congruence. Qed.

(** The try block leaves the cache alone unless it returns. *)
Lemma attempt_body_writes_on_return (url : string) (w : World) :
  match fst (attempt_body env opts url w) with
  | Return _ => True
  | _ => _cache (snd (attempt_body env opts url w)) = _cache w
  end.
Proof.
  unfold attempt_body, bind.
  pose proof (stepwise_emit same_cache same_cache_refl same_cache_trans env
                ltac:(intros; reflexivity) (EvRequest url) w) as H1.
  destruct (emit env (EvRequest url) w) as [[[]|e|] w1]; simpl in *;
    try exact H1.
  pose proof (stepwise_http_get same_cache same_cache_trans env
                ltac:(intros; reflexivity) ltac:(intros; reflexivity)
                url w1) as H2.
  destruct (http_get env url w1) as [[res|e|] w2]; simpl in *;
    try (unfold same_cache in *; congruence).
  pose proof (stepwise_emit same_cache same_cache_refl same_cache_trans env
                ltac:(intros; reflexivity)
                (EvResponse url (fst res)) w2) as H3.
  destruct (emit env (EvResponse url (fst res)) w2) as [[[]|e|] w3];
    simpl in *; try (unfold same_cache in *; congruence).
  destruct (cache opts) as [policy|]; exact I.
Qed.

(** The loop writes to the cache only in a pass that returns. *)
Lemma fetch_loop_writes_on_return (url : string) :
  forall (fuel attempt : nat) (lastErr : option Exn) (w : World),
    match fst (fetch_loop env opts fuel attempt url lastErr w) with
    | Return _ => True
    | _ => _cache (snd (fetch_loop env opts fuel attempt url lastErr w)) =
           _cache w
    end.
Proof.
  assert (Hexit : forall (lastErr : option Exn) (w : World),
             _cache (snd (match lastErr with
                          | Some cause =>
                              emit env (EvError (FetchError url
                                                   (maxRetries opts) cause));;
                              @throw string
                                (FetchError url (maxRetries opts) cause)
                          | None =>
                              throw (TypeError
                                       "Cannot read properties of undefined")
                          end w)) = _cache w /\
             forall body,
               fst (match lastErr with
                    | Some cause =>
                        emit env (EvError (FetchError url
                                             (maxRetries opts) cause));;
                        @throw string
                          (FetchError url (maxRetries opts) cause)
                    | None =>
                        throw (TypeError
                                 "Cannot read properties of undefined")
                    end w) <> Return body).
  { intros [cause|] w; [|split; [reflexivity|discriminate]].
    unfold bind.
    pose proof (stepwise_emit same_cache same_cache_refl same_cache_trans
                  env ltac:(intros; reflexivity)
                  (EvError (FetchError url (maxRetries opts) cause)) w) as H.
    destruct (emit env _ w) as [[[]|e|] w1]; simpl in *;
      (split; [exact H|discriminate]). }
  induction fuel as [|fuel IH]; intros attempt lastErr w;
    cbn [fetch_loop];
    destruct (attempt <=? maxRetries opts)%nat.
  - reflexivity.
  - destruct (Hexit lastErr w) as [Hc Hr].
    destruct (fst _) eqn:E; auto.
  - unfold bind, try_catch.
    pose proof (attempt_body_writes_on_return url w) as Hb.
    destruct (attempt_body env opts url w) as [[body|err|] w1]; simpl in *;
      try exact I; try exact Hb.
    pose proof (stepwise_attempt_failed same_cache same_cache_refl
                  same_cache_trans env opts ltac:(intros; reflexivity)
                  url attempt err w1) as Hf.
    destruct (attempt_failed env opts url attempt err w1)
      as [[[]|e|] w2]; simpl in *;
      try (unfold same_cache in *; congruence).
    specialize (IH (S attempt) (Some err) w2).
    destruct (fst _); auto; unfold same_cache in *; congruence.
  - destruct (Hexit lastErr w) as [Hc Hr].
    destruct (fst _) eqn:E; auto.
Qed.

End FetchFrames.

(** X6.  Every call of [fetch] on a string, whatever its outcome (cache
    hit, body, or error), moves the rotation exactly once when
    [rotateUserAgent] is set: [_uaIndex] becomes [(_uaIndex + 1) mod 5] and
    the common [User-Agent] header the pool entry at that index; without
    [rotateUserAgent] neither changes. *)
Theorem fetch_rotates_once :
  forall (env : Env) (opts : Opts) (url : string) (w : World),
    let w' := snd (fetch env opts (VStr url) w) in
    _uaIndex w' =
      (if rotateUserAgent opts then (S (_uaIndex w)) mod 5 else _uaIndex w) /\
    userAgent w' =
      (if rotateUserAgent opts then nth (_uaIndex w') UA_POOL EmptyString
       else userAgent w) /\
    (rotateUserAgent opts = true -> (_uaIndex w' < 5)%nat).
Proof.
  intros env opts url w w'. subst w'. rewrite fetch_from_entered.
  destruct (stepwise_fetch_rest same_ua same_ua_refl same_ua_trans env opts
              ltac:(intros; split; reflexivity)
              ltac:(intros; split; reflexivity)
              ltac:(intros; split; reflexivity)
              ltac:(intros; split; reflexivity)
              ltac:(intros; split; reflexivity)
              url (entered env opts w)) as [Hi Hu].
  destruct (entered_ua env opts w) as [Ei Eu].
  rewrite Hi, Hu, Ei, Eu.
  change (List.length UA_POOL) with 5%nat.
  destruct (rotateUserAgent opts); repeat split; try discriminate.
  intros _. apply Nat.mod_upper_bound. discriminate.
Qed.

Lemma fetch_rotates_once_witness :
  (_uaIndex (snd (fetch Examples.down_env
                        (mkOpts 3 1000 None true None) (VStr "/x")
                        (set_ua 4 EmptyString initial_world))) < 5)%nat.
Proof.
  apply (fetch_rotates_once Examples.down_env (mkOpts 3 1000 None true None)
           "/x" (set_ua 4 EmptyString initial_world)).
  reflexivity.
Defined.

(** The run of [fetch] on a fresh cache entry. *)
Lemma fetch_hit_run (env : Env) (opts : Opts) (policy : CachePolicy)
    (url : string) (entry : CacheEntry) (w : World) :
  quiet env ->
  cache opts = Some policy ->
  map_get url (_cache w) = Some entry ->
  (clock env (ticks (entered env opts w)) - ts entry <= ttl policy)%Z ->
  fetch env opts (VStr url) w =
  (Return (data entry),
   record (Emit (EvCacheHit url))
          (set_cache (_cache w) (tick (entered env opts w)))).
Proof.
  intros Hq Hp He Hfresh.
  rewrite fetch_from_entered, Hp.
  destruct (entered_spec env opts w) as (_ & _ & Hcache & _).
  unfold bind at 1. unfold cache_lookup, bind, gets, date_now, modify, ret.
  rewrite Hcache, He. unfold _cacheGet. rewrite He.
  assert (T : (clock env (ticks (entered env opts w)) - ts entry
               >? ttl policy)%Z = false)
    by (rewrite Z.gtb_ltb; apply Z.ltb_ge; lia).
  rewrite T. cbn [fst snd].
  now rewrite emit_quiet by (auto; discriminate).
Qed.

(** X3.  A cache hit ends [fetch] at once: when the store holds an entry for
    the URL whose age at the read is within [ttl] (observers that return),
    [fetch] returns the entry's body, calls the transport not at all,
    emits the single observation ['cacheHit'] and leaves the store as it
    was. *)
Theorem fetch_cache_hit :
  forall (env : Env) (opts : Opts) (policy : CachePolicy) (url : string)
         (entry : CacheEntry) (w : World),
    quiet env ->
    cache opts = Some policy ->
    map_get url (_cache w) = Some entry ->
    (clock env (ticks (entered env opts w)) - ts entry <= ttl policy)%Z ->
    let run := fetch env opts (VStr url) w in
    fst run = Return (data entry) /\
    calls (snd run) = calls w /\
    _cache (snd run) = _cache w /\
    trace (snd run) = trace (entered env opts w) ++ [Emit (EvCacheHit url)].
Proof.
  intros env opts policy url entry w Hq Hp He Hfresh run. subst run.
  rewrite (fetch_hit_run env opts policy url entry w Hq Hp He Hfresh).
  destruct (entered_spec env opts w) as (_ & Hcalls & _).
  cbn [fst snd record set_cache tick calls _cache trace].
  repeat split; auto.
Qed.

Lemma fetch_cache_hit_witness :
  fst (fetch Examples.down_env (mkOpts 3 1000 None false (Some default_policy))
             (VStr "/x")
             (set_cache [("/x", mkEntry "cached" 0)] initial_world)) =
  Return "cached".
Proof.
  apply (fetch_cache_hit Examples.down_env
           (mkOpts 3 1000 None false (Some default_policy)) default_policy
           "/x" (mkEntry "cached" 0)
           (set_cache [("/x", mkEntry "cached" 0)] initial_world)).
  - intros name l ev [].
  - reflexivity.
  - reflexivity.
  - vm_compute. discriminate.
Defined.

(** X4.  With observers that return and no entry for the URL in the
    cache beforehand: a body that [fetch] returned from the transport is in
    the cache afterwards, whatever [maxSize] is, and the next [fetch] of the
    same URL, made while the age of the entry is within [ttl], returns the
    same body from the cache without a transport call or a ['request']
    observation. *)
Theorem fetch_twice_hits_cache :
  forall (env : Env) (opts : Opts) (policy : CachePolicy) (url : string)
         (w : World) (errs : nat -> Exn) (k : nat) (status : Z)
         (d : ResData),
    quiet env ->
    cache opts = Some policy ->
    map_get url (_cache w) = None ->
    (k < maxRetries opts)%nat ->
    (forall n, (calls w <= n < calls w + k)%nat ->
               transport env n url = HttpFail (errs n)) ->
    transport env (calls w + k) url = HttpOk status d ->
    let first := fetch env opts (VStr url) w in
    let second := fetch env opts (VStr url) (snd first) in
    (clock env (ticks (entered env opts (snd first)))
     - clock env (ticks (entered env opts w)) <= ttl policy)%Z ->
    fst first = Return (body_of d) /\
    map_get url (_cache (snd first)) =
      Some (mkEntry (body_of d) (clock env (ticks (entered env opts w)))) /\
    fst second = Return (body_of d) /\
    calls (snd second) = calls (snd first) /\
    count_emitted "request" (trace (snd second)) =
      count_emitted "request" (trace (snd first)) /\
    count_emitted "cacheHit" (trace (snd second)) =
      S (count_emitted "cacheHit" (trace (snd first))).
Proof.
  intros env opts policy url w errs k status d Hq Hp Hu Hk Hf Hs
         first second Hfresh.
  assert (Hunc : uncached opts url w) by (unfold uncached; now rewrite Hp).
  pose proof (fetch_succeeds_run env opts errs url k status d w
                Hq Hunc Hk Hf Hs) as Hrun.
  assert (Hentry : map_get url (_cache (snd first)) =
                   Some (mkEntry (body_of d)
                                 (clock env (ticks (entered env opts w))))).
  { subst first. rewrite Hrun. cbn [snd]. unfold stored. rewrite Hp.
    cbn [set_cache _cache advance ticks]. unfold _cachePut.
    apply map_get_set_same. }
  pose proof (fetch_hit_run env opts policy url _ (snd first)
                Hq Hp Hentry Hfresh) as Hhit.
  fold second in Hhit.
  destruct (entered_spec env opts (snd first)) as (_ & Hc & _).
  split; [subst first; now rewrite Hrun|].
  split; [exact Hentry|].
  rewrite Hhit. cbn [fst snd record set_cache tick calls trace].
  split; [reflexivity|]. split; [exact Hc|].
  rewrite !count_emitted_app, !entered_count. cbn. lia.
Qed.

Lemma fetch_twice_hits_cache_witness :
  let opts := mkOpts 3 1000 None false (Some (mkPolicy 5000 0)) in
  let first := fetch Examples.flaky_env opts (VStr "/x") initial_world in
  fst (fetch Examples.flaky_env opts (VStr "/x") (snd first)) = Return "ok" /\
  calls (snd (fetch Examples.flaky_env opts (VStr "/x") (snd first))) =
  calls (snd first).
Proof.
  intros opts first.
  destruct (fetch_twice_hits_cache Examples.flaky_env opts (mkPolicy 5000 0)
              "/x" initial_world Examples.econnreset 2%nat 200%Z
              (DataString "ok"))
    as (_ & _ & Hr & Hc & _).
  - intros name l ev [].
  - reflexivity.
  - reflexivity.
  - simpl. lia.
  - intros n Hn. simpl in Hn.
    assert (Hn' : n = 0%nat \/ n = 1%nat) by lia.
    destruct Hn' as [-> | ->]; reflexivity.
  - reflexivity.
  - vm_compute. discriminate.
  - split; [exact Hr|exact Hc].
Defined.

(** X5.  A call of [fetch] that does not return a body never writes to the
    cache, whatever the transport and the observers do: the store is as it
    was, or as it was without the entry of the URL when that entry had
    expired. *)
Theorem failed_fetch_writes_nothing :
  forall (env : Env) (opts : Opts) (url : JsValue) (w : World),
    (forall body, fst (fetch env opts url w) <> Return body) ->
    _cache (snd (fetch env opts url w)) = _cache w \/
    exists s, url = VStr s /\
              _cache (snd (fetch env opts url w)) = map_delete s (_cache w).
Proof.
  intros env opts url w Hfail.
  destruct url as [| | | |s| |]; try (left; reflexivity).
  rewrite fetch_from_entered in *.
  destruct (entered_spec env opts w) as (_ & _ & Hcache & _).
  remember ((cached <- _;; _) (entered env opts w)) as rest eqn:Hrest.
  assert (Hgoal : _cache (snd rest) = _cache w \/
                  _cache (snd rest) = map_delete s (_cache w));
    [|destruct Hgoal as [H|H]; [now left|right; exists s; now split]].
  unfold bind at 1 in Hrest.
  assert (Hlook :
            forall c w1,
              match cache opts with
              | Some policy => cache_lookup env policy s
              | None => ret None
              end (entered env opts w) = (c, w1) ->
              (_cache w1 = _cache w \/ _cache w1 = map_delete s (_cache w)) /\
              (forall body, c = Return (Some body) -> _cache w1 = _cache w) /\
              c <> Diverge /\ (forall e, c <> Throw e)).
  { intros c w1. destruct (cache opts) as [policy|].
    - unfold cache_lookup, bind, gets, date_now, modify, ret.
      rewrite Hcache. unfold _cacheGet.
      destruct (map_get s (_cache w)) as [entry|].
      + destruct (_ >? _)%Z; intros H; inversion H; subst;
          cbn [set_cache _cache tick snd fst];
          (repeat split; try discriminate; auto).
      + intros H. inversion H; subst.
        repeat split; try discriminate; auto.
    - unfold ret. intros H. inversion H; subst.
      repeat split; try discriminate; auto. }
  destruct (match cache opts with
            | Some policy => cache_lookup env policy s
            | None => ret None
            end (entered env opts w)) as [c w1] eqn:E.
  destruct (Hlook c w1 eq_refl) as (Hw1 & Hhit & Hnd & Hnt).
  destruct c as [[body|]|e|]; try (now destruct Hnd); try (now destruct (Hnt e)).
  - (* a hit: the observer returns or throws *)
    left. rewrite <- (Hhit body eq_refl). subst rest.
    unfold bind.
    pose proof (stepwise_emit same_cache same_cache_refl same_cache_trans env
                  ltac:(intros; reflexivity) (EvCacheHit s) w1) as H.
    now destruct (emit env (EvCacheHit s) w1) as [[[]|e|] w2].
  - pose proof (fetch_loop_writes_on_return env opts s (maxRetries opts) 1
                  None w1) as Hloop.
    rewrite <- Hrest in Hloop.
    destruct rest as [[body| |] w2]; cbn [fst snd] in *.
    + now destruct (Hfail body).
    + rewrite Hloop. exact Hw1.
    + rewrite Hloop. exact Hw1.
Qed.

Lemma failed_fetch_writes_nothing_witness :
  _cache (snd (fetch Examples.down_env
                 (mkOpts 2 1000 None false (Some default_policy))
                 (VStr "/x") initial_world)) = [].
Proof.
  destruct (failed_fetch_writes_nothing Examples.down_env
              (mkOpts 2 1000 None false (Some default_policy))
              (VStr "/x") initial_world) as [H|(s & _ & H)].
  - intros body. vm_compute. discriminate.
  - exact H.
  - exact H.
Defined.

(** X7.  The constructor keeps an explicit [maxRetries: 0] (it defaults
    with [??], not [||]); on such an instance [fetch] of a URL without a
    cache entry makes no attempt, emits nothing, and throws the
    [TypeError] raised while the [FetchError] is built, not a
    [FetchError]. *)
Theorem zero_retries_type_error :
  forall (env : Env) (options : Options.t) (url : string) (w : World),
    Options.maxRetries options = Some 0%nat ->
    uncached (constructor options) url w ->
    let run := fetch env (constructor options) (VStr url) w in
    fst run = Throw (TypeError "Cannot read properties of undefined") /\
    calls (snd run) = calls w /\
    (forall name, count_emitted name (trace (snd run)) =
                  count_emitted name (trace w)).
Proof.
  intros env options url w H0 Hu run. subst run.
  rewrite fetch_uncached by exact Hu.
  assert (Hm : maxRetries (constructor options) = 0%nat)
    by (unfold constructor; cbn [maxRetries]; now rewrite H0).
  rewrite Hm. cbn [fetch_loop]. rewrite Hm. cbn [Nat.leb fst snd throw].
  destruct (entered_spec env (constructor options) w) as (_ & Hc & _).
  repeat split; auto.
  intros name. apply entered_count.
Qed.

Lemma zero_retries_type_error_witness :
  fst (fetch Examples.healthy_env
         (constructor (Options.make (Some 0%nat) None None None None))
         (VStr "/x") initial_world) =
  Throw (TypeError "Cannot read properties of undefined").
Proof.
  apply (zero_retries_type_error Examples.healthy_env
           (Options.make (Some 0%nat) None None None None) "/x"
           initial_world eq_refl I).
Defined.

(** X8.  The rate gate: with [rateLimit] [null] or 0 it does nothing at
    all.  With a [rateLimit] that is a positive whole number [k] dividing
    1000, so that [1000 / k] is a whole number [n] of milliseconds and the
    arithmetic of the source is exact, it reads the clock twice, suspends
    once for [n] less the time elapsed since [_lastRequestAt] when that
    time is shorter than [n] and not at all otherwise, and sets
    [_lastRequestAt] to the second reading. *)
Theorem rateGate_fills_interval :
  forall (env : Env) (opts : Opts) (w : World),
    (rateLimit opts = None -> _rateGate env opts w = (Return tt, w)) /\
    (forall r, rateLimit opts = Some r -> (r == 0)%Q ->
               _rateGate env opts w = (Return tt, w)) /\
    (forall (r : Q) (k n : Z),
        rateLimit opts = Some r -> (r == inject_Z k)%Q ->
        (0 < k)%Z -> (1000 = n * k)%Z ->
        let elapsed := (clock env (ticks w) - _lastRequestAt w)%Z in
        let w' := snd (_rateGate env opts w) in
        fst (_rateGate env opts w) = Return tt /\
        ticks w' = S (S (ticks w)) /\
        _lastRequestAt w' = clock env (S (ticks w)) /\
        ((elapsed < n)%Z ->
         exists ms, trace w' = trace w ++ [Sleep ms] /\
                    (ms == inject_Z (n - elapsed))%Q) /\
        ((n <= elapsed)%Z -> trace w' = trace w)).
Proof.
  intros env opts w. unfold _rateGate. split; [|split].
  - now intros ->.
  - intros r -> Hr. apply Qeq_bool_iff in Hr. now rewrite Hr.
  - intros r k n Hrl Hr Hk Hn. rewrite Hrl.
    set (elapsed := (clock env (ticks w) - _lastRequestAt w)%Z).
    assert (Hgap : (1000 / r == inject_Z n)%Q).
    { rewrite Hr. change 1000%Q with (inject_Z 1000). rewrite Hn.
      rewrite inject_Z_mult. apply Qdiv_mult_l.
      intros H0. change 0%Q with (inject_Z 0) in H0.
      apply (proj1 (inject_Z_injective k 0)) in H0. lia. }
    assert (E : Qeq_bool r 0 = false).
    { destruct (Qeq_bool r 0) eqn:E; [|reflexivity].
      apply Qeq_bool_iff in E. rewrite Hr in E.
      change 0%Q with (inject_Z 0) in E.
      apply (proj1 (inject_Z_injective k 0)) in E. lia. }
    rewrite E.
    unfold bind, date_now, gets, when, _sleep, modify, ret, Qltb.
    cbn [fst snd tick _lastRequestAt ticks]. fold elapsed.
    destruct (Qle_bool (1000 / r) (inject_Z elapsed)) eqn:L;
      cbn [negb fst snd].
    + apply Qle_bool_iff in L. rewrite Hgap in L.
      rewrite <- Zle_Qle in L.
      split; [reflexivity|]. split; [reflexivity|]. split; [reflexivity|].
      split; [intros Hlt; lia|reflexivity].
    + assert (Hlt : (elapsed < n)%Z).
      { apply Z.lt_nge. intros Hle. rewrite Zle_Qle in Hle.
        rewrite <- Hgap in Hle. apply Qle_bool_iff in Hle. congruence. }
      split; [reflexivity|]. split; [reflexivity|]. split; [reflexivity|].
      split; [|intros Hle; lia].
      intros _. exists (1000 / r - inject_Z elapsed)%Q.
      split; [reflexivity|].
      rewrite Hgap. unfold Z.sub. rewrite inject_Z_plus, inject_Z_opp.
      reflexivity.
Qed.

Lemma rateGate_fills_interval_witness :
  exists ms,
    trace (snd (_rateGate (Toy.env_of Toy.down Toy.no_listeners)
                  (mkOpts 3 1000 (Some (4 # 1)%Q) false None)
                  (set_lastRequestAt (-100) initial_world))) = [Sleep ms] /\
    (ms == inject_Z 150)%Q.
Proof.
  destruct (rateGate_fills_interval (Toy.env_of Toy.down Toy.no_listeners)
              (mkOpts 3 1000 (Some (4 # 1)%Q) false None)
              (set_lastRequestAt (-100) initial_world)) as (_ & _ & H).
  destruct (H (4 # 1)%Q 4%Z 250%Z eq_refl) as (_ & _ & _ & Hs & _);
    [reflexivity|lia|lia|].
  destruct Hs as (ms & Ht & Hms); [vm_compute; reflexivity|].
  exists ms. split; [exact Ht|exact Hms].
Defined.

(** ** Failures inside [paginate] *)

Section PaginateFailures.

Context {DV : DocumentView}.
Variable env : Env.
Variable opts : Opts.
Variable popts : PaginateOpts.

(** A page whose [load] throws. *)
Lemma paginate_loop_load_fails (fuel page : nat) (currentUrl : JsValue)
    (collected : list JsValue) (w w1 : World) (err : Exn) :
  (page <= effective_maxPages popts)%nat ->
  js_truthy currentUrl = true ->
  load env opts currentUrl w = (Throw err, w1) ->
  paginate_loop env opts popts (S fuel) page currentUrl collected w =
  if pg_ignoreErrors popts then (Return collected, w1) else (Throw err, w1).
Proof.
  intros Hpage Hurl Hload.
  cbn [paginate_loop]. apply Nat.leb_le in Hpage.
  rewrite Hpage, Hurl. cbn [andb].
  unfold bind at 1. unfold try_catch. unfold bind at 1.
  rewrite Hload. now destruct (pg_ignoreErrors popts).
Qed.

(** A page whose extractor throws. *)
Lemma paginate_loop_extractor_fails (fuel page : nat) (currentUrl : JsValue)
    (collected : list JsValue) (w w1 : World) (D : Doc)
    (extract : Doc -> JsValue -> nat -> Exn + JsValue) (err : Exn) :
  (page <= effective_maxPages popts)%nat ->
  js_truthy currentUrl = true ->
  load env opts currentUrl w = (Return D, w1) ->
  dataExtractor popts = Some extract ->
  extract D currentUrl page = inl err ->
  paginate_loop env opts popts (S fuel) page currentUrl collected w =
  (Throw err, w1).
Proof.
  intros Hpage Hurl Hload Hx Herr.
  cbn [paginate_loop]. apply Nat.leb_le in Hpage.
  rewrite Hpage, Hurl. cbn [andb].
  unfold bind at 1. unfold try_catch. unfold bind at 1.
  rewrite Hload. unfold ret at 1. rewrite Hx.
  unfold bind. now rewrite Herr.
Qed.

(** A page whose [stopWhen] throws. *)
Lemma paginate_loop_stopWhen_fails (fuel page : nat) (currentUrl : JsValue)
    (collected collected' : list JsValue) (w w1 : World) (D : Doc)
    (f : Doc -> list JsValue -> nat -> Exn + bool) (err : Exn) :
  (page <= effective_maxPages popts)%nat ->
  js_truthy currentUrl = true ->
  load env opts currentUrl w = (Return D, w1) ->
  extracted popts D currentUrl page collected collected' ->
  stopWhen popts = Some f ->
  f D collected' page = inl err ->
  paginate_loop env opts popts (S fuel) page currentUrl collected w =
  (Throw err, w1).
Proof.
  intros Hpage Hurl Hload Hdata Hs Herr.
  cbn [paginate_loop]. apply Nat.leb_le in Hpage.
  rewrite Hpage, Hurl. cbn [andb].
  unfold bind at 1. unfold try_catch. unfold bind at 1.
  rewrite Hload. unfold ret at 1.
  unfold extracted in Hdata. unfold bind at 1.
  destruct (dataExtractor popts) as [extract|].
  - destruct Hdata as (data & Hd & ->). unfold bind at 1. rewrite Hd.
    cbn [call ret]. rewrite Hs. unfold bind. now rewrite Herr.
  - subst collected'. cbn [ret]. rewrite Hs. unfold bind. now rewrite Herr.
Qed.

End PaginateFailures.

(** X9.  When the load of a page fails inside [paginate], [ignoreErrors]
    decides: with it the run ends normally and returns what the earlier
    pages collected, without it the error of [load] is thrown; in both
    cases no further page is requested.  On a chain whose second page is
    unreachable the tolerant run returns the items of page 1. *)
Theorem paginate_load_failure :
  (forall (DV : DocumentView) (env : Env) (opts : Opts)
          (popts : PaginateOpts) (fuel page : nat) (currentUrl : JsValue)
          (collected : list JsValue) (w w1 : World) (err : Exn),
      (page <= effective_maxPages popts)%nat ->
      js_truthy currentUrl = true ->
      load env opts currentUrl w = (Throw err, w1) ->
      paginate_loop env opts popts (S fuel) page currentUrl collected w =
      (if pg_ignoreErrors popts then Return collected else Throw err, w1)) /\
  fst (@paginate Toy.view FailureExamples.broken_chain_env (Toy.plain_opts 2)
         FailureExamples.tolerant_opts (VStr "/p1") initial_world) =
    Return [VStr "a1"; VStr "a2"] /\
  fst (@paginate Toy.view FailureExamples.broken_chain_env (Toy.plain_opts 2)
         FailureExamples.strict_opts (VStr "/p1") initial_world) =
    Throw (FetchError "/p2" 2 (Thrown "ECONNRESET")).
Proof.
  split; [|split; vm_compute; reflexivity].
  intros DV env opts popts fuel page currentUrl collected w w1 err
         Hpage Hurl Hload.
  rewrite (paginate_loop_load_fails env opts popts fuel page currentUrl
             collected w w1 err Hpage Hurl Hload).
  now destruct (pg_ignoreErrors popts).
Qed.

Lemma paginate_load_failure_witness :
  let w1 := snd (@load Toy.view FailureExamples.broken_chain_env
                   (Toy.plain_opts 2) (VStr "/p2") initial_world) in
  @paginate_loop Toy.view FailureExamples.broken_chain_env (Toy.plain_opts 2)
    FailureExamples.tolerant_opts 5 2 (VStr "/p2") [VStr "a1"] initial_world =
  (Return [VStr "a1"], w1).
Proof.
  intros w1.
  apply (proj1 paginate_load_failure Toy.view
           FailureExamples.broken_chain_env (Toy.plain_opts 2)
           FailureExamples.tolerant_opts 4%nat 2%nat (VStr "/p2")
           [VStr "a1"] initial_world w1
           (FetchError "/p2" 2 (Thrown "ECONNRESET"))).
  - vm_compute. lia.
  - reflexivity.
  - reflexivity.
Defined.

(** X10.  [ignoreErrors] of [paginate] covers the load of a page only: an
    exception of [dataExtractor] or of [stopWhen] ends the run with that
    exception, with or without [ignoreErrors], and the items collected so
    far are not returned. *)
Theorem paginate_callback_errors_propagate :
  (forall (DV : DocumentView) (env : Env) (opts : Opts)
          (popts : PaginateOpts) (fuel page : nat) (currentUrl : JsValue)
          (collected : list JsValue) (w w1 : World) (D : Doc)
          (extract : Doc -> JsValue -> nat -> Exn + JsValue) (err : Exn),
      (page <= effective_maxPages popts)%nat ->
      js_truthy currentUrl = true ->
      load env opts currentUrl w = (Return D, w1) ->
      dataExtractor popts = Some extract ->
      extract D currentUrl page = inl err ->
      paginate_loop env opts popts (S fuel) page currentUrl collected w =
      (Throw err, w1)) /\
  (forall (DV : DocumentView) (env : Env) (opts : Opts)
          (popts : PaginateOpts) (fuel page : nat) (currentUrl : JsValue)
          (collected collected' : list JsValue) (w w1 : World) (D : Doc)
          (f : Doc -> list JsValue -> nat -> Exn + bool) (err : Exn),
      (page <= effective_maxPages popts)%nat ->
      js_truthy currentUrl = true ->
      load env opts currentUrl w = (Return D, w1) ->
      extracted popts D currentUrl page collected collected' ->
      stopWhen popts = Some f ->
      f D collected' page = inl err ->
      paginate_loop env opts popts (S fuel) page currentUrl collected w =
      (Throw err, w1)) /\
  fst (@paginate Toy.view PaginationExamples.chain_env (Toy.plain_opts 2)
         FailureExamples.tolerant_failing_opts (VStr "/p1") initial_world) =
    Throw (Thrown "extractor").
Proof.
  split; [|split].
  - intros DV env opts popts fuel page currentUrl collected w w1 D extractor
           err Hpage Hurl Hload Hx Herr.
    exact (paginate_loop_extractor_fails env opts popts fuel page currentUrl
             collected w w1 D extractor err Hpage Hurl Hload Hx Herr).
  - intros DV env opts popts fuel page currentUrl collected collected' w w1
           D f err Hpage Hurl Hload Hdata Hs Herr.
    exact (paginate_loop_stopWhen_fails env opts popts fuel page currentUrl
             collected collected' w w1 D f err Hpage Hurl Hload Hdata Hs
             Herr).
  - vm_compute. reflexivity.
Qed.

Lemma paginate_callback_errors_propagate_witness :
  let w1 := snd (@load Toy.view PaginationExamples.chain_env
                   (Toy.plain_opts 2) (VStr "/p2") initial_world) in
  @paginate_loop Toy.view PaginationExamples.chain_env (Toy.plain_opts 2)
    FailureExamples.tolerant_failing_opts 5 2 (VStr "/p2") [VStr "a1"]
    initial_world =
  (Throw (Thrown "extractor"), w1).
Proof.
  intros w1.
  apply (proj1 paginate_callback_errors_propagate Toy.view
           PaginationExamples.chain_env (Toy.plain_opts 2)
           FailureExamples.tolerant_failing_opts 4%nat 2%nat (VStr "/p2")
           [VStr "a1"] initial_world w1 Toy.page2
           FailureExamples.failing_extractor (Thrown "extractor")).
  - vm_compute. lia.
  - reflexivity.
  - reflexivity.
  - reflexivity.
  - reflexivity.
Defined.

(** X11.  [paginate] checks the type of [startUrl] only.  A start URL that is
    not a string is rejected with [ValidationError] before anything
    happens; the empty string passes the check, fails the guard of the
    loop, and the run returns the empty list without a single request,
    whatever the options are. *)
Theorem paginate_without_start_url :
  forall (DV : DocumentView) (env : Env) (opts : Opts)
         (popts : PaginateOpts) (w : World),
    paginate env opts popts (VStr EmptyString) w = (Return [], w) /\
    (forall startUrl,
        js_typeof startUrl <> "string" ->
        paginate env opts popts startUrl w =
        (Throw (ValidationError "startUrl" "must be a string"), w)).
Proof.
  intros DV env opts popts w. split.
  - unfold paginate. cbn [_assert js_typeof]. simpl check.
    unfold bind, ret. cbn [fst snd].
    apply paginate_loop_exit. now rewrite andb_false_r.
  - intros startUrl H. unfold paginate.
    destruct startUrl; try reflexivity. now destruct H.
Qed.

Lemma paginate_without_start_url_witness :
  @paginate Toy.view PaginationExamples.chain_env (Toy.plain_opts 3)
            PaginationExamples.chain_opts VNull initial_world =
  (Throw (ValidationError "startUrl" "must be a string"), initial_world).
Proof.
  apply (proj2 (paginate_without_start_url Toy.view
                  PaginationExamples.chain_env (Toy.plain_opts 3)
                  PaginationExamples.chain_opts initial_world) VNull).
  discriminate.
Defined.

(** ** Batches without a rejection *)

Section BatchesFulfilled.

Variable task : nat -> JsValue -> Outcome.
Variable sopts : ScrapeOpts.

(** When every task is fulfilled, the loop from a window start gathers the
    values of all remaining inputs, with or without [ignoreErrors]. *)
Lemma scrape_loop_all_fulfilled (urls vs : list JsValue) :
  settle_batch task 0 urls = List.map Fulfilled vs ->
  forall (fuel i : nat) (results started : list JsValue),
    (List.length urls <= i + fuel)%nat ->
    scrape_loop task sopts fuel i urls results started =
    (Return (results ++ skipn i vs), started ++ skipn i urls).
Proof.
  intros HO. pose proof (effective_concurrency_pos sopts) as Hn.
  assert (Hlen : List.length vs = List.length urls).
  { rewrite <- (settle_batch_length task 0 urls), HO.
    now rewrite length_map. }
  induction fuel as [|fuel IH]; intros i results started Hfuel;
    cbn [scrape_loop];
    destruct (i <? List.length urls)%nat eqn:E.
  - apply Nat.ltb_lt in E. lia.
  - apply Nat.ltb_ge in E. rewrite !skipn_all2 by lia.
    now rewrite !app_nil_r.
  - rewrite settle_window, HO, skipn_map, firstn_map.
    rewrite <- (app_nil_r (List.map Fulfilled _)), gather_fulfilled.
    cbn [gather]. rewrite IH by lia.
    rewrite <- !app_assoc. unfold slice.
    replace (i + effective_concurrency sopts - i)%nat
      with (effective_concurrency sopts) by lia.
    rewrite (Nat.add_comm i), <- !skipn_skipn.
    now rewrite !firstn_skipn.
  - apply Nat.ltb_ge in E. rewrite !skipn_all2 by lia.
    now rewrite !app_nil_r.
Qed.

End BatchesFulfilled.

(** X12.  When no task is rejected, [scrapeMultiple] returns the values of
    all tasks in the order of the inputs and starts every task, for every
    [concurrency] and with or without [ignoreErrors]; on an empty array it
    returns the empty array and starts nothing. *)
Theorem scrapeMultiple_all_fulfilled :
  forall (task : nat -> JsValue -> Outcome) (sopts : ScrapeOpts)
         (urls vs : list JsValue),
    settle_batch task 0 urls = List.map Fulfilled vs ->
    scrapeMultiple task sopts urls = (Return vs, urls) /\
    scrapeMultiple task sopts [] = (Return [], []).
Proof.
  intros task sopts urls vs HO. split; [|reflexivity].
  unfold scrapeMultiple.
  rewrite (scrape_loop_all_fulfilled task sopts urls vs HO) by lia.
  reflexivity.
Qed.

Lemma scrapeMultiple_all_fulfilled_witness :
  scrapeMultiple FailureExamples.all_succeed (mkScrapeOpts (Some 2%nat) false)
                 BatchExamples.urls5 =
  (Return BatchExamples.urls5, BatchExamples.urls5).
Proof.
  apply (scrapeMultiple_all_fulfilled FailureExamples.all_succeed
           (mkScrapeOpts (Some 2%nat) false) BatchExamples.urls5
           BatchExamples.urls5).
  reflexivity.
Defined.

(** ** Reading methods *)

Lemma cheerio_map_strings (A : Type) (f : A -> string) (els : list A) :
  cheerio_map (fun el => inr (VStr (f el))) els =
  inr (List.map (fun el => VStr (f el)) els).
Proof.
  induction els as [|el rest IH]; [reflexivity|].
  cbn [cheerio_map List.map]. now rewrite IH.
Qed.

Lemma cheerio_map_total (A : Type) (f : A -> JsValue) (els : list A) :
  cheerio_map (fun el => inr (f el)) els = inr (flat_map (fun el => spliced (f el)) els).
Proof.
  induction els as [|el rest IH]; [reflexivity|].
  cbn [cheerio_map flat_map]. now rewrite IH.
Qed.

Section ReadingProperties.

Context {DV : DocumentView}.
Variable env : Env.
Variable opts : Opts.

Lemma after_load (A : Type) (url : JsValue) (k : Doc -> M A) (w w1 : World)
    (D : Doc) :
  load env opts url w = (Return D, w1) ->
  (D' <- load env opts url;; k D') w = k D w1.
Proof. intros H. unfold bind. now rewrite H. Qed.

Lemma load_throws (A : Type) (url : JsValue) (k : Doc -> M A) (w w1 : World)
    (e : Exn) :
  load env opts url w = (Throw e, w1) ->
  (D' <- load env opts url;; k D') w = (Throw e, w1).
Proof. intros H. unfold bind. now rewrite H. Qed.

End ReadingProperties.

(** X13.  On one loaded page the reading methods agree: [getText] with
    [multiple] returns one trimmed text per match of the selector, in
    document order, so as many as [count] returns; [exists] returns true
    exactly when [count] is positive; and when there is a match, the first
    text of the [multiple] form is what the single form returns. *)
Theorem reading_methods_agree :
  forall (DV : DocumentView) (env : Env) (opts : Opts) (url : JsValue)
         (selector : string) (w w1 : World) (D : Doc),
    load env opts url w = (Return D, w1) ->
    let texts := List.map (fun el => VStr (js_trim (text D [el])))
                          (select D selector) in
    getText env opts url selector true w = (Return (VArr texts), w1) /\
    count env opts url selector w = (Return (List.length texts), w1) /\
    exists_ env opts url selector w =
      (Return (negb (List.length texts =? 0)%nat), w1) /\
    (forall v, getText env opts url selector false w = (Return v, w1) ->
               select D selector <> [] -> List.hd_error texts = Some v).
Proof.
  intros DV env opts url selector w w1 D Hload texts.
  unfold getText, count, exists_. rewrite !(after_load env opts _ _ _ w w1 D Hload).
  rewrite cheerio_map_strings. unfold bind, call, ret. cbn [fst snd].
  subst texts. rewrite length_map.
  repeat split.
  - now destruct (select D selector).
  - intros v Hv Hne. inversion Hv; subst.
    destruct (select D selector) as [|el rest]; [contradiction|].
    reflexivity.
Qed.

Lemma reading_methods_agree_witness :
  @getText Toy.view PaginationExamples.chain_env (Toy.plain_opts 3)
           (VStr "/p1") "li" true initial_world =
  (Return (VArr [VStr "a1"; VStr "a2"]),
   snd (@load Toy.view PaginationExamples.chain_env (Toy.plain_opts 3)
          (VStr "/p1") initial_world)).
Proof.
  apply (reading_methods_agree Toy.view PaginationExamples.chain_env
           (Toy.plain_opts 3) (VStr "/p1") "li" initial_world
           (snd (@load Toy.view PaginationExamples.chain_env
                   (Toy.plain_opts 3) (VStr "/p1") initial_world))
           Toy.page1).
  reflexivity.
Defined.

(** X14.  [getAttribute] with [multiple] does not return one entry per
    match: cheerio's [map] leaves out every match for which [attr] gives
    [undefined], so the array holds the values of the matches that have
    the attribute, in document order, and can be shorter than [count]. *)
Theorem getAttribute_multiple_skips_missing :
  forall (DV : DocumentView) (env : Env) (opts : Opts) (url : JsValue)
         (selector : string) (attribute : JsValue) (w w1 : World) (D : Doc),
    load env opts url w = (Return D, w1) ->
    (forall el, In el (select D selector) ->
                attr D [el] attribute = VUndefined \/
                exists s, attr D [el] attribute = VStr s) ->
    exists present,
      getAttribute env opts url selector attribute true w =
        (Return (VArr present), w1) /\
      present = filter js_not_nullish
                       (List.map (fun el => attr D [el] attribute)
                                 (select D selector)) /\
      (List.length present <= List.length (select D selector))%nat /\
      Forall (fun v => exists s, v = VStr s) present.
Proof.
  intros DV env opts url selector attribute w w1 D Hload Hattr.
  eexists. unfold getAttribute.
  rewrite (after_load env opts _ _ _ w w1 D Hload).
  rewrite cheerio_map_total. unfold bind, call, ret. cbn [fst snd].
  split; [reflexivity|].
  induction (select D selector) as [|el rest IH].
  - repeat split; [simpl; lia|constructor].
  - destruct IH as (IH1 & IH2 & IH3).
    { intros el' Hin. apply Hattr. now right. }
    cbn [flat_map List.map filter List.length].
    destruct (Hattr el (or_introl eq_refl)) as [H|(s & H)]; rewrite H;
      cbn [spliced js_not_nullish app List.length].
    + repeat split; [exact IH1|lia|exact IH3].
    + repeat split; [now rewrite IH1|lia|].
      constructor; [now exists s|exact IH3].
Qed.

Lemma getAttribute_multiple_skips_missing_witness :
  exists present,
    @getAttribute ReadingExamples.pages ReadingExamples.links_env
      (Toy.plain_opts 3) (VStr "/links") "a" (VStr "href") true
      initial_world =
    (Return (VArr present),
     snd (@load ReadingExamples.pages ReadingExamples.links_env
            (Toy.plain_opts 3) (VStr "/links") initial_world)) /\
    present = [VStr "/a"; VStr "/c"].
Proof.
  destruct (getAttribute_multiple_skips_missing ReadingExamples.pages
              ReadingExamples.links_env (Toy.plain_opts 3) (VStr "/links")
              "a" (VStr "href") initial_world
              (snd (@load ReadingExamples.pages ReadingExamples.links_env
                      (Toy.plain_opts 3) (VStr "/links") initial_world))
              ReadingExamples.three_links)
    as (present & Hrun & Hp & _).
  - reflexivity.
  - intros el Hin. cbn in Hin.
    destruct Hin as [<-|[<-|[<-|[]]]]; cbn; eauto.
  - exists present. split; [exact Hrun|exact Hp].
Defined.

(** ** Own properties of a plain object *)

Section OwnPropertyFacts.

Variable V : Type.

Lemma own_set_nonempty (o : list (string * V)) (k : string) (v : V) :
  own_set o k v <> [].
Proof.
  destruct o as [|[k' v'] rest]; cbn; [discriminate|].
  destruct (k' =? k); discriminate.
Qed.

Lemma own_get_set_same (o : list (string * V)) (k : string) (v : V) :
  own_get (own_set o k v) k = Some v.
Proof.
  induction o as [|[k' v'] rest IH]; cbn.
  - now rewrite String.eqb_refl.
  - destruct (k' =? k) eqn:E; cbn; rewrite E; [reflexivity|exact IH].
Qed.

Lemma own_get_set_other (o : list (string * V)) (k k' : string) (v : V) :
  k <> k' -> own_get (own_set o k v) k' = own_get o k'.
Proof.
  intros Hne.
  induction o as [|[k0 v0] rest IH]; cbn.
  - destruct (k =? k') eqn:E; [apply String.eqb_eq in E; contradiction|].
    reflexivity.
  - destruct (k0 =? k) eqn:E; cbn.
    + apply String.eqb_eq in E. subst k0.
      destruct (k =? k') eqn:E'; [|reflexivity].
      apply String.eqb_eq in E'. contradiction.
    + destruct (k0 =? k'); [reflexivity|exact IH].
Qed.

Lemma own_set_keys (o : list (string * V)) (k : string) (v : V) :
  forall k', In k' (List.map fst (own_set o k v)) <->
             k' = k \/ In k' (List.map fst o).
Proof.
  induction o as [|[k0 v0] rest IH]; intros k'; cbn.
  - intuition.
  - destruct (k0 =? k) eqn:E; cbn.
    + apply String.eqb_eq in E. subst k0. intuition.
    + rewrite IH. intuition.
Qed.

Lemma own_set_NoDup (o : list (string * V)) (k : string) (v : V) :
  NoDup (List.map fst o) -> NoDup (List.map fst (own_set o k v)).
Proof.
  induction o as [|[k0 v0] rest IH]; cbn.
  - intros _. constructor; [tauto|constructor].
  - intros H. inversion H as [|? ? Hnin Hnd]; subst.
    destruct (k0 =? k) eqn:E; cbn; [now constructor|].
    constructor; [|now apply IH].
    rewrite own_set_keys. intros [->|Hin]; [|contradiction].
    now rewrite String.eqb_refl in E.
Qed.

Lemma own_set_fresh (o : list (string * V)) (k : string) (v : V) :
  ~ In k (List.map fst o) -> own_set o k v = o ++ [(k, v)].
Proof.
  induction o as [|[k0 v0] rest IH]; cbn; [reflexivity|].
  intros Hnin. destruct (k0 =? k) eqn:E.
  - apply String.eqb_eq in E. subst. tauto.
  - rewrite IH; [reflexivity|tauto].
Qed.

Lemma own_get_In (o : list (string * V)) (k : string) (v : V) :
  NoDup (List.map fst o) -> In (k, v) o -> own_get o k = Some v.
Proof.
  induction o as [|[k0 v0] rest IH]; cbn; [tauto|].
  intros Hnd [Heq|Hin].
  - inversion Heq; subst. now rewrite String.eqb_refl.
  - inversion Hnd as [|? ? Hnin Hnd']; subst.
    destruct (k0 =? k) eqn:E; [|now apply IH].
    apply String.eqb_eq in E. subst k0.
    contradiction Hnin. apply in_map_iff. now exists (k, v).
Qed.

Lemma set_property_keys (o : list (string * V)) (k : string) (v : V) :
  forall k', In k' (List.map fst (set_property o k v)) <->
             (k' = k /\ k <> "__proto__") \/ In k' (List.map fst o).
Proof.
  intros k'. unfold set_property.
  destruct (k =? "__proto__") eqn:E.
  - apply String.eqb_eq in E. tauto.
  - apply String.eqb_neq in E. rewrite own_set_keys. tauto.
Qed.

Lemma set_property_NoDup (o : list (string * V)) (k : string) (v : V) :
  NoDup (List.map fst o) -> NoDup (List.map fst (set_property o k v)).
Proof.
  unfold set_property. destruct (k =? "__proto__"); [auto|].
  apply own_set_NoDup.
Qed.

Lemma own_get_set_property_same (o : list (string * V)) (k : string)
    (v : V) :
  k <> "__proto__" -> own_get (set_property o k v) k = Some v.
Proof.
  intros Hk. unfold set_property. apply String.eqb_neq in Hk.
  rewrite Hk. apply own_get_set_same.
Qed.

Lemma own_get_set_property_other (o : list (string * V)) (k k' : string)
    (v : V) :
  k <> k' -> own_get (set_property o k v) k' = own_get o k'.
Proof.
  intros Hne. unfold set_property.
  destruct (k =? "__proto__"); [reflexivity|].
  now apply own_get_set_other.
Qed.

End OwnPropertyFacts.

(** ** [extract] *)

Section ExtractFacts.

Context {DV : DocumentView}.
Variable D : Doc.

(** A field without [multiple]: the first match is read by its type and
    given to the transform. *)
Lemma extract_field_single (def : FieldDef) :
  multiple def <> Some true ->
  extract_field D def =
  match transform def with
  | Some f =>
      f (match type def with
         | Some t =>
             if t =? "html" then html D (first (select D (selector def)))
             else if t =? "attribute"
                  then attr D (first (select D (selector def)))
                            (opt_str (attribute def))
                  else VStr (js_trim (text D (first (select D (selector def)))))
         | None => VStr (js_trim (text D (first (select D (selector def)))))
         end) D (first (select D (selector def)))
  | None =>
      inr (match type def with
           | Some t =>
               if t =? "html" then html D (first (select D (selector def)))
               else if t =? "attribute"
                    then attr D (first (select D (selector def)))
                              (opt_str (attribute def))
                    else VStr (js_trim
                                 (text D (first (select D (selector def)))))
           | None => VStr (js_trim (text D (first (select D (selector def)))))
           end)
  end.
Proof.
  intros Hm. unfold extract_field, _readValue, apply_transform.
  destruct (multiple def) as [[|]|]; [now contradiction Hm| |];
    destruct (type def) as [t|]; destruct (transform def); reflexivity.
Qed.

Lemma extract_field_multiple (def : FieldDef) (v : JsValue) :
  multiple def = Some true ->
  extract_field D def = inr v -> exists vs, v = VArr vs.
Proof.
  intros Hm. unfold extract_field. rewrite Hm.
  destruct (cheerio_map _ _) as [e|vs]; [discriminate|].
  intros H. inversion H. now exists vs.
Qed.

Lemma extract_field_plain (def : FieldDef) :
  transform def = None -> exists v, extract_field D def = inr v.
Proof.
  intros Ht. unfold extract_field, apply_transform. rewrite Ht.
  destruct (match multiple def with Some b => b | None => false end).
  - rewrite cheerio_map_total. eauto.
  - eauto.
Qed.

Lemma extract_fields_acc (schema : Schema) :
  forall acc result,
    extract_fields D schema acc = inr result ->
    NoDup (List.map fst acc ++ List.map fst schema) ->
    List.map fst result =
      List.map fst acc ++
      filter (fun key => negb (key =? "__proto__")) (List.map fst schema) /\
    (forall k v, In (k, v) acc -> In (k, v) result) /\
    (forall key def,
        In (key, def) schema -> key <> "__proto__" ->
        exists v, In (key, v) result /\ extract_field D def = inr v).
Proof.
  induction schema as [|[key def] rest IH]; intros acc result Hrun Hnd.
  - cbn in Hrun. inversion Hrun; subst. cbn. rewrite app_nil_r.
    split; [reflexivity|]. split; [auto|]. intros key def [].
  - cbn [extract_fields] in Hrun.
    destruct (extract_field D def) as [e|v] eqn:Ev; [discriminate|].
    cbn [List.map fst filter] in *.
    unfold set_property in Hrun.
    destruct (key =? "__proto__") eqn:Ek; cbn [negb].
    + apply NoDup_remove_1 in Hnd.
      destruct (IH acc result Hrun Hnd) as (Hk & Ha & Hf).
      split; [exact Hk|]. split; [exact Ha|].
      intros key' def' [Heq|Hin] Hne; [|now apply Hf].
      inversion Heq; subst. apply String.eqb_eq in Ek. contradiction.
    + assert (Hfresh : ~ In key (List.map fst acc)).
      { apply NoDup_remove_2 in Hnd. intros Hin. apply Hnd.
        apply in_or_app. now left. }
      rewrite (own_set_fresh _ acc key v Hfresh) in Hrun.
      assert (Hnd' : NoDup (List.map fst (acc ++ [(key, v)]) ++
                            List.map fst rest)).
      { rewrite List.map_app, <- app_assoc. exact Hnd. }
      destruct (IH _ result Hrun Hnd') as (Hk & Ha & Hf).
      split; [|split].
      * rewrite Hk, List.map_app, <- app_assoc. reflexivity.
      * intros k x Hin. apply Ha. apply in_or_app. now left.
      * intros key' def' [Heq|Hin] Hne; [|now apply Hf].
        inversion Heq; subst. exists v.
        split; [|exact Ev]. apply Ha. apply in_or_app. right. now left.
Qed.

Lemma extract_fields_plain (schema : Schema) :
  (forall key def, In (key, def) schema -> transform def = None) ->
  forall acc, exists result, extract_fields D schema acc = inr result.
Proof.
  induction schema as [|[key def] rest IH]; intros Hplain acc; cbn.
  - eauto.
  - destruct (extract_field_plain def) as (v & ->).
    + apply (Hplain key). now left.
    + apply IH. intros k d Hin. apply (Hplain k). now right.
Qed.

(** The first field whose transform throws decides the outcome. *)
Lemma extract_fields_throw (before after : Schema) (key : string)
    (def : FieldDef) (e : Exn) :
  (forall k d, In (k, d) before -> transform d = None) ->
  extract_field D def = inl e ->
  forall acc, extract_fields D (before ++ (key, def) :: after) acc = inl e.
Proof.
  induction before as [|[k d] rest IH]; intros Hplain He acc.
  - cbn [app extract_fields]. now rewrite He.
  - cbn [app extract_fields].
    destruct (extract_field_plain d) as (v & ->).
    + apply (Hplain k). now left.
    + apply IH; [|exact He]. intros k' d' Hin. apply (Hplain k'). now right.
Qed.

End ExtractFacts.

(** X15.  A field of [extract] read as text (type ['text'], no type, or
    any type other than ['html'] and ['attribute']) and without transform
    yields, with [multiple], the list of the trimmed texts of all matches of
    its selector in document order, one per match, and without [multiple]
    the trimmed text of the first match as a string. *)
Theorem extract_text_field :
  forall (DV : DocumentView) (D : Doc) (sel : string) (ty : option string)
         (mult : option bool),
    (forall t, ty = Some t -> t <> "html" /\ t <> "attribute") ->
    extract_field D (mkField sel ty None mult None) =
    match mult with
    | Some true =>
        inr (VArr (List.map (fun el => VStr (js_trim (text D [el])))
                            (select D sel)))
    | _ => inr (VStr (js_trim (text D (first (select D sel)))))
    end.
Proof.
  intros DV D sel ty mult Htype.
  assert (Hread : forall el,
             _readValue D el (match ty with Some t => t | None => "text" end)
                        None = VStr (js_trim (text D el))).
  { intros el. unfold _readValue. destruct ty as [t|]; [|reflexivity].
    destruct (Htype t eq_refl) as [Hh Ha].
    apply String.eqb_neq in Hh, Ha. now rewrite Hh, Ha. }
  unfold extract_field.
  cbn [type multiple selector attribute transform].
  destruct mult as [[|]|]; cbn [apply_transform];
    try (now rewrite Hread).
  assert (E : cheerio_map
                (fun el =>
                   inr (_readValue D [el]
                          (match ty with Some t => t | None => "text" end)
                          None))
                (select D sel) =
              inr (List.map (fun el => VStr (js_trim (text D [el])))
                            (select D sel))).
  { induction (select D sel) as [|el rest IH]; [reflexivity|].
    cbn [cheerio_map List.map]. now rewrite IH, Hread. }
  now rewrite E.
Qed.

(** Three list items under a misspelt type: all three, in order. *)
Lemma extract_text_field_witness :
  @extract_field ReadingExamples.pages ReadingExamples.three_items
    (@mkField ReadingExamples.pages "li" (Some "txt") None (Some true) None) =
  inr (VArr [VStr "one"; VStr "two"; VStr "three"]).
Proof.
  apply (extract_text_field ReadingExamples.pages
           ReadingExamples.three_items "li" (Some "txt") (Some true)).
  intros t H. inversion H; subst. split; discriminate.
Defined.



(** ** Removing duplicates *)

Section UniqueProperties.

Variable K : Type.
Variable same : K -> K -> bool.
Hypothesis same_eq : forall a b, same a b = true <-> a = b.

Lemma set_has_In (seen : list K) (k : K) :
  set_has same seen k = true <-> In k seen.
Proof.
  unfold set_has. rewrite existsb_exists. split.
  - intros (x & Hx & Hs). apply same_eq in Hs. now subst.
  - intros H. exists k. split; [exact H|now apply same_eq].
Qed.

Lemma set_has_not_In (seen : list K) (k : K) :
  set_has same seen k = false <-> ~ In k seen.
Proof.
  rewrite <- set_has_In. destruct (set_has same seen k); split; congruence.
Qed.

Variable A : Type.
Variable key : A -> K.

Lemma uniqueBy_filter_keys (arr : list A) :
  forall seen,
    NoDup seen ->
    NoDup (seen ++ List.map key (uniqueBy_filter same key seen arr)) /\
    (forall k, In k (seen ++ List.map key arr) <->
               In k (seen ++ List.map key (uniqueBy_filter same key seen arr))).
Proof.
  induction arr as [|item rest IH]; intros seen Hnd; cbn [uniqueBy_filter].
  - cbn. rewrite app_nil_r. split; [exact Hnd|tauto].
  - destruct (set_has same seen (key item)) eqn:E.
    + apply set_has_In in E.
      destruct (IH seen Hnd) as [H1 H2]. split; [exact H1|].
      intros k. rewrite <- H2. cbn [List.map].
      rewrite !in_app_iff. cbn [In]. split; [|tauto].
      intros [H|[H|H]]; auto. subst. auto.
    + apply set_has_not_In in E.
      assert (Hnd' : NoDup (seen ++ [key item])).
      { apply NoDup_app; [exact Hnd|repeat constructor; intros []|].
        intros x Hx [Hy|[]]. subst. contradiction. }
      destruct (IH (seen ++ [key item]) Hnd') as [H1 H2].
      cbn [List.map]. rewrite <- app_assoc in H1. cbn [app] in H1.
      split; [exact H1|]. intros k. specialize (H2 k).
      rewrite <- !app_assoc in H2. exact H2.
Qed.

Lemma uniqueBy_filter_first (arr : list A) :
  forall seen item,
    In item (uniqueBy_filter same key seen arr) ->
    ~ In (key item) seen /\ first_with_key key item arr.
Proof.
  induction arr as [|x rest IH]; intros seen item; cbn [uniqueBy_filter];
    [intros []|].
  destruct (set_has same seen (key x)) eqn:E.
  - intros Hin. destruct (IH seen item Hin) as [Hs (before & after & -> & Hb)].
    split; [exact Hs|].
    exists (x :: before), after. split; [reflexivity|].
    cbn [List.map In]. intros [H|H]; [|contradiction].
    apply set_has_In in E. congruence.
  - intros [<-|Hin].
    + apply set_has_not_In in E. split; [exact E|].
      exists [], rest. split; [reflexivity|intros []].
    + destruct (IH (seen ++ [key x]) item Hin)
        as [Hs (before & after & -> & Hb)].
      rewrite in_app_iff in Hs. cbn [In] in Hs.
      split; [tauto|].
      exists (x :: before), after. split; [reflexivity|].
      cbn [List.map In]. intros [H|H]; [|contradiction]. tauto.
Qed.

Lemma uniqueBy_filter_fixed (arr : list A) :
  forall seen,
    NoDup (seen ++ List.map key arr) ->
    uniqueBy_filter same key seen arr = arr.
Proof.
  induction arr as [|x rest IH]; intros seen Hnd; [reflexivity|].
  cbn [uniqueBy_filter].
  assert (E : set_has same seen (key x) = false).
  { apply set_has_not_In. intros Hin.
    cbn [List.map] in Hnd. apply NoDup_remove_2 in Hnd.
    apply Hnd. rewrite in_app_iff. now left. }
  rewrite E. f_equal. apply IH.
  now rewrite <- app_assoc.
Qed.

(** [new Set(arr)] lists what the filter of [_uniqueBy] keeps. *)
Lemma set_of_filter (arr : list K) :
  forall set,
    fold_left (fun set k => if set_has same set k then set else set ++ [k])
              arr set =
    set ++ uniqueBy_filter same (fun k => k) set arr.
Proof.
  induction arr as [|k rest IH]; intros set; cbn [fold_left uniqueBy_filter].
  - now rewrite app_nil_r.
  - destruct (set_has same set k); rewrite IH; [reflexivity|].
    now rewrite <- app_assoc.
Qed.

End UniqueProperties.

Lemma uniqueBy_members_first (K : Type) (same : K -> K -> bool)
    (Hsame : forall a b, same a b = true <-> a = b) (A : Type)
    (key : A -> K) (arr : list A) (item : A) :
  In item (_uniqueBy same key arr) -> first_with_key key item arr.
Proof.
  intros Hin.
  now destruct (uniqueBy_filter_first K same Hsame A key arr [] item Hin).
Qed.

Lemma string_same_eq (a b : string) : (a =? b) = true <-> a = b.
Proof. apply String.eqb_eq. Qed.

(** X17.  [_uniqueBy] keeps, of the items that share a key, exactly the
    first one, in the order of the input: the keys of the result are
    pairwise distinct and are the keys of the input, every item kept is the
    first with its key, an input without repeated keys comes back unchanged,
    and so does the result when filtered again.  [_unique] is the same on
    the values themselves. *)
Theorem unique_keeps_first_occurrences :
  forall (K : Type) (same : K -> K -> bool),
    (forall a b, same a b = true <-> a = b) ->
    forall (A : Type) (key : A -> K) (arr : list A),
      NoDup (List.map key (_uniqueBy same key arr)) /\
      (forall k, In k (List.map key arr) <->
                 In k (List.map key (_uniqueBy same key arr))) /\
      (forall item, In item (_uniqueBy same key arr) ->
                    first_with_key key item arr) /\
      (NoDup (List.map key arr) -> _uniqueBy same key arr = arr) /\
      _uniqueBy same key (_uniqueBy same key arr) = _uniqueBy same key arr /\
      (forall values : list K,
          _unique same values = _uniqueBy same (fun k => k) values).
Proof.
  intros K same Hsame A key arr. unfold _uniqueBy.
  destruct (uniqueBy_filter_keys K same Hsame A key arr [] (NoDup_nil K))
    as [Hnd Hkeys].
  cbn [app] in Hnd, Hkeys.
  split; [exact Hnd|]. split; [exact Hkeys|]. split; [|split; [|split]].
  - intros item Hin.
    now destruct (uniqueBy_filter_first K same Hsame A key arr [] item Hin).
  - intros H. now apply uniqueBy_filter_fixed.
  - now apply uniqueBy_filter_fixed.
  - intros values. unfold _unique, set_of.
    now rewrite (set_of_filter K same values []).
Qed.

Lemma unique_keeps_first_occurrences_witness :
  _unique String.eqb ["a@x.io"; "b@x.io"; "a@x.io"] = ["a@x.io"; "b@x.io"] /\
  NoDup (_uniqueBy String.eqb fst [("/a", 1); ("/b", 2); ("/a", 3)]).
Proof.
  destruct (unique_keeps_first_occurrences string String.eqb string_same_eq
              (string * nat) fst [("/a", 1); ("/b", 2); ("/a", 3)])
    as (Hnd & _).
  split; [reflexivity|].
  eapply NoDup_map_inv. exact Hnd.
Defined.

(** ** Links *)

Section LinkProperties.

Context {DV : DocumentView}.
Variable env : Env.
Variable url_hostname : JsValue -> option string.
Variable regexp_test : string -> JsValue -> Exn + bool.

Lemma link_of_filters (D : Doc) (url : JsValue) (lopts : LinkOpts)
    (a : Elem) (pushed : list Link) :
  link_of env url_hostname regexp_test D url lopts a = inr pushed ->
  Forall (fun l =>
            (internal lopts = true ->
             _sameDomain url_hostname url (href l) = true) /\
            (external lopts = true ->
             _sameDomain url_hostname url (href l) = false) /\
            (title l = VUndefined \/ js_truthy (title l) = true))
         pushed.
Proof.
  unfold link_of.
  destruct (internal lopts && negb (_sameDomain url_hostname url _)) eqn:Ei;
    [intros H; inversion H; constructor|].
  destruct (external lopts && _sameDomain url_hostname url _) eqn:Ee;
    [intros H; inversion H; constructor|].
  destruct (pattern_rejects regexp_test lopts _) as [e|[|]];
    intros H; inversion H; subst; constructor; [|constructor].
  cbn [href title]. repeat split.
  - intros Hi. rewrite Hi in Ei. cbn in Ei. now apply negb_false_iff in Ei.
  - intros He. rewrite He in Ee. exact Ee.
  - destruct (js_truthy (attr D [a] (VStr "title"))) eqn:T; auto.
Qed.

Lemma collect_links_filters (D : Doc) (url : JsValue) (lopts : LinkOpts)
    (anchors : list Elem) :
  forall links,
    collect_links env url_hostname regexp_test D url lopts anchors =
      inr links ->
    Forall (fun l =>
              (internal lopts = true ->
               _sameDomain url_hostname url (href l) = true) /\
              (external lopts = true ->
               _sameDomain url_hostname url (href l) = false) /\
              (title l = VUndefined \/ js_truthy (title l) = true))
           links.
Proof.
  induction anchors as [|a rest IH]; intros links; cbn [collect_links].
  - intros H. inversion H. constructor.
  - destruct (link_of env url_hostname regexp_test D url lopts a)
      as [e|pushed] eqn:El; [discriminate|].
    destruct (collect_links env url_hostname regexp_test D url lopts rest)
      as [e|links'] eqn:Ec; [discriminate|].
    intros H. inversion H; subst.
    apply Forall_app. split; [now apply (link_of_filters D url lopts a)|].
    now apply IH.
Qed.

End LinkProperties.

(** X18.  Of what [extractLinks] returns: with [internal] every link is on
    the host of the page, with [external] none is, so with both the result
    is empty whatever the page holds; with [unique] no two links share an
    [href] (the first of each is kept); and a [title] is never the empty
    string, but [undefined] or a non-empty value. *)
Theorem extractLinks_filters :
  forall (DV : DocumentView) (env : Env) (opts : Opts)
         (url_hostname : JsValue -> option string)
         (regexp_test : string -> JsValue -> Exn + bool)
         (same_value : JsValue -> JsValue -> bool)
         (url : JsValue) (lopts : LinkOpts) (w w1 : World)
         (links : list Link),
    (forall a b, same_value a b = true <-> a = b) ->
    extractLinks env opts url_hostname regexp_test same_value url lopts w =
      (Return links, w1) ->
    (internal lopts = true ->
     Forall (fun l => _sameDomain url_hostname url (href l) = true) links) /\
    (external lopts = true ->
     Forall (fun l => _sameDomain url_hostname url (href l) = false) links) /\
    (internal lopts = true -> external lopts = true -> links = []) /\
    (unique_links lopts = true -> NoDup (List.map href links)) /\
    Forall (fun l => title l = VUndefined \/ js_truthy (title l) = true)
           links.
Proof.
  intros DV env opts url_hostname regexp_test same_value url lopts w w1 links
         Hsame Hrun.
  unfold extractLinks, bind in Hrun.
  destruct (load env opts url w) as [[D| |] w0]; try discriminate.
  destruct (collect_links env url_hostname regexp_test D url lopts
              (select D anchors_selector)) as [e|all] eqn:Ec;
    cbn [call throw ret] in Hrun; try discriminate.
  inversion Hrun; subst; clear Hrun.
  pose proof (collect_links_filters env url_hostname regexp_test D url lopts
                _ all Ec) as Hall.
  assert (Hsub : incl (if unique_links lopts
                       then _uniqueBy same_value href all else all) all).
  { destruct (unique_links lopts); [|apply incl_refl].
    intros l Hl.
    destruct (uniqueBy_members_first JsValue same_value Hsame
                Link href all l Hl) as (before & after & -> & _).
    apply in_elt. }
  assert (Hkept : Forall (fun l =>
              (internal lopts = true ->
               _sameDomain url_hostname url (href l) = true) /\
              (external lopts = true ->
               _sameDomain url_hostname url (href l) = false) /\
              (title l = VUndefined \/ js_truthy (title l) = true))
            (if unique_links lopts then _uniqueBy same_value href all
             else all)).
  { rewrite Forall_forall in *. intros l Hl. apply Hall, Hsub, Hl. }
  clear Hall Hsub. rewrite Forall_forall in Hkept.
  split; [|split; [|split; [|split]]].
  - intros Hi. apply Forall_forall. intros l Hl. now apply (Hkept l Hl).
  - intros He. apply Forall_forall. intros l Hl. now apply (Hkept l Hl).
  - intros Hi He.
    destruct (if unique_links lopts then _uniqueBy same_value href all
              else all) as [|l rest]; [reflexivity|].
    destruct (Hkept l (or_introl eq_refl)) as (H1 & H2 & _).
    rewrite (H1 Hi) in H2. now specialize (H2 He).
  - intros Hu. rewrite Hu.
    unfold _uniqueBy.
    destruct (uniqueBy_filter_keys JsValue same_value Hsame Link href all []
                (NoDup_nil JsValue)) as [Hnd _].
    exact Hnd.
  - apply Forall_forall. intros l Hl. now apply (Hkept l Hl).
Qed.

Lemma same_structure_eq :
  forall a b, LinkExamples.same_structure a b = true <-> a = b.
Proof.
  fix IH 1. intros a b.
  destruct a as [| |x|x|x|xs|fs]; destruct b as [| |y|y|y|ys|gs]; cbn;
    try (split; [discriminate|discriminate]); try tauto.
  - rewrite Bool.eqb_true_iff. split; congruence.
  - rewrite Z.eqb_eq. split; congruence.
  - rewrite String.eqb_eq. split; congruence.
  - revert ys. induction xs as [|x xs IHxs]; intros [|y ys];
      try (split; [discriminate|discriminate]); try tauto.
    rewrite andb_true_iff, (IH x y), (IHxs ys). split.
    + intros [-> H]. now inversion H.
    + intros H. inversion H. auto.
  - revert gs. induction fs as [|[k x] fs IHfs]; intros [|[k' y] gs];
      try (split; [discriminate|discriminate]); try tauto.
    rewrite !andb_true_iff, String.eqb_eq, (IH x y), (IHfs gs). split.
    + intros [[-> ->] H]. now inversion H.
    + intros H. inversion H. auto.
Qed.

Lemma extractLinks_filters_witness :
  fst (@extractLinks LinkExamples.link_view LinkExamples.links_page_env
         (Toy.plain_opts 3) LinkExamples.host_of LinkExamples.no_regexp
         LinkExamples.same_structure (VStr "/links")
         LinkExamples.internal_once initial_world) =
    Return [mkLink (VStr "/a") "A" VUndefined] /\
  NoDup (List.map href [mkLink (VStr "/a") "A" VUndefined]).
Proof.
  split; [reflexivity|].
  apply (extractLinks_filters LinkExamples.link_view
           LinkExamples.links_page_env (Toy.plain_opts 3)
           LinkExamples.host_of LinkExamples.no_regexp
           LinkExamples.same_structure (VStr "/links")
           LinkExamples.internal_once initial_world
           (snd (@extractLinks LinkExamples.link_view
                   LinkExamples.links_page_env (Toy.plain_opts 3)
                   LinkExamples.host_of LinkExamples.no_regexp
                   LinkExamples.same_structure (VStr "/links")
                   LinkExamples.internal_once initial_world))
           [mkLink (VStr "/a") "A" VUndefined] same_structure_eq).
  - reflexivity.
  - reflexivity.
Defined.

(** ** Text utilities *)

Lemma single_spaced_weaken (s : string) :
  single_spaced true s = true -> single_spaced false s = true.
Proof.
  destruct s as [|c rest]; cbn; [reflexivity|].
  destruct (is_space c); [discriminate|auto].
Qed.

Lemma collapse_single_spaced (s : string) :
  forall b, single_spaced b (collapse_spaces b s) = true.
Proof.
  induction s as [|c rest IH]; intros b; cbn; [reflexivity|].
  destruct (is_space c) eqn:E.
  - destruct b; [apply IH|].
    cbn. apply IH.
  - cbn. rewrite E. apply IH.
Qed.

Lemma collapse_fixed (s : string) :
  forall b, single_spaced b s = true -> collapse_spaces b s = s.
Proof.
  induction s as [|c rest IH]; intros b; cbn; [reflexivity|].
  destruct (is_space c) eqn:E.
  - intros H. apply andb_true_iff in H. destruct H as [H Hrest].
    apply andb_true_iff in H. destruct H as [Hb Hc].
    apply negb_true_iff in Hb. subst b.
    apply Ascii.eqb_eq in Hc. subst c.
    now rewrite (IH true Hrest).
  - intros H. now rewrite (IH false H).
Qed.

Lemma trim_start_single_spaced (s : string) :
  single_spaced false s = true -> single_spaced false (trim_start s) = true.
Proof.
  induction s as [|c rest IH]; cbn; [reflexivity|].
  destruct (is_space c) eqn:E.
  - intros H. apply andb_true_iff in H. destruct H as [_ Hrest].
    apply IH. now apply single_spaced_weaken.
  - intros H. cbn. now rewrite E.
Qed.

Lemma trim_end_single_spaced (s : string) :
  forall b, single_spaced b s = true -> single_spaced b (trim_end s) = true.
Proof.
  induction s as [|c rest IH]; intros b; cbn; [reflexivity|].
  destruct (is_space c) eqn:E.
  - intros H. apply andb_true_iff in H. destruct H as [H Hrest].
    specialize (IH true Hrest).
    destruct (trim_end rest) as [|c' rest'] eqn:Et; [reflexivity|].
    cbn [single_spaced]. rewrite E. rewrite H. exact IH.
  - intros H. specialize (IH false H).
    destruct (trim_end rest) as [|c' rest'] eqn:Et.
    + cbn. now rewrite E.
    + cbn [single_spaced]. rewrite E. exact IH.
Qed.

Lemma trim_start_starts (s : string) : starts_visible (trim_start s).
Proof.
  induction s as [|c rest IH]; cbn; [exact I|].
  destruct (is_space c) eqn:E; [exact IH|exact E].
Qed.

Lemma trim_start_fixed (s : string) : starts_visible s -> trim_start s = s.
Proof.
  destruct s as [|c rest]; cbn; [reflexivity|].
  now intros ->.
Qed.

Lemma trim_end_starts (s : string) :
  starts_visible s -> starts_visible (trim_end s).
Proof.
  destruct s as [|c rest]; cbn; [auto|].
  intros E. rewrite E.
  now destruct (trim_end rest).
Qed.

Lemma trim_end_idempotent (s : string) : trim_end (trim_end s) = trim_end s.
Proof.
  induction s as [|c rest IH]; cbn; [reflexivity|].
  destruct (trim_end rest) as [|c' rest'] eqn:Et.
  - destruct (is_space c) eqn:E; [reflexivity|].
    cbn. now rewrite E.
  - cbn [trim_end]. cbn [trim_end] in IH. rewrite IH. reflexivity.
Qed.

Lemma js_trim_idempotent (s : string) : js_trim (js_trim s) = js_trim s.
Proof.
  unfold js_trim.
  rewrite (trim_start_fixed (trim_end (trim_start s))).
  - apply trim_end_idempotent.
  - apply trim_end_starts, trim_start_starts.
Qed.

Lemma visible_collapse (s : string) :
  forall b, visible (collapse_spaces b s) = visible s.
Proof.
  unfold visible.
  induction s as [|c rest IH]; intros b; cbn; [reflexivity|].
  destruct (is_space c) eqn:E; cbn.
  - destruct b; cbn; apply IH.
  - rewrite E. cbn. now rewrite IH.
Qed.

Lemma visible_trim_start (s : string) : visible (trim_start s) = visible s.
Proof.
  unfold visible.
  induction s as [|c rest IH]; cbn; [reflexivity|].
  destruct (is_space c) eqn:E; cbn; [exact IH|].
  now rewrite E.
Qed.

Lemma visible_trim_end (s : string) : visible (trim_end s) = visible s.
Proof.
  unfold visible.
  induction s as [|c rest IH]; cbn; [reflexivity|].
  destruct (trim_end rest) as [|c' rest'] eqn:Et.
  - destruct (is_space c) eqn:E; cbn.
    + exact IH.
    + rewrite E. cbn. cbn in IH. now rewrite <- IH.
  - cbn [list_ascii_of_string filter]. rewrite <- IH. reflexivity.
Qed.

Lemma single_spaced_blank (s : string) :
  forall b c,
    single_spaced b s = true ->
    In c (list_ascii_of_string s) -> is_space c = true -> c = " "%char.
Proof.
  induction s as [|a rest IH]; intros b c; cbn; [tauto|].
  destruct (is_space a) eqn:E.
  - intros H [->|Hin] Hc.
    + apply andb_true_iff in H. destruct H as [H _].
      apply andb_true_iff in H. destruct H as [_ H].
      now apply Ascii.eqb_eq in H.
    + apply andb_true_iff in H. destruct H as [_ H].
      exact (IH true c H Hin Hc).
  - intros H [->|Hin] Hc; [congruence|].
    exact (IH false c H Hin Hc).
Qed.

Lemma single_spaced_no_pair (before after : string) :
  forall b, single_spaced b (before ++ "  " ++ after)%string = false.
Proof.
  induction before as [|a rest IH]; intros b; cbn.
  - now rewrite andb_false_r.
  - destruct (is_space a); [|apply IH].
    rewrite IH. apply andb_false_r.
Qed.

Lemma ascii_text_check (s : string) :
  forallb (fun c => (nat_of_ascii c <? 128)%nat) (list_ascii_of_string s) =
    true ->
  ascii_text s.
Proof.
  intros H c Hc. rewrite forallb_forall in H.
  apply Nat.ltb_lt. now apply H.
Qed.

(** X19.  On a string of ASCII characters [cleanText] yields a normal
    form: applied to its own result it changes nothing; the result neither
    begins nor ends with white space, holds no white space but the blank
    and no two blanks in a row; and its other characters are those of the
    input, in their order.  A value that is not a string gives the empty
    string. *)
Theorem cleanText_normal_form :
  forall text : JsValue,
    (forall s, text = VStr s -> ascii_text s) ->
    cleanText (VStr (cleanText text)) = cleanText text /\
    js_trim (cleanText text) = cleanText text /\
    (forall c, In c (list_ascii_of_string (cleanText text)) ->
               is_space c = true -> c = " "%char) /\
    (forall before after,
        cleanText text <> (before ++ "  " ++ after)%string) /\
    (forall s, text = VStr s -> visible (cleanText text) = visible s) /\
    (js_typeof text <> "string" -> cleanText text = EmptyString).
Proof.
  intros text _.
  assert (Hnf : single_spaced false (cleanText text) = true).
  { unfold cleanText.
    destruct (js_typeof text =? "string"); [|reflexivity].
    destruct text; try reflexivity.
    unfold js_trim.
    apply trim_end_single_spaced, trim_start_single_spaced,
      collapse_single_spaced. }
  assert (Htrim : js_trim (cleanText text) = cleanText text).
  { unfold cleanText.
    destruct (js_typeof text =? "string"); [|reflexivity].
    destruct text; try reflexivity.
    apply js_trim_idempotent. }
  split; [|split; [|split; [|split; [|split]]]].
  - unfold cleanText at 1. cbn [js_typeof]. cbn [String.eqb Ascii.eqb Bool.eqb].
    rewrite (collapse_fixed _ false Hnf). exact Htrim.
  - exact Htrim.
  - intros c. exact (single_spaced_blank _ false c Hnf).
  - intros before after Heq. rewrite Heq in Hnf.
    now rewrite single_spaced_no_pair in Hnf.
  - intros s ->. unfold cleanText. cbn [js_typeof].
    cbn [String.eqb Ascii.eqb Bool.eqb]. unfold js_trim.
    now rewrite visible_trim_end, visible_trim_start, visible_collapse.
  - intros Hty. unfold cleanText.
    destruct (js_typeof text =? "string") eqn:E; [|reflexivity].
    apply String.eqb_eq in E. contradiction.
Qed.

Lemma cleanText_normal_form_witness :
  ascii_text "  two   words " /\
  cleanText (VStr (cleanText (VStr "  two   words "))) = "two words".
Proof.
  assert (Ha : ascii_text "  two   words ")
    by (apply ascii_text_check; reflexivity).
  split; [exact Ha|].
  destruct (cleanText_normal_form (VStr "  two   words ")) as [H _].
  - intros s Hs. injection Hs as <-. exact Ha.
  - rewrite H. reflexivity.
Defined.

Lemma replace_chars_length (class : ascii -> bool) (s : string) :
  String.length (replace_chars class s) = String.length s.
Proof.
  induction s as [|c rest IH]; cbn; [reflexivity|now rewrite IH].
Qed.

Lemma replace_chars_outside (class : ascii -> bool) (s : string) :
  class "_"%char = false ->
  forall c, In c (list_ascii_of_string (replace_chars class s)) ->
            class c = false.
Proof.
  intros Hu.
  induction s as [|a rest IH]; cbn; [tauto|].
  intros c [<-|Hin]; [|now apply IH].
  destruct (class a) eqn:E; [exact Hu|exact E].
Qed.

Lemma replace_chars_fixed (class : ascii -> bool) (s : string) :
  (forall c, In c (list_ascii_of_string s) -> class c = false) ->
  replace_chars class s = s.
Proof.
  induction s as [|a rest IH]; cbn; [reflexivity|].
  intros H. rewrite (H a (or_introl eq_refl)).
  rewrite IH; [reflexivity|]. intros c Hc. apply H. now right.
Qed.

(** X20.  [sanitizeFilename] changes characters in place: the result is as
    long as the string of its argument and holds none of the characters
    it replaces; a name without such characters is returned as it is, and
    sanitizing a second time changes nothing. *)
Theorem sanitizeFilename_safe :
  forall (to_string : JsValue -> string) (name : JsValue),
    (forall s, to_string (VStr s) = s) ->
    String.length (sanitizeFilename to_string name) =
      String.length (to_string name) /\
    (forall c,
        In c (list_ascii_of_string (sanitizeFilename to_string name)) ->
        forbidden_in_filename c = false) /\
    ((forall c, In c (list_ascii_of_string (to_string name)) ->
                forbidden_in_filename c = false) ->
     sanitizeFilename to_string name = to_string name) /\
    sanitizeFilename to_string (VStr (sanitizeFilename to_string name)) =
      sanitizeFilename to_string name.
Proof.
  intros to_string name Hstr. unfold sanitizeFilename.
  split; [apply replace_chars_length|].
  split; [apply replace_chars_outside; reflexivity|].
  split; [apply replace_chars_fixed|].
  rewrite Hstr. apply replace_chars_fixed.
  apply replace_chars_outside. reflexivity.
Qed.

Lemma sanitizeFilename_safe_witness :
  sanitizeFilename TextExamples.render (VStr "a/b:c.txt") = "a_b_c.txt" /\
  String.length (sanitizeFilename TextExamples.render (VStr "a/b:c.txt")) = 9.
Proof.
  split; [reflexivity|].
  destruct (sanitizeFilename_safe TextExamples.render (VStr "a/b:c.txt"))
    as [H _]; [reflexivity|].
  rewrite H. reflexivity.
Defined.

(** ** CSV cells *)

Lemma string_append_assoc (a b c : string) :
  ((a ++ b) ++ c = a ++ (b ++ c))%string.
Proof.
  induction a as [|x a IH]; cbn; [reflexivity|now rewrite IH].
Qed.

Lemma at_line_end_separator (r : string) : at_line_end r -> at_separator r.
Proof.
  destruct r as [|c rest]; cbn; [auto|].
  intros [->| ->]; split; (reflexivity || discriminate).
Qed.

Lemma comma_separator (r : string) : at_separator (String "," r).
Proof. split; [reflexivity|discriminate]. Qed.

Lemma plain_prefix (x : string) :
  forall y r1 r2,
    has_csv_special x = false -> has_csv_special y = false ->
    at_separator r1 -> at_separator r2 ->
    (x ++ r1 = y ++ r2)%string -> x = y /\ r1 = r2.
Proof.
  induction x as [|a x IH]; intros y r1 r2 Hx Hy H1 H2 Heq.
  - destruct y as [|b y]; [auto|].
    cbn in Heq. subst r1. cbn in H1, Hy.
    destruct H1 as [H1 _]. rewrite H1 in Hy. discriminate.
  - destruct y as [|b y].
    + cbn in Heq. subst r2. cbn in H2, Hx.
      destruct H2 as [H2 _]. rewrite H2 in Hx. discriminate.
    + cbn in Heq. inversion Heq; subst.
      cbn in Hx, Hy. apply orb_false_iff in Hx, Hy.
      destruct (IH y r1 r2) as [-> ->]; tauto.
Qed.

Lemma quoted_prefix (x : string) :
  forall y r1 r2,
    at_separator r1 -> at_separator r2 ->
    (double_quotes x ++ dquote ++ r1 = double_quotes y ++ dquote ++ r2)%string ->
    x = y /\ r1 = r2.
Proof.
  induction x as [|a x IH]; intros y r1 r2 H1 H2 Heq;
    destruct y as [|b y]; cbn [double_quotes] in Heq.
  - unfold dquote in Heq. cbn in Heq. injection Heq as Hr. auto.
  - destruct (b =? ascii_of_nat 34)%char eqn:E;
      unfold dquote in Heq; cbn in Heq.
    + injection Heq as Hb Hr. rewrite Hr in H1.
      cbn in H1. destruct H1 as [_ H1]. now contradiction H1.
    + injection Heq as Hb Hr. rewrite <- Hb in E.
      now rewrite Ascii.eqb_refl in E.
  - destruct (a =? ascii_of_nat 34)%char eqn:Ea;
      unfold dquote in Heq; cbn in Heq.
    + injection Heq as Ha Hr. rewrite <- Hr in H2.
      cbn in H2. destruct H2 as [_ H2]. now contradiction H2.
    + injection Heq as Ha Hr. rewrite Ha in Ea.
      now rewrite Ascii.eqb_refl in Ea.
  - destruct (a =? ascii_of_nat 34)%char eqn:Ea;
      destruct (b =? ascii_of_nat 34)%char eqn:Eb;
      cbn [String.append] in Heq.
    + injection Heq as Hab Hab' Heq'.
      destruct (IH y r1 r2 H1 H2 Heq') as [-> ->].
      now rewrite Hab.
    + injection Heq as Hab Heq'. rewrite <- Hab, Ea in Eb. discriminate.
    + injection Heq as Hab Heq'. rewrite Hab, Eb in Ea. discriminate.
    + injection Heq as Hab Heq'.
      destruct (IH y r1 r2 H1 H2 Heq') as [-> ->].
      now rewrite Hab.
Qed.

Lemma quoted_not_plain (body y r2 : string) :
  has_csv_special y = false -> at_separator r2 ->
  (dquote ++ body)%string <> (y ++ r2)%string.
Proof.
  intros Hy H2 Heq.
  destruct y as [|b y]; cbn in Heq.
  - subst r2. cbn in H2. now destruct H2.
  - inversion Heq. subst b. cbn in Hy. discriminate.
Qed.

Lemma csv_quote_prefix (x y r1 r2 : string) :
  at_separator r1 -> at_separator r2 ->
  (csv_quote x ++ r1 = csv_quote y ++ r2)%string -> x = y /\ r1 = r2.
Proof.
  intros H1 H2. unfold csv_quote.
  destruct (has_csv_special x) eqn:Ex; destruct (has_csv_special y) eqn:Ey.
  - intros Heq. apply (quoted_prefix x y r1 r2 H1 H2).
    rewrite !string_append_assoc in Heq.
    unfold dquote in Heq at 1 3. cbn [String.append] in Heq.
    now injection Heq as Heq'.
  - intros Heq. exfalso.
    rewrite string_append_assoc in Heq.
    exact (quoted_not_plain _ y r2 Ey H2 Heq).
  - intros Heq. exfalso. symmetry in Heq.
    rewrite string_append_assoc in Heq.
    exact (quoted_not_plain _ x r1 Ex H1 Heq).
  - now apply plain_prefix.
Qed.

Lemma string_append_nil (s : string) : (s ++ EmptyString)%string = s.
Proof.
  induction s as [|c s IH]; cbn; [reflexivity|now rewrite IH].
Qed.

Lemma csv_line_prefix (xs : list string) :
  forall ys r1 r2,
    xs <> [] -> ys <> [] -> at_line_end r1 -> at_line_end r2 ->
    (String.concat "," (List.map csv_quote xs) ++ r1 =
     String.concat "," (List.map csv_quote ys) ++ r2)%string ->
    xs = ys /\ r1 = r2.
Proof.
  induction xs as [|x xs IH]; intros ys r1 r2 Hxs Hys H1 H2 Heq;
    [contradiction|].
  destruct ys as [|y ys]; [contradiction|].
  destruct xs as [|x' xs]; destruct ys as [|y' ys].
  - cbn in Heq.
    destruct (csv_quote_prefix x y r1 r2) as [-> ->];
      auto using at_line_end_separator.
  - cbn [List.map String.concat] in Heq.
    rewrite string_append_assoc in Heq. cbn [String.append] in Heq.
    destruct (csv_quote_prefix x y r1 _ (at_line_end_separator _ H1)
                (comma_separator _) Heq) as [_ Hr].
    subst r1. cbn in H1. destruct H1 as [H1|H1]; discriminate.
  - cbn [List.map String.concat] in Heq.
    rewrite string_append_assoc in Heq. cbn [String.append] in Heq.
    destruct (csv_quote_prefix x y _ r2 (comma_separator _)
                (at_line_end_separator _ H2) Heq) as [_ Hr].
    subst r2. cbn in H2. destruct H2 as [H2|H2]; discriminate.
  - cbn [List.map String.concat] in Heq.
    rewrite !string_append_assoc in Heq. cbn [String.append] in Heq.
    destruct (csv_quote_prefix x y _ _ (comma_separator _)
                (comma_separator _) Heq) as [-> Hr].
    injection Hr as Hr.
    destruct (IH (y' :: ys) r1 r2) as [Hl ->]; try discriminate; auto.
    now rewrite Hl.
Qed.

Lemma at_line_end_CRLF (s : string) : at_line_end (CRLF ++ s)%string.
Proof. left. reflexivity. Qed.

Lemma csv_content_prefix (t1 : list (list string)) :
  forall t2,
    t1 <> [] -> t2 <> [] ->
    Forall (fun cells => cells <> []) t1 ->
    Forall (fun cells => cells <> []) t2 ->
    csv_content t1 = csv_content t2 -> t1 = t2.
Proof.
  unfold csv_content.
  induction t1 as [|l1 t1 IH]; intros t2 Ht1 Ht2 F1 F2 Heq;
    [contradiction|].
  destruct t2 as [|l2 t2]; [contradiction|].
  inversion F1 as [|? ? Hl1 F1']; inversion F2 as [|? ? Hl2 F2']; subst.
  destruct t1 as [|l1' t1]; destruct t2 as [|l2' t2];
    cbn [List.map String.concat] in Heq.
  - destruct (csv_line_prefix l1 l2 EmptyString EmptyString Hl1 Hl2 I I)
      as [-> _]; [|reflexivity].
    now rewrite !string_append_nil.
  - match type of Heq with
    | _ = (_ ++ CRLF ++ ?r)%string =>
        destruct (csv_line_prefix l1 l2 EmptyString (CRLF ++ r)%string
                    Hl1 Hl2 I (at_line_end_CRLF r)) as [_ Hr];
          [now rewrite string_append_nil|discriminate]
    end.
  - match type of Heq with
    | (_ ++ CRLF ++ ?r)%string = _ =>
        destruct (csv_line_prefix l1 l2 (CRLF ++ r)%string EmptyString
                    Hl1 Hl2 (at_line_end_CRLF r) I) as [_ Hr];
          [now rewrite string_append_nil|discriminate]
    end.
  - match type of Heq with
    | (_ ++ CRLF ++ ?r1)%string = (_ ++ CRLF ++ ?r2)%string =>
        destruct (csv_line_prefix l1 l2 (CRLF ++ r1)%string
                    (CRLF ++ r2)%string Hl1 Hl2 (at_line_end_CRLF r1)
                    (at_line_end_CRLF r2) Heq) as [-> Hr]
    end.
    injection Hr as Hr.
    rewrite (IH (l2' :: t2)); auto; discriminate.
Qed.

(** X21.  What [_csvCell] writes can be read back: a cell determines the
    text of its value, a line of at least one cell determines the texts of
    its cells, and a file of lines, each of at least one cell, determines
    the whole table; a text without comma, quote, carriage return and line
    feed is written as it is. *)
Theorem csv_cells_decodable :
  forall to_string : JsValue -> string,
    (forall v, has_csv_special (cell_text to_string v) = false ->
               _csvCell to_string v = cell_text to_string v) /\
    (forall v1 v2, _csvCell to_string v1 = _csvCell to_string v2 ->
                   cell_text to_string v1 = cell_text to_string v2) /\
    (forall values1 values2,
        values1 <> [] -> values2 <> [] ->
        String.concat "," (List.map (_csvCell to_string) values1) =
        String.concat "," (List.map (_csvCell to_string) values2) ->
        List.map (cell_text to_string) values1 =
        List.map (cell_text to_string) values2) /\
    (forall table1 table2,
        table1 <> [] -> table2 <> [] ->
        Forall (fun cells => cells <> []) table1 ->
        Forall (fun cells => cells <> []) table2 ->
        csv_content table1 = csv_content table2 -> table1 = table2).
Proof.
  intros to_string. split; [|split; [|split]].
  - intros v Hv. unfold _csvCell, csv_quote. now rewrite Hv.
  - intros v1 v2 Heq. unfold _csvCell in Heq.
    destruct (csv_quote_prefix (cell_text to_string v1)
                (cell_text to_string v2) EmptyString EmptyString I I)
      as [H _]; [|exact H].
    now rewrite !string_append_nil.
  - intros values1 values2 H1 H2 Heq.
    assert (Hmap : forall values,
               List.map (_csvCell to_string) values =
               List.map csv_quote (List.map (cell_text to_string) values)).
    { intros values. now rewrite List.map_map. }
    rewrite !Hmap in Heq.
    assert (N1 : List.map (cell_text to_string) values1 <> [])
      by (destruct values1; [contradiction|discriminate]).
    assert (N2 : List.map (cell_text to_string) values2 <> [])
      by (destruct values2; [contradiction|discriminate]).
    rewrite <- (string_append_nil (String.concat "," _)) in Heq.
    symmetry in Heq.
    rewrite <- (string_append_nil (String.concat "," _)) in Heq.
    symmetry in Heq.
    exact (proj1 (csv_line_prefix _ _ EmptyString EmptyString N1 N2 I I Heq)).
  - intros table1 table2. apply csv_content_prefix.
Qed.

Lemma csv_cells_decodable_witness :
  _csvCell TextExamples.render (VStr "x,y") =
    (dquote ++ "x,y" ++ dquote)%string /\
  _csvCell TextExamples.render VNull = EmptyString /\
  (_csvCell TextExamples.render (VStr "a") =
   _csvCell TextExamples.render (VStr "a") ->
   cell_text TextExamples.render (VStr "a") =
   cell_text TextExamples.render (VStr "a")).
Proof.
  split; [reflexivity|]. split; [reflexivity|].
  destruct (csv_cells_decodable TextExamples.render) as (_ & H & _).
  apply H.
Defined.

(** ** Export *)

Section ExportProperties.

Variable to_string : JsValue -> string.
Variable object_keys : JsValue -> Exn + list string.
Variable get_property : JsValue -> string -> Exn + JsValue.

Lemma row_cells_quoted (row : JsValue) (headers : list string) :
  forall cells,
    row_cells to_string get_property row headers = inr cells ->
    exists texts,
      cells = List.map csv_quote texts /\ List.length texts = List.length headers.
Proof.
  induction headers as [|h rest IH]; intros cells; cbn.
  - intros H. inversion H. now exists [].
  - destruct (get_property row h) as [e|value]; [discriminate|].
    destruct (row_cells to_string get_property row rest) as [e|cells'];
      [discriminate|].
    intros H. inversion H; subst.
    destruct (IH cells' eq_refl) as (texts & -> & Hlen).
    exists (cell_text to_string value :: texts). cbn. now rewrite Hlen.
Qed.

Lemma row_lines_table (headers : list string) (data : list JsValue) :
  forall lines,
    row_lines to_string get_property headers data = inr lines ->
    exists table,
      lines = List.map
                (fun cells => String.concat "," (List.map csv_quote cells))
                table /\
      List.length table = List.length data /\
      Forall (fun cells => List.length cells = List.length headers) table.
Proof.
  induction data as [|row rest IH]; intros lines; cbn.
  - intros H. inversion H. now exists [].
  - destruct (row_cells to_string get_property row headers) as [e|cells]
      eqn:Ec; [discriminate|].
    destruct (row_lines to_string get_property headers rest) as [e|lines'];
      [discriminate|].
    intros H. inversion H; subst.
    destruct (row_cells_quoted row headers cells Ec) as (texts & -> & Hlen).
    destruct (IH lines' eq_refl) as (table & -> & Hn & Hall).
    exists (texts :: table). cbn. rewrite Hn. auto.
Qed.

Lemma csv_lines_table (first_row : JsValue) (rest : list JsValue) :
  forall lines,
    csv_lines to_string object_keys get_property first_row rest =
      inr lines ->
    exists headers table,
      object_keys first_row = inr headers /\
      String.concat CRLF lines = csv_content table /\
      List.length table = S (S (List.length rest)) /\
      Forall (fun cells => List.length cells = List.length headers) table.
Proof.
  intros lines. unfold csv_lines.
  destruct (object_keys first_row) as [e|headers]; [discriminate|].
  destruct (row_lines to_string get_property headers (first_row :: rest))
    as [e|lines'] eqn:El; [discriminate|].
  intros H. inversion H; subst.
  destruct (row_lines_table headers (first_row :: rest) lines' El)
    as (table & -> & Hn & Hall).
  exists headers,
    (List.map (fun h => cell_text to_string (VStr h)) headers :: table).
  split; [reflexivity|]. split; [|split].
  - unfold csv_content. cbn [List.map]. rewrite List.map_map. reflexivity.
  - cbn [List.length]. rewrite Hn. reflexivity.
  - constructor; [apply List.length_map|exact Hall].
Qed.

End ExportProperties.

(** X22.  [exportCSV] checks its arguments before it touches the file
    system: a [filepath] that is not a string, and then [data] that is not
    a non-empty array, give a [ValidationError] and no call of [fs].  Any
    other failure that is not a [ScrapelyError] is thrown as an
    [ExportError] around its cause.  The file is written in one call,
    after every line was built: its content is the table of the header
    line and one line per row, each of as many cells as the first row has
    keys. *)
Theorem exportCSV_outcomes :
  forall (to_string : JsValue -> string)
         (object_keys : JsValue -> Exn + list string)
         (get_property : JsValue -> string -> Exn + JsValue)
         (fs : FileSystem) (data filepath : JsValue)
         (result : ExportExn + string) (ops : list FsOp),
    exportCSV to_string object_keys get_property fs data filepath =
      (result, ops) ->
    (js_typeof filepath <> "string" ->
     result = inl (Raised (ValidationError "filepath" "must be a string")) /\
     ops = []) /\
    (js_typeof filepath = "string" ->
     (forall row rest, data <> VArr (row :: rest)) ->
     result = inl (Raised (ValidationError "data"
                             "must be a non-empty array of objects")) /\
     ops = []) /\
    (forall e, result = inl (Raised e) -> is_ScrapelyError e = true) /\
    (forall f cause, result = inl (ExportError f cause) ->
                     f = filepath /\ is_ScrapelyError cause = false) /\
    (forall abs, result = inr abs ->
                 abs = path_resolve fs filepath /\
                 exists content,
                   ops = [Mkdir (path_dirname fs abs);
                          WriteFile abs content]) /\
    (ops = [] \/
     ops = [Mkdir (path_dirname fs (path_resolve fs filepath))] \/
     exists content,
       ops = [Mkdir (path_dirname fs (path_resolve fs filepath));
              WriteFile (path_resolve fs filepath) content]) /\
    (forall file content,
        In (WriteFile file content) ops ->
        exists row rest headers table,
          data = VArr (row :: rest) /\
          object_keys row = inr headers /\
          content = csv_content table /\
          List.length table = S (S (List.length rest)) /\
          Forall (fun cells => List.length cells = List.length headers) table).
Proof.
  intros to_string object_keys get_property fs data filepath result ops.
  unfold exportCSV, _assert.
  destruct (js_typeof filepath =? "string") eqn:Ety; cbn [negb].
  2:{ intros H. inversion H; subst. apply String.eqb_neq in Ety.
      repeat split; try discriminate; try tauto.
      - intros e He. inversion He. reflexivity.
      - intros file content []. }
  apply String.eqb_eq in Ety.
  assert (Hwrap : forall e r,
             (forall e', inl (export_failure filepath e) = @inl _ string (Raised e') ->
                         is_ScrapelyError e' = true) /\
             (forall f cause,
                 inl (export_failure filepath e) =
                   @inl _ string (ExportError f cause) ->
                 f = filepath /\ is_ScrapelyError cause = false) /\
             (forall abs : string,
                 inl (export_failure filepath e) = inr abs -> r abs)).
  { intros e r. unfold export_failure.
    destruct (is_ScrapelyError e) eqn:Es; repeat split;
      try discriminate; intros; congruence. }
  destruct data as [| | | | |items|];
    try (intros H; inversion H; subst;
         repeat split; try discriminate; try tauto;
         [intros e He; inversion He; reflexivity
         |intros file content []]).
  destruct items as [|row rest].
  { intros H; inversion H; subst.
    repeat split; try discriminate; try tauto.
    - intros e He; inversion He; reflexivity.
    - intros file content []. }
  cbv zeta.
  destruct (csv_lines to_string object_keys get_property row rest)
    as [e|lines] eqn:El.
  { intros H; inversion H; subst.
    split; [tauto|]. split; [intros _ Hd; now contradiction (Hd row rest)|].
    split; [apply (Hwrap e (fun _ => True))|].
    split; [apply (Hwrap e (fun _ => True))|].
    split; [discriminate|]. split; [tauto|].
    intros file content []. }
  destruct (csv_lines_table to_string object_keys get_property row rest
              lines El) as (headers & table & Hkeys & Hcontent & Hn & Hall).
  destruct (fs_mkdir fs (path_dirname fs (path_resolve fs filepath)))
    as [e|] eqn:Em.
  { intros H; inversion H; subst.
    split; [tauto|]. split; [intros _ Hd; now contradiction (Hd row rest)|].
    split; [apply (Hwrap e (fun _ => True))|].
    split; [apply (Hwrap e (fun _ => True))|].
    split; [discriminate|]. split; [tauto|].
    intros file content [Hin|[]]. discriminate. }
  destruct (fs_writeFile fs (path_resolve fs filepath)
              (String.concat CRLF lines)) as [e|] eqn:Ew.
  - intros H; inversion H; subst.
    split; [tauto|]. split; [intros _ Hd; now contradiction (Hd row rest)|].
    split; [apply (Hwrap e (fun _ => True))|].
    split; [apply (Hwrap e (fun _ => True))|].
    split; [discriminate|].
    split; [right; right; eauto|].
    intros file content [Hin|[Hin|[]]]; [discriminate|].
    inversion Hin; subst.
    exists row, rest, headers, table. auto.
  - intros H; inversion H; subst.
    split; [tauto|]. split; [intros _ Hd; now contradiction (Hd row rest)|].
    split; [discriminate|]. split; [discriminate|].
    split; [intros abs Habs; inversion Habs; subst; eauto|].
    split; [right; right; eauto|].
    intros file content [Hin|[Hin|[]]]; [discriminate|].
    inversion Hin; subst.
    exists row, rest, headers, table. auto.
Qed.

Lemma exportCSV_outcomes_witness :
  exportCSV TextExamples.render TextExamples.keys_of TextExamples.property_of
            TextExamples.calm_fs TextExamples.two_rows (VStr "out.csv") =
    (inr "out.csv",
     [Mkdir ".";
      WriteFile "out.csv"
        ("a,b" ++ CRLF ++ "1," ++ dquote ++ "x,y" ++ dquote ++ CRLF ++ ",")%string])
  /\
  "out.csv" = path_resolve TextExamples.calm_fs (VStr "out.csv").
Proof.
  split; [reflexivity|].
  destruct (exportCSV_outcomes TextExamples.render TextExamples.keys_of
              TextExamples.property_of TextExamples.calm_fs
              TextExamples.two_rows (VStr "out.csv") _ _ eq_refl)
    as (_ & _ & _ & _ & H & _).
  exact (proj1 (H "out.csv" eq_refl)).
Defined.

(** ** Addresses and numbers in a page *)

Lemma unique_distinct (K : Type) (same : K -> K -> bool)
    (Hsame : forall a b, same a b = true <-> a = b) (values : list K) :
  NoDup (_unique same values) /\
  (forall k, In k values <-> In k (_unique same values)).
Proof.
  unfold _unique, set_of.
  rewrite (set_of_filter K same values []). cbn [app].
  destruct (uniqueBy_filter_keys K same Hsame K (fun k => k) values []
              (NoDup_nil K)) as [Hnd Hin].
  cbn [app] in Hnd, Hin. rewrite !List.map_id in *. auto.
Qed.

(** X23.  [extractEmails] and [extractPhoneNumbers] return every match of
    the fetched page once: the result has no repeated entry and holds
    exactly the matches, for the phone numbers after trimming, so that two
    matches that differ by outer white space give one entry.  When [fetch]
    throws, both throw the same exception. *)
Theorem extract_matches_distinct :
  forall (env : Env) (opts : Opts)
         (match_emails match_phones : string -> list string)
         (url : JsValue) (w : World),
    (forall html w1,
        fetch env opts url w = (Return html, w1) ->
        exists emails phones,
          extractEmails env opts match_emails url w = (Return emails, w1) /\
          NoDup emails /\
          (forall a, In a emails <-> In a (match_emails html)) /\
          extractPhoneNumbers env opts match_phones url w =
            (Return phones, w1) /\
          NoDup phones /\
          (forall p, In p phones <->
                     In p (List.map js_trim (match_phones html)))) /\
    (forall e w1,
        fetch env opts url w = (Throw e, w1) ->
        extractEmails env opts match_emails url w = (Throw e, w1) /\
        extractPhoneNumbers env opts match_phones url w = (Throw e, w1)).
Proof.
  intros env opts match_emails match_phones url w.
  unfold extractEmails, extractPhoneNumbers, bind. split.
  - intros html w1 ->. cbn [ret].
    destruct (unique_distinct string String.eqb string_same_eq
                (match_emails html)) as [Hnd Hin].
    destruct (unique_distinct string String.eqb string_same_eq
                (List.map js_trim (match_phones html))) as [Hnd' Hin'].
    eexists _, _. split; [reflexivity|]. split; [exact Hnd|].
    split; [intros a; symmetry; apply Hin|].
    split; [reflexivity|]. split; [exact Hnd'|].
    intros p; symmetry; apply Hin'.
  - intros e w1 ->. auto.
Qed.

Lemma extract_matches_distinct_witness :
  extractEmails Examples.healthy_env (Toy.plain_opts 3)
                MatchExamples.three_addresses (VStr "/p1") initial_world =
    (Return ["a@x.io"; "b@x.io"],
     snd (fetch Examples.healthy_env (Toy.plain_opts 3) (VStr "/p1")
            initial_world)) /\
  fst (extractPhoneNumbers Examples.healthy_env (Toy.plain_opts 3)
         MatchExamples.two_numbers (VStr "/p1") initial_world) =
    Return ["555-1234"] /\
  exists emails,
    fst (extractEmails Examples.healthy_env (Toy.plain_opts 3)
           MatchExamples.three_addresses (VStr "/p1") initial_world) =
      Return emails /\
    NoDup emails.
Proof.
  split; [reflexivity|]. split; [reflexivity|].
  destruct (extract_matches_distinct Examples.healthy_env (Toy.plain_opts 3)
              MatchExamples.three_addresses MatchExamples.two_numbers
              (VStr "/p1") initial_world) as [H _].
  destruct (H (match fst (fetch Examples.healthy_env (Toy.plain_opts 3)
                            (VStr "/p1") initial_world) with
               | Return html => html
               | _ => EmptyString
               end)
              (snd (fetch Examples.healthy_env (Toy.plain_opts 3)
                      (VStr "/p1") initial_world)) eq_refl)
    as (emails & phones & He & Hnd & _).
  exists emails. split; [now rewrite He|exact Hnd].
Defined.

(** ** Tables *)

(** [decimal] writes a number below ten as its digit and any other number
    as the digits of its tenth part followed by its last digit. *)
Lemma decimal_digits_acc (fuel : nat) :
  forall n acc,
    decimal_digits fuel n acc =
    (decimal_digits fuel n EmptyString ++ acc)%string.
Proof.
  induction fuel as [|fuel IH]; intros n acc; cbn [decimal_digits];
    [reflexivity|].
  destruct (n / 10 =? 0)%nat; [reflexivity|].
  rewrite IH. rewrite (IH _ (String _ EmptyString)).
  rewrite string_append_assoc. reflexivity.
Qed.

Lemma decimal_digits_fuel (f1 : nat) :
  forall f2 n acc,
    (n < f1)%nat -> (n < f2)%nat ->
    decimal_digits f1 n acc = decimal_digits f2 n acc.
Proof.
  induction f1 as [|f1 IH]; intros f2 n acc H1 H2; [lia|].
  destruct f2 as [|f2]; [lia|]. cbn [decimal_digits].
  destruct (n / 10 =? 0)%nat eqn:E; [reflexivity|].
  apply Nat.eqb_neq in E.
  assert (Hpos : (0 < n)%nat)
    by (destruct n; [exfalso; apply E; reflexivity|lia]).
  assert (Hlt : (n / 10 < n)%nat) by (apply Nat.div_lt; lia).
  apply IH; lia.
Qed.

Lemma decimal_spec :
  (forall d, (d < 10)%nat ->
             decimal d = String (ascii_of_nat (48 + d)) EmptyString) /\
  (forall q d, (0 < q)%nat -> (d < 10)%nat ->
               decimal (10 * q + d) =
               (decimal q ++ String (ascii_of_nat (48 + d)) EmptyString)%string).
Proof.
  split.
  - intros d Hd. unfold decimal. cbn [decimal_digits].
    rewrite (Nat.div_small d 10 Hd), (Nat.mod_small d 10 Hd). reflexivity.
  - intros q d Hq Hd. unfold decimal at 1. cbn [decimal_digits].
    assert (Hdiv : ((10 * q + d) / 10 = q)%nat).
    { rewrite Nat.mul_comm, Nat.div_add_l by lia.
      rewrite (Nat.div_small d 10 Hd). lia. }
    assert (Hmod : ((10 * q + d) mod 10 = d)%nat).
    { rewrite Nat.add_comm, Nat.mul_comm, Nat.Div0.mod_add.
      now apply Nat.mod_small. }
    rewrite Hdiv, Hmod.
    assert (E : (q =? 0)%nat = false) by (apply Nat.eqb_neq; lia).
    rewrite E. rewrite decimal_digits_acc. unfold decimal.
    rewrite (decimal_digits_fuel (10 * q + d) (S q) q EmptyString) by lia.
    reflexivity.
Qed.

(** The key of a cell, written out. *)
Lemma cell_key_spelled (headers : list string) (j : nat) :
  cell_key headers j =
  match nth_error headers j with
  | Some (String c h) => String c h
  | _ => ("col_" ++ decimal (j + 1))%string
  end.
Proof.
  unfold cell_key, col_name.
  destruct (nth_error headers j) as [[|c h]|]; reflexivity.
Qed.

Section TableProperties.

Context {DV : DocumentView}.
Variable D : Doc.
Variable headers : list string.

Lemma fill_row_NoDup (cells : list Elem) :
  forall j row, NoDup (List.map fst row) ->
                NoDup (List.map fst (fill_row D headers j cells row)).
Proof.
  induction cells as [|td rest IH]; intros j row H; cbn; [exact H|].
  apply IH. now apply set_property_NoDup.
Qed.

Lemma fill_row_keys (cells : list Elem) :
  forall j row k,
    In k (List.map fst (fill_row D headers j cells row)) <->
    In k (List.map fst row) \/
    (k <> "__proto__" /\
     exists i, (i < List.length cells)%nat /\ k = cell_key headers (j + i)).
Proof.
  induction cells as [|td rest IH]; intros j row k; cbn [fill_row].
  - split; [auto|]. intros [H|(_ & i & Hi & _)]; [exact H|]. cbn in Hi. lia.
  - rewrite IH, set_property_keys. split.
    + intros [[[-> Hne]|H]|(Hne & i & Hi & ->)].
      * right. split; [exact Hne|]. exists 0%nat.
        rewrite Nat.add_0_r. cbn. split; [lia|auto].
      * now left.
      * right. split; [exact Hne|]. exists (S i). cbn. split; [lia|].
        now replace (j + S i)%nat with (S j + i)%nat by lia.
    + intros [H|(Hne & i & Hi & ->)]; [now left; right|].
      destruct i as [|i].
      * left. left. rewrite Nat.add_0_r in *. auto.
      * right. split; [exact Hne|]. exists i. cbn in Hi. split; [lia|].
        now replace (j + S i)%nat with (S j + i)%nat by lia.
Qed.

Lemma fill_row_keeps (cells : list Elem) :
  forall j row k,
    (forall i, (i < List.length cells)%nat -> cell_key headers (j + i) <> k) ->
    own_get (fill_row D headers j cells row) k = own_get row k.
Proof.
  induction cells as [|td rest IH]; intros j row k H; cbn [fill_row];
    [reflexivity|].
  rewrite IH.
  - apply own_get_set_property_other. specialize (H 0%nat).
    rewrite Nat.add_0_r in H. apply H. cbn. lia.
  - intros i Hi. specialize (H (S i)).
    replace (j + S i)%nat with (S j + i)%nat in H by lia.
    apply H. cbn. lia.
Qed.

Lemma fill_row_last (cells : list Elem) :
  forall j row i td,
    nth_error cells i = Some td ->
    cell_key headers (j + i) <> "__proto__" ->
    (forall i', (i < i')%nat -> (i' < List.length cells)%nat ->
                cell_key headers (j + i') <> cell_key headers (j + i)) ->
    own_get (fill_row D headers j cells row) (cell_key headers (j + i)) =
      Some (js_trim (text D [td])).
Proof.
  induction cells as [|c rest IH]; intros j row i td Hnth Hne Hlast.
  - destruct i; discriminate.
  - cbn [fill_row]. destruct i as [|i].
    + cbn in Hnth. inversion Hnth; subst c.
      rewrite fill_row_keeps.
      * rewrite Nat.add_0_r in *. now apply own_get_set_property_same.
      * intros i' Hi'.
        replace (S j + i')%nat with (j + S i')%nat by lia.
        apply Hlast; cbn; lia.
    + cbn in Hnth.
      replace (j + S i)%nat with (S j + i)%nat in * by lia.
      apply IH; [exact Hnth|exact Hne|].
      intros i' H1 H2.
      replace (S j + i')%nat with (j + S i')%nat by lia.
      apply Hlast; cbn; lia.
Qed.

End TableProperties.

(** X24.  Of what [extractTable] resolves to.  Without [opts.all] it is
    [null] or one table, never an array; with it, an array of one table
    per match.  Every table is that of a matched element.  A row comes
    from a [tr] with at least one [td].  The key of its cell [j] is
    [headers[j]] or, where that is missing or empty, [col_] followed by
    the decimal digits of [j + 1]; the own keys of the row are the keys of
    its cells other than [__proto__], for which the assignment adds no own
    property, so that the row is empty when no cell has another key.  A
    key holds the trimmed text of the last cell that has it: of two
    columns with one header only the second is kept. *)
Theorem extractTable_rows :
  ((forall d, (d < 10)%nat ->
              decimal d = String (ascii_of_nat (48 + d)) EmptyString) /\
   (forall q d, (0 < q)%nat -> (d < 10)%nat ->
                decimal (10 * q + d) =
                (decimal q ++
                 String (ascii_of_nat (48 + d)) EmptyString)%string)) /\
  forall (DV : DocumentView) (env : Env) (opts : Opts)
         (children not_ : Doc -> list Elem -> string -> list Elem)
         (url : JsValue) (selector : option string) (all : bool)
         (w w1 : World) (result : TableResult),
    extractTable env opts children not_ url selector all w =
      (Return result, w1) ->
    exists D,
      load env opts url w = (Return D, w1) /\
      (if all
       then result =
            Tables (List.map (table_of children not_ D)
                             (select D (nullish selector "table")))
       else match select D (nullish selector "table") with
            | [] => result = NoTable
            | table :: _ => result = OneTable (table_of children not_ D table)
            end) /\
      forall t, In t (tables_of result) ->
        (exists table, In table (select D (nullish selector "table")) /\
                       t = table_of children not_ D table) /\
        forall row, In row (table_rows t) ->
          exists tr,
            let cells := children D [tr] "td" in
            let key := fun j =>
                         match nth_error (table_headers t) j with
                         | Some (String c h) => String c h
                         | _ => ("col_" ++ decimal (j + 1))%string
                         end in
            cells <> [] /\
            NoDup (List.map fst row) /\
            (forall k, In k (List.map fst row) <->
                       k <> "__proto__" /\
                       exists j, (j < List.length cells)%nat /\ k = key j) /\
            (row = [] <->
             forall j, (j < List.length cells)%nat -> key j = "__proto__") /\
            (forall j td,
                nth_error cells j = Some td ->
                key j <> "__proto__" ->
                (forall j', (j < j')%nat -> (j' < List.length cells)%nat ->
                            key j' <> key j) ->
                own_get row (key j) = Some (js_trim (text D [td]))).
Proof.
  split; [exact decimal_spec|].
  intros DV env opts children not_ url selector all w w1 result Hrun.
  unfold extractTable, bind in Hrun.
  destruct (load env opts url w) as [[D| |] w0] eqn:Hload; try discriminate.
  cbn [ret] in Hrun. injection Hrun as Hres Hw. subst w0.
  exists D. split; [reflexivity|].
  assert (Hshape :
            if all
            then result =
                 Tables (List.map (table_of children not_ D)
                                  (select D (nullish selector "table")))
            else match select D (nullish selector "table") with
                 | [] => result = NoTable
                 | table :: _ =>
                     result = OneTable (table_of children not_ D table)
                 end).
  { rewrite <- Hres.
    destruct (select D (nullish selector "table")); destruct all; reflexivity. }
  clear Hres.
  split; [exact Hshape|].
  intros t Ht.
  assert (Hfrom : exists table,
             In table (select D (nullish selector "table")) /\
             t = table_of children not_ D table).
  { destruct all.
    - rewrite Hshape in Ht. cbn [tables_of] in Ht.
      apply in_map_iff in Ht. destruct Ht as (table & <- & Hin). eauto.
    - destruct (select D (nullish selector "table")) as [|table rest].
      + rewrite Hshape in Ht. destruct Ht.
      + rewrite Hshape in Ht. destruct Ht as [<-|[]].
        exists table. split; [now left|reflexivity]. }
  split; [exact Hfrom|].
  destruct Hfrom as (table & _ & ->).
  intros row Hrow. unfold table_of in Hrow. cbn [table_rows] in Hrow.
  apply in_flat_map in Hrow. destruct Hrow as (tr & _ & Hrow).
  unfold row_of in Hrow.
  destruct (List.length (children D [tr] "td") =? 0)%nat eqn:En;
    [destruct Hrow|].
  destruct Hrow as [<-|[]].
  assert (Hne : children D [tr] "td" <> []).
  { intros Heq. rewrite Heq in En. discriminate. }
  exists tr. cbv zeta. unfold table_of. cbn [table_headers].
  match goal with
  | |- context [fill_row D ?h 0 _ []] => set (hs := h) in *
  end.
  set (cells := children D [tr] "td") in *.
  set (key := fun j => match nth_error hs j with
                       | Some (String c h) => String c h
                       | _ => ("col_" ++ decimal (j + 1))%string
                       end).
  assert (Hkey : forall j, key j = cell_key hs j).
  { intros j. subst key. cbv beta. now rewrite cell_key_spelled. }
  assert (Hkeys : forall k,
             In k (List.map fst (fill_row D hs 0 cells [])) <->
             k <> "__proto__" /\
             exists j, (j < List.length cells)%nat /\ k = key j).
  { intros k. rewrite fill_row_keys. cbn [List.map In Nat.add]. split.
    - intros [[]|(Hk & j & Hj & ->)]. split; [exact Hk|].
      exists j. now rewrite Hkey.
    - intros (Hk & j & Hj & ->). right. split; [exact Hk|].
      exists j. now rewrite <- Hkey. }
  split; [exact Hne|].
  split; [apply fill_row_NoDup; constructor|].
  split; [exact Hkeys|].
  split.
  - split.
    + intros Hrow j Hj.
      destruct (String.eqb (key j) "__proto__") eqn:E;
        [now apply String.eqb_eq in E|].
      apply String.eqb_neq in E. exfalso.
      assert (Hin : In (key j) (List.map fst (fill_row D hs 0 cells [])))
        by (apply Hkeys; eauto).
      rewrite Hrow in Hin. destruct Hin.
    + intros Hall.
      destruct (fill_row D hs 0 cells []) as [|[k v] rest] eqn:Er;
        [reflexivity|].
      assert (Hin : In k (List.map fst ((k, v) :: rest))) by now left.
      apply Hkeys in Hin. destruct Hin as (Hk & j & Hj & ->).
      now contradiction (Hall j Hj).
  - intros j td Hnth Hk Hlast.
    change (key j <> "__proto__") in Hk.
    change (forall j', (j < j')%nat -> (j' < List.length cells)%nat ->
                       key j' <> key j) in Hlast.
    change (own_get (fill_row D hs 0 cells []) (key j) =
            Some (js_trim (text D [td]))).
    rewrite Hkey in Hk. rewrite Hkey.
    apply (fill_row_last D hs cells 0 [] j td Hnth Hk).
    intros j' H1 H2. cbn [Nat.add]. rewrite <- !Hkey. now apply Hlast.
Qed.

Lemma extractTable_rows_witness :
  fst (@extractTable TableExamples.table_view Examples.healthy_env
         (Toy.plain_opts 3) TableExamples.toy_children TableExamples.toy_not
         (VStr "/prices") None false initial_world) =
    Return (OneTable (mkTable ["n"; "n"] [[("n", "b"); ("col_3", "c")]])) /\
  fst (@extractTable TableExamples.table_view TableExamples.proto_env
         (Toy.plain_opts 3) TableExamples.toy_children TableExamples.toy_not
         (VStr "/proto") None false initial_world) =
    Return (OneTable (mkTable ["__proto__"] [[]])) /\
  exists D,
    @load TableExamples.table_view Examples.healthy_env (Toy.plain_opts 3)
          (VStr "/prices") initial_world =
      (Return D,
       snd (@load TableExamples.table_view Examples.healthy_env
              (Toy.plain_opts 3) (VStr "/prices") initial_world)).
Proof.
  split; [reflexivity|]. split; [reflexivity|].
  destruct extractTable_rows as [_ H].
  destruct (H TableExamples.table_view Examples.healthy_env
              (Toy.plain_opts 3) TableExamples.toy_children
              TableExamples.toy_not (VStr "/prices") None false initial_world
              (snd (@load TableExamples.table_view Examples.healthy_env
                      (Toy.plain_opts 3) (VStr "/prices") initial_world))
              (OneTable (mkTable ["n"; "n"] [[("n", "b"); ("col_3", "c")]]))
              eq_refl) as (D & Hload & _).
  exists D. exact Hload.
Defined.

(** ** Patterns *)

Lemma nullable_Lang (r : Regex) : nullable r = true <-> Lang r EmptyString.
Proof.
  induction r as [| |p|r1 IH1 r2 IH2|r1 IH1 r2 IH2|r IH]; cbn.
  - split; [discriminate|]. intros H. inversion H.
  - split; [constructor|reflexivity].
  - split; [discriminate|]. intros H. inversion H.
  - rewrite andb_true_iff, IH1, IH2. split.
    + intros [H1 H2]. exact (LangSeq r1 r2 _ _ H1 H2).
    + intros H. inversion H as [| |? ? s1 s2 H1 H2 Hr Hs| | | |]; subst.
      destruct s1; [|discriminate]. destruct s2; [|discriminate]. auto.
  - rewrite orb_true_iff, IH1, IH2. split.
    + intros [H|H]; [now apply LangAltL|now apply LangAltR].
    + intros H. inversion H; subst; auto.
  - split; [constructor|reflexivity].
Qed.

Lemma Lang_Star_cons (r : Regex) (s : string) :
  Lang (Star r) s ->
  forall c rest, s = String c rest ->
    exists s1 s2, rest = (s1 ++ s2)%string /\
                  Lang r (String c s1) /\ Lang (Star r) s2.
Proof.
  intros H. remember (Star r) as r' eqn:Hr. revert Hr.
  induction H as [| | | | | |r0 s1 s2 H1 _ H2 IH2]; intros Hr;
    try discriminate.
  injection Hr as ->. intros c rest Hs.
  destruct s1 as [|c1 s1].
  - cbn in Hs. exact (IH2 eq_refl c rest Hs).
  - cbn in Hs. injection Hs as -> <-.
    exists s1, s2. auto.
Qed.

Lemma deriv_Lang (r : Regex) :
  forall c s, Lang (deriv c r) s <-> Lang r (String c s).
Proof.
  induction r as [| |p|r1 IH1 r2 IH2|r1 IH1 r2 IH2|r IH]; intros c s; cbn.
  - split; intros H; inversion H.
  - split; intros H; inversion H.
  - destruct (p c) eqn:E; split; intros H; inversion H; subst.
    + now constructor.
    + constructor.
    + congruence.
  - assert (Hseq : Lang (Seq (deriv c r1) r2) s <->
                   exists s1 s2, s = (s1 ++ s2)%string /\
                                 Lang r1 (String c s1) /\ Lang r2 s2).
    { split.
      - intros H. inversion H as [| |? ? s1 s2 H1 H2 Hr Hs| | | |]; subst.
        exists s1, s2. rewrite <- IH1. auto.
      - intros (s1 & s2 & -> & H1 & H2).
        apply LangSeq; [now apply IH1|exact H2]. }
    assert (Hsplit : Lang (Seq r1 r2) (String c s) <->
                     (exists s1 s2, s = (s1 ++ s2)%string /\
                                    Lang r1 (String c s1) /\ Lang r2 s2) \/
                     (Lang r1 EmptyString /\ Lang r2 (String c s))).
    { split.
      - intros H. inversion H as [| |? ? s1 s2 H1 H2 Hr Hs| | | |]; subst.
        destruct s1 as [|c1 s1].
        + cbn in Hs. subst s2. now right.
        + cbn in Hs. injection Hs as -> <-. left. exists s1, s2. auto.
      - intros [(s1 & s2 & -> & H1 & H2)|[H1 H2]].
        + exact (LangSeq r1 r2 (String c s1) s2 H1 H2).
        + exact (LangSeq r1 r2 EmptyString (String c s) H1 H2). }
    rewrite Hsplit.
    destruct (nullable r1) eqn:En.
    + apply nullable_Lang in En. split.
      * intros H. inversion H; subst.
        -- left. now apply Hseq.
        -- right. split; [exact En|now apply IH2].
      * intros [H|[_ H]].
        -- apply LangAltL. now apply Hseq.
        -- apply LangAltR. now apply IH2.
    + rewrite Hseq. split; [auto|].
      intros [H|[H _]]; [exact H|].
      apply nullable_Lang in H. congruence.
  - split.
    + intros H. inversion H; subst.
      * apply LangAltL. now apply IH1.
      * apply LangAltR. now apply IH2.
    + intros H. inversion H; subst.
      * apply LangAltL. now apply IH1.
      * apply LangAltR. now apply IH2.
  - split.
    + intros H. inversion H as [| |? ? s1 s2 H1 H2 Hr Hs| | | |]; subst.
      apply IH in H1.
      exact (LangStarCons r (String c s1) s2 H1 H2).
    + intros H.
      destruct (Lang_Star_cons r _ H c s eq_refl) as (s1 & s2 & -> & H1 & H2).
      apply LangSeq; [now apply IH|exact H2].
Qed.

Lemma test_whole_Lang (s : string) :
  forall r, test_whole r s = true <-> Lang r s.
Proof.
  induction s as [|c s IH]; intros r; cbn.
  - apply nullable_Lang.
  - rewrite IH. apply deriv_Lang.
Qed.

Lemma chars_append (s1 s2 : string) :
  list_ascii_of_string (s1 ++ s2) =
  list_ascii_of_string s1 ++ list_ascii_of_string s2.
Proof.
  induction s1 as [|c s1 IH]; cbn; [reflexivity|now rewrite IH].
Qed.

Lemma Lang_uses (r : Regex) (s : string) :
  Lang r s -> forall c, In c (list_ascii_of_string s) -> uses r c = true.
Proof.
  induction 1 as [|p c0 Hp|r1 r2 s1 s2 _ IH1 _ IH2|r1 r2 s _ IH|r1 r2 s _ IH
                 |r|r s1 s2 _ IH1 _ IH2]; intros c Hin; cbn in *.
  - destruct Hin.
  - destruct Hin as [<-|[]]. exact Hp.
  - rewrite chars_append in Hin. apply in_app_or in Hin.
    destruct Hin as [Hin|Hin]; [rewrite (IH1 c Hin)|rewrite (IH2 c Hin)];
      auto using orb_true_r.
  - now rewrite (IH c Hin).
  - rewrite (IH c Hin). apply orb_true_r.
  - destruct Hin.
  - rewrite chars_append in Hin. apply in_app_or in Hin.
    destruct Hin as [Hin|Hin]; auto.
Qed.

Lemma holds_left (q : ascii -> bool) (s1 s2 : string) :
  holds q s1 -> holds q (s1 ++ s2).
Proof.
  intros (c & Hin & Hq). exists c. split; [|exact Hq].
  rewrite chars_append. apply in_or_app. now left.
Qed.

Lemma holds_right (q : ascii -> bool) (s1 s2 : string) :
  holds q s2 -> holds q (s1 ++ s2).
Proof.
  intros (c & Hin & Hq). exists c. split; [|exact Hq].
  rewrite chars_append. apply in_or_app. now right.
Qed.

Lemma Lang_Chr_holds (x : ascii) (s : string) :
  Lang (Chr x) s -> holds (Ascii.eqb x) s.
Proof.
  intros H. inversion H; subst. exists c. split; [now left|assumption].
Qed.

Lemma Lang_Seq_holds_left (q : ascii -> bool) (a b : Regex) (s : string) :
  (forall s', Lang a s' -> holds q s') -> Lang (Seq a b) s -> holds q s.
Proof.
  intros Ha H. inversion H; subst. apply holds_left. now apply Ha.
Qed.

Lemma Lang_Seq_holds_right (q : ascii -> bool) (a b : Regex) (s : string) :
  (forall s', Lang b s' -> holds q s') -> Lang (Seq a b) s -> holds q s.
Proof.
  intros Hb H. inversion H; subst. apply holds_right. now apply Hb.
Qed.

Lemma Lang_OneOf_begins (p : ascii -> bool) (s : string) :
  Lang (OneOf p) s -> begins p s.
Proof.
  intros H. inversion H; subst. now exists c, EmptyString.
Qed.

Lemma Lang_Seq_begins (q : ascii -> bool) (a b : Regex) (s : string) :
  (forall s', Lang a s' -> begins q s') -> Lang (Seq a b) s -> begins q s.
Proof.
  intros Ha H. inversion H as [| |? ? s1 s2 H1 H2 Hr Hs| | | |]; subst.
  destruct (Ha s1 H1) as (c & rest & -> & Hq).
  now exists c, (rest ++ s2)%string.
Qed.

Lemma holds_outside (r : Regex) (x : ascii) (s : string) :
  uses r x = false -> Lang r s -> holds (Ascii.eqb x) s -> False.
Proof.
  intros Hx Hr (c & Hin & Hc). apply Ascii.eqb_eq in Hc. subst c.
  rewrite (Lang_uses r s Hr x Hin) in Hx. discriminate.
Qed.

Lemma float_holds_dot (s : string) :
  Lang float_pattern s -> holds (Ascii.eqb ".") s.
Proof.
  apply Lang_Seq_holds_right. intros s'.
  apply Lang_Seq_holds_left. apply Lang_Chr_holds.
Qed.

Lemma email_holds_at (s : string) :
  Lang email_pattern s -> holds (Ascii.eqb "@") s.
Proof.
  apply Lang_Seq_holds_right. intros s'.
  apply Lang_Seq_holds_left. apply Lang_Chr_holds.
Qed.

Lemma url_holds_colon (s : string) :
  Lang (Seq url_pattern (Star (OneOf (fun _ => true)))) s ->
  holds (Ascii.eqb ":") s.
Proof.
  apply Lang_Seq_holds_left. intros s1.
  do 5 (apply Lang_Seq_holds_right; intros ?s').
  apply Lang_Seq_holds_left. apply Lang_Chr_holds.
Qed.

Lemma date_holds_dash (s : string) :
  Lang (Seq date_pattern (Star (OneOf (fun _ => true)))) s ->
  holds (Ascii.eqb "-") s.
Proof.
  apply Lang_Seq_holds_left. intros s1.
  apply Lang_Seq_holds_right. intros s2.
  apply Lang_Seq_holds_left. apply Lang_Chr_holds.
Qed.

Lemma url_begins_letter (s : string) :
  Lang (Seq url_pattern (Star (OneOf (fun _ => true)))) s ->
  begins (fun c => Ascii.eqb "h" c || Ascii.eqb "H" c) s.
Proof.
  apply Lang_Seq_begins. intros s1.
  apply Lang_Seq_begins. intros s2. apply Lang_OneOf_begins.
Qed.

Lemma date_begins_digit (s : string) :
  Lang (Seq date_pattern (Star (OneOf (fun _ => true)))) s ->
  begins is_digit s.
Proof.
  apply Lang_Seq_begins. intros s1.
  apply Lang_Seq_begins. intros s2.
  apply Lang_Seq_begins. intros s3. apply Lang_OneOf_begins.
Qed.

Lemma not_true_false (b : bool) : (b = true -> False) -> b = false.
Proof. destruct b; [intros H; now contradiction H|reflexivity]. Qed.

(** No two of the patterns match one string, but for the last with the
    third. *)
Lemma patterns_exclusive (v : string) :
  (test_whole integer_pattern v = true ->
   test_whole float_pattern v = false /\
   test_whole email_pattern v = false /\
   test_prefix url_pattern v = false /\
   test_prefix date_pattern v = false) /\
  (test_whole float_pattern v = true ->
   test_whole email_pattern v = false /\
   test_prefix url_pattern v = false /\
   test_prefix date_pattern v = false) /\
  (test_whole email_pattern v = true -> test_prefix url_pattern v = false) /\
  (test_prefix url_pattern v = true -> test_prefix date_pattern v = false).
Proof.
  unfold test_prefix.
  repeat split; try intros H;
    match goal with
    | h : _ = true |- _ => rename h into Hv; apply test_whole_Lang in Hv
    end.
  - apply not_true_false. intros H'. apply test_whole_Lang in H'.
    exact (holds_outside integer_pattern "." v eq_refl Hv (float_holds_dot v H')).
  - apply not_true_false. intros H'. apply test_whole_Lang in H'.
    exact (holds_outside integer_pattern "@" v eq_refl Hv (email_holds_at v H')).
  - apply not_true_false. intros H'. apply test_whole_Lang in H'.
    exact (holds_outside integer_pattern ":" v eq_refl Hv (url_holds_colon v H')).
  - apply not_true_false. intros H'. apply test_whole_Lang in H'.
    exact (holds_outside integer_pattern "-" v eq_refl Hv (date_holds_dash v H')).
  - apply not_true_false. intros H'. apply test_whole_Lang in H'.
    exact (holds_outside float_pattern "@" v eq_refl Hv (email_holds_at v H')).
  - apply not_true_false. intros H'. apply test_whole_Lang in H'.
    exact (holds_outside float_pattern ":" v eq_refl Hv (url_holds_colon v H')).
  - apply not_true_false. intros H'. apply test_whole_Lang in H'.
    exact (holds_outside float_pattern "-" v eq_refl Hv (date_holds_dash v H')).
  - apply not_true_false. intros H'. apply test_whole_Lang in H'.
    exact (holds_outside email_pattern ":" v eq_refl Hv (url_holds_colon v H')).
  - apply not_true_false. intros H'. apply test_whole_Lang in H'.
    destruct (url_begins_letter v Hv) as (c & rest & -> & Hc).
    destruct (date_begins_digit _ H') as (c' & rest' & Heq & Hd).
    injection Heq as <- _.
    apply orb_true_iff in Hc.
    destruct Hc as [Hc|Hc]; apply Ascii.eqb_eq in Hc; subst c; discriminate.
Qed.

Lemma Lang_Star_OneOf (p : ascii -> bool) (s : string) :
  (forall c, In c (list_ascii_of_string s) -> p c = true) ->
  Lang (Star (OneOf p)) s.
Proof.
  induction s as [|c s IH]; intros H; [constructor|].
  apply (LangStarCons (OneOf p) (String c EmptyString) s).
  - constructor. apply H. now left.
  - apply IH. intros c' Hc'. apply H. now right.
Qed.

Lemma integer_pattern_digits (v : string) :
  test_whole integer_pattern v = true <->
  v <> EmptyString /\
  forall c, In c (list_ascii_of_string v) -> is_digit c = true.
Proof.
  rewrite test_whole_Lang. split.
  - intros H. split.
    + inversion H as [| |? ? s1 s2 H1 H2 Hr Hs| | | |]; subst.
      inversion H1; subst. discriminate.
    + intros c Hc. pose proof (Lang_uses _ _ H c Hc) as Hu.
      cbn in Hu. now destruct (is_digit c).
  - intros [Hne Hall]. destruct v as [|c v]; [contradiction|].
    apply (LangSeq (OneOf is_digit) (Star (OneOf is_digit))
             (String c EmptyString) v).
    + constructor. apply Hall. now left.
    + apply Lang_Star_OneOf. intros c' Hc'. apply Hall. now right.
Qed.

Ltac settle_label :=
  intros; try reflexivity; try discriminate;
  try match goal with
      | h : _ /\ _ |- _ => destruct h; discriminate
      end.

(** X25.  For a value whose string is of ASCII characters: [detectType]
    answers ['empty'] for [null], [undefined] and the empty string only; a
    string of white space is a ['string'].  For any other value the answer
    names the pattern that the trimmed string of
    the value matches: the patterns for integer, float, email and url
    exclude each other and the date pattern, so the order of their tests
    does not matter, and ['date'] is answered when the date pattern
    matches and the email pattern does not.  ['integer'] is answered
    exactly for a non-empty string of digits. *)
Theorem detectType_by_pattern :
  forall (to_string : JsValue -> string) (value : JsValue),
    ascii_text (to_string value) ->
    (detectType to_string value = "empty" <->
     value = VUndefined \/ value = VNull \/ value = VStr EmptyString) /\
    (detectType to_string value <> "empty" ->
     (detectType to_string value = "integer" <->
      test_whole integer_pattern (js_trim (to_string value)) = true) /\
     (detectType to_string value = "float" <->
      test_whole float_pattern (js_trim (to_string value)) = true) /\
     (detectType to_string value = "email" <->
      test_whole email_pattern (js_trim (to_string value)) = true) /\
     (detectType to_string value = "url" <->
      test_prefix url_pattern (js_trim (to_string value)) = true) /\
     (detectType to_string value = "date" <->
      test_prefix date_pattern (js_trim (to_string value)) = true /\
      test_whole email_pattern (js_trim (to_string value)) = false) /\
     (detectType to_string value = "integer" <->
      js_trim (to_string value) <> EmptyString /\
      forall c, In c (list_ascii_of_string (js_trim (to_string value))) ->
                is_digit c = true)) /\
    (forall s, value = VStr s -> to_string (VStr s) = s ->
               s <> EmptyString -> js_trim s = EmptyString ->
               detectType to_string value = "string").
Proof.
  intros to_string value _.
  assert (Hchain : forall v,
             (if test_whole integer_pattern v then "integer"
              else if test_whole float_pattern v then "float"
              else if test_whole email_pattern v then "email"
              else if test_prefix url_pattern v then "url"
              else if test_prefix date_pattern v then "date"
              else "string") <> "empty").
  { intros v.
    destruct (test_whole integer_pattern v); [discriminate|].
    destruct (test_whole float_pattern v); [discriminate|].
    destruct (test_whole email_pattern v); [discriminate|].
    destruct (test_prefix url_pattern v); [discriminate|].
    destruct (test_prefix date_pattern v); discriminate. }
  split; [|split].
  - unfold detectType.
    destruct value as [| |b|z|s|items|fields]; cbn [js_not_nullish negb orb];
      try (split; [auto|reflexivity]);
      try (split; [intros H; now apply Hchain in H
                  |intros [H|[H|H]]; discriminate]).
    destruct s as [|c s]; [split; [auto|reflexivity]|].
    split; [intros H; now apply Hchain in H|intros [H|[H|H]]; discriminate].
  - rewrite <- integer_pattern_digits.
    unfold detectType.
    destruct (negb (js_not_nullish value) ||
              match value with
              | VStr EmptyString => true
              | _ => false
              end); [intros H; now contradiction H|].
    intros _. cbv zeta.
    destruct (patterns_exclusive (js_trim (to_string value)))
      as (Hi & Hf & He & Hu).
    destruct (test_whole integer_pattern (js_trim (to_string value))) eqn:Ei.
    { destruct (Hi eq_refl) as (-> & -> & -> & ->).
      repeat split; settle_label. }
    destruct (test_whole float_pattern (js_trim (to_string value))) eqn:Ef.
    { destruct (Hf eq_refl) as (-> & -> & ->).
      repeat split; settle_label. }
    destruct (test_whole email_pattern (js_trim (to_string value))) eqn:Ee.
    { rewrite (He eq_refl).
      repeat split; settle_label. }
    destruct (test_prefix url_pattern (js_trim (to_string value))) eqn:Eu.
    { rewrite (Hu eq_refl).
      repeat split; settle_label. }
    destruct (test_prefix date_pattern (js_trim (to_string value))) eqn:Ed.
    { repeat split; settle_label. }
    repeat split; settle_label.
  - intros s -> Hstr Hne Htrim. unfold detectType.
    destruct s as [|c s]; [contradiction|].
    cbn [js_not_nullish negb orb]. rewrite Hstr, Htrim. reflexivity.
Qed.

Lemma detectType_by_pattern_witness :
  ascii_text (TextExamples.render (VStr " ")) /\
  detectType TextExamples.render (VStr " ") = "string" /\
  detectType TextExamples.render (VStr "2024-01-01@x.io") = "email" /\
  detectType TextExamples.render (VStr " 42 ") = "integer".
Proof.
  assert (Ha : ascii_text (TextExamples.render (VStr " ")))
    by (apply ascii_text_check; reflexivity).
  split; [exact Ha|]. split; [|split; reflexivity].
  destruct (detectType_by_pattern TextExamples.render (VStr " ") Ha)
    as (_ & _ & H).
  apply (H " "); try reflexivity. discriminate.
Defined.
